(** * Ph.Sh_URL: a verification model of [main.go]

    The development embeds the domain cleaner and validator, the retrying
    HTTP fetcher, the four source queriers, the per-domain orchestrator, the
    driver loop, the interrupt watcher and the end-of-run output of
    [main.go], and states the properties of the specification over them.

    Conventions.
    - A Go [string] is a byte sequence: Rocq's [string].  Functions of the
      Go library that iterate over runes ([regexp], [strings.TrimSpace]) are
      written over the bytes, with the multi-byte runes they single out
      spelled by their UTF-8 encoding.
    - A Go slice [[]string] is [slice]: [None] is the [nil] slice, [Some l]
      a non-nil slice.  [append] always returns a non-nil slice.
    - What the program does to the outside (calls of the HTTP client, sleeps,
      channel sends, writes, prints) is recorded as a trace of events.
    - One call of [http.DefaultClient.Do] is one event, whatever it takes
      on the wire.  The order in which [range] visits the keys of a map is
      a parameter of the run ([iteration]), and a file is what a path
      names ([file_of]), not the path.
    - The only loop without a bound of its own, the pagination of OTX,
      takes fuel; [getAlienVaultURLs_returns] gives the fuel that
      suffices when the pagination ends. *)

From Stdlib Require Import ZArith Ascii String List Lia Permutation.
From stdpp Require Import base tactics option list strings gmap sets pretty.

Local Open Scope string_scope.
Local Open Scope list_scope.

(** ** Regular expressions of Go's [regexp], as far as [main.go] uses them *)

Module Regex.

(** The alphabet is the byte; a class is a predicate on bytes. *)
Inductive re : Type :=
| Void
| Eps
| Class (p : ascii → bool)
| Cat (r1 r2 : re)
| Alt (r1 r2 : re)
| Star (r : re).

(** [r?], [r+], [r{0,n}] and [r{n,}] are derived forms. *)
Definition Opt (r : re) : re := Alt Eps r.
Definition Plus (r : re) : re := Cat r (Star r).

Fixpoint UpTo (n : nat) (r : re) : re :=
  match n with
  | O => Eps
  | S n' => Opt (Cat r (UpTo n' r))
  end.

Fixpoint AtLeast (n : nat) (r : re) : re :=
  match n with
  | O => Star r
  | S n' => Cat r (AtLeast n' r)
  end.

(** One byte, and a literal byte sequence. *)
Definition Byte (a : ascii) : re := Class (λ b, bool_decide (b = a)).

Fixpoint Lit (l : list ascii) : re :=
  match l with
  | [] => Eps
  | a :: l' => Cat (Byte a) (Lit l')
  end.

(** The language of an expression. *)
Inductive lang : re → list ascii → Prop :=
| lang_eps : lang Eps []
| lang_class p a : p a = true → lang (Class p) [a]
| lang_cat r1 r2 u v : lang r1 u → lang r2 v → lang (Cat r1 r2) (u ++ v)
| lang_alt_l r1 r2 u : lang r1 u → lang (Alt r1 r2) u
| lang_alt_r r1 r2 u : lang r2 u → lang (Alt r1 r2) u
| lang_star_nil r : lang (Star r) []
| lang_star_cons r u v : lang r u → lang (Star r) v → lang (Star r) (u ++ v).

(** Matching by derivatives. *)
Fixpoint nullable (r : re) : bool :=
  match r with
  | Void => false
  | Eps => true
  | Class _ => false
  | Cat r1 r2 => nullable r1 && nullable r2
  | Alt r1 r2 => nullable r1 || nullable r2
  | Star _ => true
  end.

Definition cat (r1 r2 : re) : re :=
  match r1, r2 with
  | Void, _ => Void
  | _, Void => Void
  | Eps, _ => r2
  | _, _ => Cat r1 r2
  end.

Definition alt (r1 r2 : re) : re :=
  match r1, r2 with
  | Void, _ => r2
  | _, Void => r1
  | _, _ => Alt r1 r2
  end.

Fixpoint deriv (a : ascii) (r : re) : re :=
  match r with
  | Void => Void
  | Eps => Void
  | Class p => if p a then Eps else Void
  | Cat r1 r2 =>
      alt (cat (deriv a r1) r2) (if nullable r1 then deriv a r2 else Void)
  | Alt r1 r2 => alt (deriv a r1) (deriv a r2)
  | Star r1 => cat (deriv a r1) (Star r1)
  end.

Fixpoint matches (r : re) (s : list ascii) : bool :=
  match s with
  | [] => nullable r
  | a :: s' => matches (deriv a r) s'
  end.

(** [regexp.MatchString] with a pattern anchored by [^] and [$]. *)
Definition MatchString (r : re) (s : string) : bool :=
  matches r (list_ascii_of_string s).

End Regex.

(** ** Byte classes *)

Definition byte_in (lo hi : nat) (a : ascii) : bool :=
  (lo <=? nat_of_ascii a)%nat && (nat_of_ascii a <=? hi)%nat.

Definition is_lower : ascii → bool := byte_in 97 122.
Definition is_upper : ascii → bool := byte_in 65 90.
Definition is_digit : ascii → bool := byte_in 48 57.
Definition is_dot (a : ascii) : bool := bool_decide (a = "."%char).
Definition is_hyphen (a : ascii) : bool := bool_decide (a = "-"%char).
Definition is_letter (a : ascii) : bool := is_lower a || is_upper a.

(** The class [[a-zA-Z0-9.-]] whose complement [cleanDomainLine] deletes. *)
Definition domain_char (a : ascii) : bool :=
  is_lower a || is_upper a || is_digit a || is_dot a || is_hyphen a.

Definition byte (n : nat) : ascii := ascii_of_nat n.

(** ** [strings.TrimSpace] *)

(** [asciiSpace] of package [strings]: tab, newline, vertical tab, form
    feed, carriage return, space. *)
Definition asciiSpace (a : ascii) : bool :=
  let n := nat_of_ascii a in
  ((9 <=? n)%nat && (n <=? 13)%nat) || (n =? 32)%nat.

(** The runes above U+007F for which [unicode.IsSpace] holds, by their
    UTF-8 encoding: U+0085, U+00A0, U+1680, U+2000..U+200A, U+2028, U+2029,
    U+202F, U+205F, U+3000. *)
Definition unicode_space_encodings : list (list ascii) :=
  [ [byte 194; byte 133]; [byte 194; byte 160]; [byte 225; byte 154; byte 128] ]
  ++ map (λ k, [byte 226; byte 128; byte (128 + k)]) (seq 0 11)
  ++ [ [byte 226; byte 128; byte 168]; [byte 226; byte 128; byte 169];
       [byte 226; byte 128; byte 175]; [byte 226; byte 129; byte 159];
       [byte 227; byte 128; byte 128] ].

Fixpoint strip_prefix (p s : list ascii) : option (list ascii) :=
  match p, s with
  | [], _ => Some s
  | a :: p', b :: s' => if bool_decide (a = b) then strip_prefix p' s' else None
  | _ :: _, [] => None
  end.

Fixpoint first_some {A B} (f : A → option B) (l : list A) : option B :=
  match l with
  | [] => None
  | x :: l' => match f x with Some y => Some y | None => first_some f l' end
  end.

(** The input without its first rune, when that rune is white space;
    [encs] lists the multi-byte white-space runes. *)
Definition skip_space (encs : list (list ascii)) (s : list ascii)
  : option (list ascii) :=
  match s with
  | [] => None
  | a :: s' =>
      if asciiSpace a then Some s'
      else first_some (λ e, strip_prefix e s) encs
  end.

Fixpoint trim_left (fuel : nat) (encs : list (list ascii)) (s : list ascii)
  : list ascii :=
  match fuel with
  | O => s
  | S fuel' =>
      match skip_space encs s with
      | Some s' => trim_left fuel' encs s'
      | None => s
      end
  end.

Definition TrimLeftSpace (s : list ascii) : list ascii :=
  trim_left (length s) unicode_space_encodings s.

(** Trimming on the right reads the runes from the end: the same scan over
    the reversed bytes with the encodings reversed. *)
Definition TrimRightSpace (s : list ascii) : list ascii :=
  rev (trim_left (length s) (map (@rev ascii) unicode_space_encodings) (rev s)).

Definition TrimSpace (s : string) : string :=
  string_of_list_ascii (TrimRightSpace (TrimLeftSpace (list_ascii_of_string s))).

(** ** [isValidDomain] and [cleanDomainLine] (main.go, lines 40-52) *)

(** Under the flag [(?i)] a class holds the case folds of its members: next
    to the other case of each ASCII letter, [s] folds to U+017F and [k] to
    U+212A.  [fold_letter] is [(?i)[a-z]], [fold_alnum] is [(?i)[a-z0-9]]
    and [fold_alnum_hyphen] is [(?i)[a-z0-9-]]. *)
Definition fold_extra : Regex.re :=
  Regex.Alt (Regex.Lit [byte 197; byte 191])
            (Regex.Lit [byte 226; byte 132; byte 170]).

Definition fold_letter : Regex.re :=
  Regex.Alt (Regex.Class is_letter) fold_extra.

Definition fold_alnum : Regex.re :=
  Regex.Alt (Regex.Class (λ a, is_letter a || is_digit a)) fold_extra.

Definition fold_alnum_hyphen : Regex.re :=
  Regex.Alt (Regex.Class (λ a, is_letter a || is_digit a || is_hyphen a))
            fold_extra.

(** [([a-z0-9]([a-z0-9-]{0,61}[a-z0-9])?\.)] *)
Definition label_dot : Regex.re :=
  Regex.Cat
    (Regex.Cat fold_alnum
       (Regex.Opt (Regex.Cat (Regex.UpTo 61 fold_alnum_hyphen) fold_alnum)))
    (Regex.Class is_dot).

(** [(?i)^([a-z0-9]([a-z0-9-]{0,61}[a-z0-9])?\.)+[a-z]{2,}$] *)
Definition domain_re : Regex.re :=
  Regex.Cat (Regex.Plus label_dot) (Regex.AtLeast 2 fold_letter).

Definition isValidDomain (domain : string) : bool :=
  Regex.MatchString domain_re domain.

(** [regexp.ReplaceAllString] with a one-rune class and the empty
    replacement deletes every rune of the class.  The class here is the
    complement of [domain_char]; it holds every byte above 127, so every
    byte of a multi-byte rune and every byte that is not valid UTF-8 goes,
    and the bytes that stay are exactly those of [domain_char]. *)
Fixpoint delete_outside (keep : ascii → bool) (s : string) : string :=
  match s with
  | EmptyString => EmptyString
  | String a s' =>
      if keep a then String a (delete_outside keep s')
      else delete_outside keep s'
  end.

Definition cleanDomainLine (line : string) : string :=
  let cleaned := delete_outside domain_char line in
  TrimSpace cleaned.

(** ** Data of [main.go] *)

Definition retryAttempts : nat := 3.
(** Durations are in seconds. *)
Definition retryDelay : Z := 5.
Definition requestDelay : Z := 20.

Definition error : Type := string.

(** [[]string]: [None] is [nil]. *)
Definition slice : Type := option (list string).

Definition elems (s : slice) : list string := default [] s.
Definition len (s : slice) : nat := length (elems s).
Definition go_append (s : slice) (x : string) : slice := Some (elems s ++ [x]).
Definition is_nil (s : slice) : bool := bool_decide (s = None).

Record Config : Type := {
  VirusTotalKeys : list string;
  AlienVaultKeys : list string;
  HudsonRockKeys : list string
}.

Record VirusTotalResponse : Type := {
  UndetectedUrls : list (list string);
  ResponseCode : Z
}.

(** The items of [url_list] and of [all_urls] are structs with the one
    field [URL]; the lists below hold that field. *)
Record AlienVaultResponse : Type := {
  URLList : list string;
  HasNext : bool
}.

Record HudsonRockResponse : Type := {
  AllURLs : list string
}.

Record logMessage : Type := {
  Type_ : string;
  Source : string;
  Message : string
}.

Record Request : Type := {
  Method : string;
  URL : string;
  Header : list (string * string)
}.

Record Response : Type := {
  StatusCode : Z;
  Body : string
}.

(** What [http.Client.Do] and [makeRequestWithRetry] return, a pair
    [(resp, err)]: [Responded resp] is [(resp, nil)], [Failed resp err] is
    [(resp, err)] with [err] not nil and [resp] possibly nil.  [net/http]
    never returns [(nil, nil)]. *)
Inductive DoResult : Type :=
| Responded (resp : Response)
| Failed (resp : option Response) (err : error).

(** The functions of the Go library whose results the program only passes
    on: the error of [http.NewRequest("GET", url, nil)] for a URL, and
    [json.Unmarshal] into each response struct (its error is dropped by the
    callers, which use whatever the struct then holds). *)
Record Lib : Type := {
  NewRequest_error : string → option error;
  unmarshal_vt : string → VirusTotalResponse;
  unmarshal_otx : string → AlienVaultResponse;
  unmarshal_hr : string → HudsonRockResponse
}.

(** The network as one goroutine sees it: the outcome of its [n]-th call
    of [http.DefaultClient.Do], which may depend on the request.  One call
    is one event here, however many exchanges it takes on the wire: the
    client follows redirects within the call. *)
Definition Net : Type := Request → nat → DoResult.

(** ** Effects of a querier goroutine *)

Inductive event : Type :=
| EvDo (req : Request)        (* http.DefaultClient.Do(req) *)
| EvSleep (seconds : Z)       (* time.Sleep *)
| EvLog (m : logMessage)      (* logChan <- m *)
| EvSend (urls : slice)       (* ch <- urls *)
| EvDone.                     (* wg.Done() *)

Definition is_do (e : event) : bool :=
  match e with EvDo _ => true | _ => false end.
Definition is_sleep (e : event) : bool :=
  match e with EvSleep _ => true | _ => false end.
Definition is_done (e : event) : bool :=
  match e with EvDone => true | _ => false end.
Definition count (p : event → bool) (tr : list event) : nat :=
  length (List.filter p tr).

Definition sends (tr : list event) : list slice :=
  omap (λ e, match e with EvSend s => Some s | _ => None end) tr.
Definition logs (tr : list event) : list logMessage :=
  omap (λ e, match e with EvLog m => Some m | _ => None end) tr.
(** A computation of a goroutine extends the trace of what it did so far. *)
Definition G (A : Type) : Type := list event → A * list event.

Definition ret {A} (x : A) : G A := λ tr, (x, tr).
Definition bind {A B} (m : G A) (k : A → G B) : G B :=
  λ tr, let '(x, tr') := m tr in k x tr'.

Global Instance G_ret : MRet G := @ret.
Global Instance G_bind : MBind G := λ A B k m, bind m k.

Definition emit (e : event) : G unit := λ tr, (tt, tr ++ [e]).

Definition http_Do (net : Net) (req : Request) : G DoResult :=
  λ tr, (net req (count is_do tr), tr ++ [EvDo req]).

Definition Sleep (d : Z) : G unit := emit (EvSleep d).
Definition send (urls : slice) : G unit := emit (EvSend urls).

(** [if !silent { logChan <- logMessage{...} }] *)
Definition log_unless (silent : bool) (ty source msg : string) : G unit :=
  if silent then ret tt
  else emit (EvLog {| Type_ := ty; Source := source; Message := msg |}).

(** A goroutine whose first statement is [defer wg.Done()]: the signal is
    the last thing it does, on every return. *)
Definition with_deferred_Done (body : G unit) : list event :=
  (body []).2 ++ [EvDone].

(** ** [makeRequestWithRetry] (lines 142-168) *)

Definition client_error (resp : option Response) : bool :=
  match resp with
  | Some r => (400 <=? StatusCode r)%Z && (StatusCode r <? 500)%Z
  | None => false
  end.

Definition status_of (resp : option Response) : Z :=
  match resp with Some r => StatusCode r | None => 0%Z end.

(** The loop [for i := 0; i < retryAttempts; i++], entered at [i] with
    [left = retryAttempts - i] rounds to go and [err] the error so far. *)
Fixpoint retry_loop (left i : nat) (err : error) (net : Net) (req : Request)
    (silent : bool) (source : string) : G DoResult :=
  match left with
  | O =>
      ret (Failed None ("request failed after " +:+ pretty retryAttempts
                        +:+ " attempts: " +:+ err))
  | S left' =>
      r ← http_Do net req;
      match r with
      | Responded resp => ret (Responded resp)
      | Failed resp e =>
          log_unless silent "WARNING" source
            ("Request failed (attempt " +:+ pretty (i + 1)%nat +:+ "/"
             +:+ pretty retryAttempts +:+ "): " +:+ e
             +:+ ". Retrying in 5s...") ;;
          if client_error resp then
            log_unless silent "ERROR" source
              ("Client error " +:+ pretty (status_of resp)
               +:+ ", not retrying.") ;;
            ret (Failed resp e)
          else
            Sleep retryDelay ;;
            retry_loop left' (S i) e net req silent source
      end
  end.

Definition makeRequestWithRetry (net : Net) (req : Request) (silent : bool)
    (source : string) : G DoResult :=
  retry_loop retryAttempts 0 "%!w(<nil>)" net req silent source.

(** ** The four queriers (lines 172-344) *)

Definition NewRequest (lib : Lib) (url : string) : Request + error :=
  match NewRequest_error lib url with
  | Some e => inr e
  | None => inl {| Method := "GET"; URL := url; Header := [] |}
  end.

(** [validHeaderFieldByte] of [net/textproto]: the bytes of a token. *)
Definition validHeaderFieldByte (a : ascii) : bool :=
  is_letter a || is_digit a
  || bool_decide (a ∈ ["!"; "#"; "$"; "%"; "&"; "'"; "*"; "+"; "-"; ".";
                       "^"; "_"; "`"; "|"; "~"]%char).

Definition toLower : nat := 32.

(** The loop of [canonicalMIMEHeaderKey]: the first letter and every letter
    after a hyphen in upper case, the other letters in lower case. *)
Fixpoint canonical (upper : bool) (s : string) : string :=
  match s with
  | EmptyString => EmptyString
  | String c s' =>
      let c' := if upper && is_lower c then byte (nat_of_ascii c - toLower)
                else if negb upper && is_upper c
                     then byte (nat_of_ascii c + toLower)
                     else c in
      String c' (canonical (bool_decide (c' = "-"%char)) s')
  end.

(** [textproto.CanonicalMIMEHeaderKey]: a key with a byte that is not of a
    token is returned as it is. *)
Definition CanonicalMIMEHeaderKey (s : string) : string :=
  if forallb validHeaderFieldByte (list_ascii_of_string s)
  then canonical true s else s.

(** [req.Header.Add(k, v)]: the value goes under the canonical form of the
    key. *)
Definition Header_Add (k v : string) (req : Request) : Request :=
  {| Method := Method req; URL := URL req;
     Header := Header req ++ [(CanonicalMIMEHeaderKey k, v)] |}.

(** [apiKeys[apiKeyIndex%len(apiKeys)]], used only where [len(apiKeys) > 0]. *)
Definition pick_key (apiKeys : list string) (apiKeyIndex : nat) : string :=
  default "" (apiKeys !! (apiKeyIndex mod length apiKeys)%nat).

Definition found (urls : slice) : string :=
  "Found " +:+ pretty (len urls) +:+ " URLs".

Definition vt_urls (r : VirusTotalResponse) : slice :=
  if (ResponseCode r =? 1)%Z then
    foldl (λ urls item,
             match item with
             | x :: _ => go_append urls x
             | [] => urls
             end) None (UndetectedUrls r)
  else None.

Definition getVirusTotalURLs (lib : Lib) (net : Net) (domain : string)
    (apiKeys : list string) (apiKeyIndex : nat) (silent : bool) : list event :=
  with_deferred_Done
    (if (length apiKeys =? 0)%nat then ret tt
     else
       let apiKey := pick_key apiKeys apiKeyIndex in
       let url := "https://www.virustotal.com/vtapi/v2/domain/report?apikey="
                  +:+ apiKey +:+ "&domain=" +:+ domain in
       match NewRequest lib url with
       | inr err =>
           log_unless silent "ERROR" "VT" ("Failed to create request: " +:+ err) ;;
           send None
       | inl req =>
           r ← makeRequestWithRetry net req silent "VT";
           match r with
           | Failed _ err =>
               log_unless silent "ERROR" "VT" err ;;
               send None
           | Responded resp =>
               let urls := vt_urls (unmarshal_vt lib (Body resp)) in
               log_unless silent "SUCCESS" "VT" (found urls) ;;
               send urls
           end
       end).

(** The loop [for { ... }] of [getAlienVaultURLs]: [fuel] bounds the number
    of pages; [None] when it runs out before the loop is left.  Every
    [break] leaves the loop with the URLs gathered so far. *)
Fixpoint otx_pages (fuel : nat) (lib : Lib) (net : Net) (domain : string)
    (apiKeys : list string) (apiKeyIndex : nat) (silent : bool)
    (page : nat) (allUrls : slice) : G (option slice) :=
  match fuel with
  | O => ret None
  | S fuel' =>
      let url := "https://otx.alienvault.com/api/v1/indicators/domain/"
                 +:+ domain +:+ "/url_list?limit=500&page=" +:+ pretty page in
      match NewRequest lib url with
      | inr err =>
          log_unless silent "ERROR" "OTX" ("Failed to create request: " +:+ err) ;;
          ret (Some allUrls)
      | inl req =>
          let req :=
            if (0 <? length apiKeys)%nat
            then Header_Add "X-OTX-API-KEY" (pick_key apiKeys apiKeyIndex) req
            else req in
          r ← makeRequestWithRetry net req silent "OTX";
          match r with
          | Failed _ err =>
              log_unless silent "ERROR" "OTX" err ;;
              ret (Some allUrls)
          | Responded resp =>
              let r := unmarshal_otx lib (Body resp) in
              let allUrls := foldl go_append allUrls (URLList r) in
              if HasNext r then
                otx_pages fuel' lib net domain apiKeys apiKeyIndex silent
                  (S page) allUrls
              else ret (Some allUrls)
          end
      end
  end.

Definition getAlienVaultURLs (fuel : nat) (lib : Lib) (net : Net)
    (domain : string) (apiKeys : list string) (apiKeyIndex : nat)
    (silent : bool) : option (list event) :=
  let '(r, tr) :=
    otx_pages fuel lib net domain apiKeys apiKeyIndex silent 1 None [] in
  match r with
  | None => None
  | Some allUrls =>
      Some (((log_unless silent "SUCCESS" "OTX" (found allUrls) ;;
              send allUrls) tr).2 ++ [EvDone])
  end.

(** [strings.Split(s, sep)] for a separator of one byte. *)
Fixpoint Split (sep : ascii) (s : string) : list string :=
  match s with
  | EmptyString => [EmptyString]
  | String a s' =>
      if bool_decide (a = sep) then EmptyString :: Split sep s'
      else match Split sep s' with
           | x :: l => String a x :: l
           | [] => [String a EmptyString]
           end
  end.

Definition newline : ascii := byte 10.

Definition wayback_urls (body : string) : slice :=
  foldl (λ urls line,
           if bool_decide (TrimSpace line = "") then urls
           else go_append urls line) None (Split newline body).

Definition getWaybackURLs (lib : Lib) (net : Net) (domain : string)
    (silent : bool) : list event :=
  with_deferred_Done
    (let url := "https://web.archive.org/cdx/search/cdx?url=*." +:+ domain
                +:+ "/*&output=text&fl=original&collapse=urlkey" in
     match NewRequest lib url with
     | inr err =>
         log_unless silent "ERROR" "Wayback"
           ("Failed to create request: " +:+ err) ;;
         send None
     | inl req =>
         r ← makeRequestWithRetry net req silent "Wayback";
         match r with
         | Failed _ err =>
             log_unless silent "ERROR" "Wayback" err ;;
             send None
         | Responded resp =>
             let urls := wayback_urls (Body resp) in
             log_unless silent "SUCCESS" "Wayback" (found urls) ;;
             send urls
         end
     end).

Definition hr_urls (r : HudsonRockResponse) : slice :=
  foldl go_append None (AllURLs r).

Definition getHudsonRockURLs (lib : Lib) (net : Net) (domain : string)
    (apiKeys : list string) (apiKeyIndex : nat) (silent : bool) : list event :=
  with_deferred_Done
    (let url := "https://cavalier.hudsonrock.com/api/json/v2/osint-tools/"
                +:+ "search-by-domain?domain=" +:+ domain in
     match NewRequest lib url with
     | inr err =>
         log_unless silent "ERROR" "HudsonRock"
           ("Failed to create request: " +:+ err) ;;
         send None
     | inl req =>
         req ← (if (0 <? length apiKeys)%nat
                then ret (Header_Add "key" (pick_key apiKeys apiKeyIndex) req)
                else
                  log_unless silent "WARNING" "HudsonRock"
                    "Processing without API key (data may be redacted)..." ;;
                  ret req);
         r ← makeRequestWithRetry net req silent "HudsonRock";
         match r with
         | Failed _ err =>
             log_unless silent "ERROR" "HudsonRock" err ;;
             send None
         | Responded resp =>
             let urls := hr_urls (unmarshal_hr lib (Body resp)) in
             log_unless silent "SUCCESS" "HudsonRock" (found urls) ;;
             send urls
         end
     end).

(** ** The per-domain orchestrator (lines 517-600) *)

Inductive source : Type := VT | OTX | Wayback | HR.

Global Instance source_eq_dec : EqDecision source.
Proof. solve_decision. Defined.

Definition source_key (s : source) : string :=
  match s with
  | VT => "vt"
  | OTX => "otx"
  | Wayback => "wayback"
  | HR => "hr"
  end.

(** [excludedMap[k]] of a [map[string]bool]: [false] for a missing key. *)
Definition excluded (excludedMap : gmap string bool) (k : string) : bool :=
  default false (excludedMap !! k).

(** The map built from the flag [-e] (lines 447-452). *)
Definition make_excludedMap (excludeSources : string) : gmap string bool :=
  if bool_decide (excludeSources = "") then ∅
  else foldl (λ m src, <[TrimSpace src := true]> m) ∅
             (Split ","%char excludeSources).

(** The sources for which a goroutine is started, in the order of the four
    [if !excludedMap[...]] statements. *)
Definition dispatched (excludedMap : gmap string bool) : list source :=
  List.filter (λ s, negb (excluded excludedMap (source_key s)))
              [VT; OTX; Wayback; HR].

(** What one started goroutine does; [None] when the pagination of OTX
    does not end within [fuel] pages. *)
Definition querier (fuel : nat) (lib : Lib) (nets : source → Net)
    (config : Config) (domain : string) (apiKeyIndex : nat) (silent : bool)
    (s : source) : option (list event) :=
  match s with
  | VT => Some (getVirusTotalURLs lib (nets VT) domain
                  (VirusTotalKeys config) apiKeyIndex silent)
  | OTX => getAlienVaultURLs fuel lib (nets OTX) domain
             (AlienVaultKeys config) apiKeyIndex silent
  | Wayback => Some (getWaybackURLs lib (nets Wayback) domain silent)
  | HR => Some (getHudsonRockURLs lib (nets HR) domain
                  (HudsonRockKeys config) apiKeyIndex silent)
  end.

(** [finalUrlSet[u] = struct{}{}] *)
Definition insert_url (u : string) (set : gset string) : gset string :=
  {[u]} ∪ set.

(** One round of [for urls := range urlChannel]. *)
Definition drain_one (acc : bool * gset string) (urls : slice)
  : bool * gset string :=
  (if is_nil urls then acc.1 else true,
   foldl (λ set u, insert_url u set) acc.2 (elems urls)).

Definition drain (msgs : list slice) (domainSuccess : bool)
    (set : gset string) : bool * gset string :=
  foldl drain_one (domainSuccess, set) msgs.

(** [if !domainSuccess && runCount > 0] *)
Definition domain_failed (domainSuccess : bool) (runCount : nat) : bool :=
  negb domainSuccess && (0 <? runCount)%nat.

(** ** The driver (lines 399-627) *)

(** The lines the main goroutine and the log consumer print with [log], by
    what they say; the colours and the percentage of the progress line are
    left out. *)
Inductive log_line : Type :=
| LogLoadingConfig (path : string)
| LogReadingStdin
| LogLoaded (n : nat)
| LogProcessing (i n : nat) (domain : string)
| LogSkipEmpty
| LogSkipInvalid (domain : string)
| LogNoSources (domain : string)
| LogSource (m : logMessage)
| LogWaiting (remaining : Z)
| LogInterrupt
| LogFailedSaved (n : nat)
| LogSaved (path : string)
| LogAllDone (n : nat) (path : string)
| LogFatal (msg : string).

Inductive output : Type :=
| OutLog (l : log_line)                       (* a line on standard error *)
| OutPrint (line : string)                    (* fmt.Println *)
| OutWrite (path : string) (lines : list string)  (* writeLinesToFile *)
| OutSleep (seconds : Z)
| OutExit (code : Z).                         (* os.Exit, log.Fatal *)

(** The variables of [main] that outlive a domain, what the process has
    put out, and whether it has exited.  [received] is a history variable:
    every message read from a results channel so far. *)
Record Main : Type := {
  finalUrlSet : gset string;
  apiKeyIndex : nat;
  failedDomains : list string;
  outputs : list output;
  exited : bool;
  received : list slice
}.

Definition initial : Main :=
  {| finalUrlSet := ∅; apiKeyIndex := 0; failedDomains := [];
     outputs := []; exited := false; received := [] |}.

Definition out (o : list output) (st : Main) : Main :=
  {| finalUrlSet := finalUrlSet st; apiKeyIndex := apiKeyIndex st;
     failedDomains := failedDomains st; outputs := outputs st ++ o;
     exited := exited st; received := received st |}.

Definition exit (code : Z) (st : Main) : Main :=
  {| finalUrlSet := finalUrlSet st; apiKeyIndex := apiKeyIndex st;
     failedDomains := failedDomains st;
     outputs := outputs st ++ [OutExit code]; exited := true;
     received := received st |}.

Definition log_when (b : bool) (l : log_line) : list output :=
  if b then [OutLog l] else [].

(** The run-time parameters of one execution. *)
Record Params : Type := {
  silent : bool;
  outputFile : string;
  (** the flag [-d]: empty when the input lines come from standard input *)
  inputFile : string;
  (** the path from which [loadConfig] has read the configuration *)
  configFile : string;
  excludedMap : gmap string bool;
  config : Config;
  lib : Lib;
  (** the network seen by the goroutine of a source for input line [i] *)
  world : nat → source → Net;
  (** the error of [writeLinesToFile] on a path, if any *)
  write_error : string → option error;
  (** the order in which [range] visits the keys of [finalUrlSet], which
      the Go runtime picks anew for every iteration: its number among the
      orders of the keys *)
  iteration : nat
}.

(** All that happens for one valid domain, from the channels' creation to
    the delay before the next domain.  The goroutines run concurrently; the
    messages and the log lines are taken here in the order in which the
    goroutines are started.  [Machine] below has the goroutines step by
    step, and every schedule of theirs ends with the URL set and the
    failure computed here ([every_schedule_agrees]). *)
Definition processDomain (fuel : nat) (p : Params) (i n : nat)
    (domain : string) (st : Main) : option Main :=
  let srcs := dispatched (excludedMap p) in
  let runCount := length srcs in
  traces ← mapM (querier fuel (lib p) (world p i) (config p) domain
                   (apiKeyIndex st) (silent p)) srcs;
  let all := concat traces in
  let '(domainSuccess, set) := drain (sends all) false (finalUrlSet st) in
  Some
    {| finalUrlSet := set;
       apiKeyIndex := S (apiKeyIndex st);
       failedDomains :=
         if domain_failed domainSuccess runCount
         then failedDomains st ++ [domain] else failedDomains st;
       outputs :=
         outputs st
         ++ log_when (negb (silent p)) (LogProcessing (S i) n domain)
         ++ log_when (negb (silent p) && (runCount =? 0)%nat)
                     (LogNoSources domain)
         ++ map (λ m, OutLog (LogSource m)) (logs all)
         ++ (if (S i <? n)%nat then
               log_when (negb (silent p))
                 (LogWaiting (Z.of_nat (n - S i) * requestDelay))
               ++ [OutSleep requestDelay]
             else []);
       exited := exited st;
       received := received st ++ sends all |}.

(** The body of [for i, domain := range domains].  Nothing happens once the
    process has exited. *)
Definition process_line (fuel : nat) (p : Params) (n : nat) (st : Main)
    (i : nat) (raw : string) : option Main :=
  if exited st then Some st
  else
    let domain := TrimSpace raw in
    if bool_decide (domain = "") then Some st
    else
      let domain := cleanDomainLine domain in
      if bool_decide (domain = "") then
        Some (out (log_when (negb (silent p)) LogSkipEmpty) st)
      else if negb (isValidDomain domain) then
        Some (out (log_when (negb (silent p)) (LogSkipInvalid domain)) st)
      else processDomain fuel p i n domain st.

Fixpoint run_lines (fuel : nat) (p : Params) (n : nat) (i : nat)
    (domains : list string) (st : Main) : option Main :=
  match domains with
  | [] => Some st
  | raw :: rest =>
      st' ← process_line fuel p n st i raw;
      run_lines fuel p n (S i) rest st'
  end.

(** [for u := range finalUrlSet { finalUrls = append(finalUrls, u) }]: the
    keys in the order of the iteration.  Go leaves the order unspecified
    and changes it from one run to the next: [order] picks it among the
    permutations of the keys, and every order of the keys is picked by some
    number ([flatten_any_order]). *)
Definition flatten (order : nat) (set : gset string) : list string :=
  let orders := permutations (elements set) in
  default (elements set) (orders !! (order mod length orders)%nat).

Definition failed_path : string := "failed_domains.txt".

(** The straight-line code at the end of [main] and in the watcher is
    written as the outputs it makes; each step takes the outputs [k] of the
    rest of the code, which a fatal error cuts off. *)

(** [writeLinesToFile] followed by [log.Fatalf] on its error. *)
Definition write_or_die (p : Params) (path : string) (lines : list string)
    (msg : string) (k : list output) : list output :=
  match write_error p path with
  | None => OutWrite path lines :: k
  | Some e => [OutLog (LogFatal (msg +:+ e)); OutExit 1]
  end.

(** The failed domains go to their side file when there are any (lines
    608-615 and 477-484). *)
Definition save_failed (p : Params) (st : Main) (k : list output)
  : list output :=
  if (0 <? length (failedDomains st))%nat then
    log_when (negb (silent p)) (LogFailedSaved (length (failedDomains st)))
    ++ write_or_die p failed_path (failedDomains st)
         "Failed to write failed domains to file: " k
  else k.

(** The end of [main] (lines 603-626). *)
Definition finish_outputs (p : Params) (st : Main) : list output :=
  let finalUrls := flatten (iteration p) (finalUrlSet st) in
  save_failed p st
    (if silent p then map OutPrint finalUrls
     else
       write_or_die p (outputFile p) finalUrls "Failed to write URLs: "
         [OutLog (LogAllDone (length finalUrls) (outputFile p))]).

(** The goroutine that waits on [sigChan] (lines 462-490), run when the
    signal arrives in state [st]. *)
Definition interrupt_outputs (p : Params) (st : Main) : list output :=
  let finalUrls := flatten (iteration p) (finalUrlSet st) in
  log_when (negb (silent p)) LogInterrupt
  ++ write_or_die p (outputFile p) finalUrls
       "Failed to write URLs on interrupt: "
       (save_failed p st
          (log_when (negb (silent p)) (LogSaved (outputFile p))
           ++ [OutExit 0])).

Definition is_exit (o : output) : bool :=
  match o with OutExit _ => true | _ => false end.

(** The outputs are made, unless the process has exited before; the
    process has exited afterwards if one of them is an exit. *)
Definition perform (o : list output) (st : Main) : Main :=
  if exited st then st
  else
    {| finalUrlSet := finalUrlSet st; apiKeyIndex := apiKeyIndex st;
       failedDomains := failedDomains st; outputs := outputs st ++ o;
       exited := existsb is_exit o; received := received st |}.

Definition finish (p : Params) (st : Main) : Main :=
  perform (finish_outputs p st) st.

Definition on_interrupt (p : Params) (st : Main) : Main :=
  perform (interrupt_outputs p st) st.

(** The text that [showBanner] hands to [fmt.Println] (lines 347-358): it
    begins with a newline and ends with a line of spaces. *)
Definition banner : string :=
  foldr (λ line rest, String newline (line +:+ rest)) ""
    [ "  _____   _          _____  _     ";
      " |  __ \ | |        / ____|| |    ";
      " | |__) || |__     | (___  | |__  ";
      " |  ___/ | '_' \    \___ \ | '_' \ ";
      " | |     | | | | _  ____) || | | |";
      " |_|     |_| |_|(_)|_____/ |_| |_|";
      "Built by : PhilopaterSh";
      "# LinkedIn: https://www.linkedin.com/in/philopater-shenouda/";
      "                              " ].

Definition showBanner : list output := [OutPrint banner].

(** What [main] puts out before line 439 when the configuration loads and
    the input lines are read, unless silent: the banner (lines 414-416),
    the one line that [loadConfig] logs when it finds the file (line 108),
    and the line that announces the reading of standard input when there
    is no input file (line 430). *)
Definition prelude (p : Params) : list output :=
  if silent p then []
  else showBanner
       ++ [OutLog (LogLoadingConfig (configFile p))]
       ++ (if bool_decide (inputFile p = "") then [OutLog LogReadingStdin]
           else []).

(** [main] up to the loop, for a configuration that loaded and input lines
    that were read: what it has put out so far, and then lines 439-445,
    where no line at all is fatal.  (With the flag [-version], [main]
    prints the version and returns before any of this.) *)
Definition start (p : Params) (domains : list string) : Main :=
  let st := out (prelude p) initial in
  if (length domains =? 0)%nat then
    exit 1 (out [OutLog (LogFatal "No domains provided for scanning.")] st)
  else out (log_when (negb (silent p)) (LogLoaded (length domains))) st.

(** A run to normal completion. *)
Definition run (fuel : nat) (p : Params) (domains : list string)
  : option Main :=
  st ← run_lines fuel p (length domains) 0 domains (start p domains);
  Some (finish p st).

(** A run in which the signal arrives when the first [k] input lines have
    been dealt with. *)
Definition run_interrupted (fuel : nat) (p : Params) (k : nat)
    (domains : list string) : option Main :=
  st ← run_lines fuel p (length domains) 0 (take k domains)
         (start p domains);
  st' ← run_lines fuel p (length domains) k (drop k domains)
          (on_interrupt p st);
  Some (finish p st').

(** The files after a sequence of outputs.  [os.Create] truncates the file
    that the path names, and two paths may name one file
    ([failed_domains.txt] and [./failed_domains.txt], a link and its
    target): [file_of] gives the file of a path, and the lines of the files
    are kept by file.  Each write replaces the lines of its file. *)
Definition files_after (file_of : string → string) (outs : list output)
    (fs : gmap string (list string)) : gmap string (list string) :=
  foldl (λ fs o, match o with
                 | OutWrite path lines => <[file_of path := lines]> fs
                 | _ => fs
                 end) fs outs.

Definition stdout (outs : list output) : list string :=
  omap (λ o, match o with OutPrint l => Some l | _ => None end) outs.

Definition writes (outs : list output) : list (string * list string) :=
  omap (λ o, match o with OutWrite f l => Some (f, l) | _ => None end) outs.

(** ** The goroutines of one domain, step by step

    The orchestrator, the started queriers and the log consumer of one
    domain as a machine: a state holds the program point of the
    orchestrator, what each started querier has still to do, the two
    buffered channels, the two wait-group counters and the variables of the
    drain loop.  A schedule picks which goroutine moves next; a goroutine
    that is blocked cannot be picked. *)

Module Machine.

(** Program points of the orchestrator, lines 542-588. *)
Inductive pc : Type :=
| AtDispatch (rest : list source)  (* the [if !excludedMap[...]] to come *)
| AtWait                           (* wg.Wait() *)
| AtCloseUrl                       (* close(urlChannel) *)
| AtCloseLog                       (* close(logChan) *)
| AtLogWait                        (* logWg.Wait() *)
| AtDrain                          (* for urls := range urlChannel *)
| AtDecide                         (* if !domainSuccess && runCount > 0 *)
| AtEnd.

Record state : Type := {
  at_ : pc;
  runCount : nat;
  wg : nat;
  logWg : nat;
  goroutines : list (list event);
  urlChannel : list slice;
  urlClosed : bool;
  logChan : list logMessage;
  logClosed : bool;
  consumer : bool;                 (* the log consumer has not returned *)
  printed : list logMessage;
  domainSuccess : bool;
  urlSet : gset string;
  failed : option bool
}.

(** Both channels are made with room for four messages. *)
Definition capacity : nat := 4.

Definition set_at (x : pc) (st : state) : state :=
  {| at_ := x; runCount := runCount st; wg := wg st; logWg := logWg st;
     goroutines := goroutines st; urlChannel := urlChannel st;
     urlClosed := urlClosed st; logChan := logChan st;
     logClosed := logClosed st; consumer := consumer st;
     printed := printed st; domainSuccess := domainSuccess st;
     urlSet := urlSet st; failed := failed st |}.

Definition set_wg (x : nat) (st : state) : state :=
  {| at_ := at_ st; runCount := runCount st; wg := x; logWg := logWg st;
     goroutines := goroutines st; urlChannel := urlChannel st;
     urlClosed := urlClosed st; logChan := logChan st;
     logClosed := logClosed st; consumer := consumer st;
     printed := printed st; domainSuccess := domainSuccess st;
     urlSet := urlSet st; failed := failed st |}.

Definition set_goroutines (x : list (list event)) (st : state) : state :=
  {| at_ := at_ st; runCount := runCount st; wg := wg st; logWg := logWg st;
     goroutines := x; urlChannel := urlChannel st;
     urlClosed := urlClosed st; logChan := logChan st;
     logClosed := logClosed st; consumer := consumer st;
     printed := printed st; domainSuccess := domainSuccess st;
     urlSet := urlSet st; failed := failed st |}.

Definition set_urlChannel (x : list slice) (c : bool) (st : state) : state :=
  {| at_ := at_ st; runCount := runCount st; wg := wg st; logWg := logWg st;
     goroutines := goroutines st; urlChannel := x;
     urlClosed := c; logChan := logChan st;
     logClosed := logClosed st; consumer := consumer st;
     printed := printed st; domainSuccess := domainSuccess st;
     urlSet := urlSet st; failed := failed st |}.

Definition set_logChan (x : list logMessage) (c : bool) (st : state) : state :=
  {| at_ := at_ st; runCount := runCount st; wg := wg st; logWg := logWg st;
     goroutines := goroutines st; urlChannel := urlChannel st;
     urlClosed := urlClosed st; logChan := x;
     logClosed := c; consumer := consumer st;
     printed := printed st; domainSuccess := domainSuccess st;
     urlSet := urlSet st; failed := failed st |}.

Definition go (g : list event) (st : state) : state :=
  {| at_ := at_ st; runCount := S (runCount st); wg := S (wg st);
     logWg := logWg st;
     goroutines := goroutines st ++ [g]; urlChannel := urlChannel st;
     urlClosed := urlClosed st; logChan := logChan st;
     logClosed := logClosed st; consumer := consumer st;
     printed := printed st; domainSuccess := domainSuccess st;
     urlSet := urlSet st; failed := failed st |}.

Definition set_printed (x : list logMessage) (st : state) : state :=
  {| at_ := at_ st; runCount := runCount st; wg := wg st; logWg := logWg st;
     goroutines := goroutines st; urlChannel := urlChannel st;
     urlClosed := urlClosed st; logChan := logChan st;
     logClosed := logClosed st; consumer := consumer st;
     printed := x; domainSuccess := domainSuccess st;
     urlSet := urlSet st; failed := failed st |}.

(** The consumer leaves its [range] loop and runs [logWg.Done()]. *)
Definition consumer_returns (st : state) : state :=
  {| at_ := at_ st; runCount := runCount st; wg := wg st;
     logWg := logWg st - 1;
     goroutines := goroutines st; urlChannel := urlChannel st;
     urlClosed := urlClosed st; logChan := logChan st;
     logClosed := logClosed st; consumer := false;
     printed := printed st; domainSuccess := domainSuccess st;
     urlSet := urlSet st; failed := failed st |}.

Definition set_result (acc : bool * gset string) (st : state) : state :=
  {| at_ := at_ st; runCount := runCount st; wg := wg st; logWg := logWg st;
     goroutines := goroutines st; urlChannel := urlChannel st;
     urlClosed := urlClosed st; logChan := logChan st;
     logClosed := logClosed st; consumer := consumer st;
     printed := printed st; domainSuccess := acc.1;
     urlSet := acc.2; failed := failed st |}.

Definition set_failed (x : bool) (st : state) : state :=
  {| at_ := at_ st; runCount := runCount st; wg := wg st; logWg := logWg st;
     goroutines := goroutines st; urlChannel := urlChannel st;
     urlClosed := urlClosed st; logChan := logChan st;
     logClosed := logClosed st; consumer := consumer st;
     printed := printed st; domainSuccess := domainSuccess st;
     urlSet := urlSet st; failed := Some x |}.

Section Steps.

(** The excluded sources, what the goroutine of each source does, and
    [finalUrlSet] as the domain finds it. *)
Variable ex : gmap string bool.
Variable prog : source → list event.
Variable set0 : gset string.

(** The state after [go func() { ... }()] of the log consumer (line
    540): channels made, [logWg] at one, nothing started yet. *)
Definition init : state :=
  {| at_ := AtDispatch [VT; OTX; Wayback; HR];
     runCount := 0; wg := 0; logWg := 1;
     goroutines := []; urlChannel := []; urlClosed := false;
     logChan := []; logClosed := false; consumer := true;
     printed := []; domainSuccess := false; urlSet := set0;
     failed := None |}.

(** The next statement of the orchestrator; [None] while it blocks. *)
Definition main_step (st : state) : option state :=
  match at_ st with
  | AtDispatch (s :: rest) =>
      if excluded ex (source_key s) then Some (set_at (AtDispatch rest) st)
      else Some (set_at (AtDispatch rest) (go (prog s) st))
  | AtDispatch [] =>
      Some (set_at (if (runCount st =? 0)%nat then AtCloseUrl else AtWait) st)
  | AtWait =>
      if (wg st =? 0)%nat then Some (set_at AtCloseUrl st) else None
  | AtCloseUrl =>
      Some (set_at AtCloseLog (set_urlChannel (urlChannel st) true st))
  | AtCloseLog =>
      Some (set_at AtLogWait (set_logChan (logChan st) true st))
  | AtLogWait =>
      if (logWg st =? 0)%nat then Some (set_at AtDrain st) else None
  | AtDrain =>
      match urlChannel st with
      | urls :: rest =>
          Some (set_result (drain_one (domainSuccess st, urlSet st) urls)
                  (set_urlChannel rest (urlClosed st) st))
      | [] => if urlClosed st then Some (set_at AtDecide st) else None
      end
  | AtDecide =>
      Some (set_at AtEnd
              (set_failed (domain_failed (domainSuccess st) (runCount st)) st))
  | AtEnd => None
  end.

(** The next event of the [j]-th started querier; [None] when it has
    returned or blocks on a full channel.  A send on a closed channel
    and a negative wait-group counter are run-time panics: no step. *)
Definition querier_step (j : nat) (st : state) : option state :=
  match goroutines st !! j with
  | Some (e :: rest) =>
      let st' := set_goroutines (<[j := rest]> (goroutines st)) st in
      match e with
      | EvDo _ | EvSleep _ => Some st'
      | EvLog m =>
          if logClosed st || (capacity <=? length (logChan st))%nat
          then None
          else Some (set_logChan (logChan st ++ [m]) false st')
      | EvSend urls =>
          if urlClosed st || (capacity <=? length (urlChannel st))%nat
          then None
          else Some (set_urlChannel (urlChannel st ++ [urls]) false st')
      | EvDone =>
          if (wg st =? 0)%nat then None
          else Some (set_wg (wg st - 1) st')
      end
  | _ => None
  end.

(** The log consumer: [for msg := range logChan { log.Printf(...) }]
    under [defer logWg.Done()]. *)
Definition consumer_step (st : state) : option state :=
  if consumer st then
    match logChan st with
    | m :: rest =>
        Some (set_printed (printed st ++ [m])
                (set_logChan rest (logClosed st) st))
    | [] => if logClosed st then Some (consumer_returns st) else None
    end
  else None.

Inductive label : Type :=
| Orchestrator
| Querier (j : nat)
| Consumer.

Definition fire (l : label) (st : state) : option state :=
  match l with
  | Orchestrator => main_step st
  | Querier j => querier_step j st
  | Consumer => consumer_step st
  end.

(** A schedule, run from a state; [None] when it picks a goroutine that
    cannot move. *)
Fixpoint exec (sched : list label) (st : state) : option state :=
  match sched with
  | [] => Some st
  | l :: sched' => st' ← fire l st; exec sched' st'
  end.

(** The orchestrator reads from [urlChannel], or settles whether the
    domain failed, in its next step. *)
Definition reads_or_decides (st : state) : bool :=
  match at_ st with
  | AtDrain | AtDecide => true
  | _ => false
  end.

End Steps.

End Machine.

(** ** Notions the properties are stated with *)

(** The text after the last dot of a string that has a dot: its final
    dot-separated label. *)
Fixpoint after_last_dot (s : list ascii) : option (list ascii) :=
  match s with
  | [] => None
  | a :: s' =>
      match after_last_dot s' with
      | Some t => Some t
      | None => if is_dot a then Some s' else None
      end
  end.

(** The string has a final dot-separated label that is alphabetic and at
    least two bytes long. *)
Definition alphabetic_final_label (s : string) : bool :=
  match after_last_dot (list_ascii_of_string s) with
  | Some t => (2 <=? length t)%nat && forallb is_letter t
  | None => false
  end.

Definition bytes (s : string) : list ascii := list_ascii_of_string s.

(** The attempts and the sleeps of a trace, in their order. *)
Definition attempts_and_sleeps (tr : list event) : list event :=
  List.filter (λ e, is_do e || is_sleep e) tr.

(** An attempt after which the loop goes on: an error, and no response
    with a status from 400 to 499. *)
Definition retryable (r : DoResult) : Prop :=
  ∃ resp e, r = Failed resp e ∧ client_error resp = false.

Definition example_request : Request :=
  {| Method := "GET"; URL := "https://web.archive.org/cdx/search/cdx";
     Header := [] |}.

(** [net/http] hands a response of any status to the caller with a nil
    error: "a non-2xx status code doesn't cause an error". *)
Definition answers (status : Z) (body : string) : DoResult :=
  Responded {| StatusCode := status; Body := body |}.

Ltac go_unfold :=
  unfold makeRequestWithRetry, retryAttempts in *; simpl in *;
  unfold mbind, G_bind, mret, G_ret, bind, ret, http_Do, Sleep, send, emit,
    log_unless, count in *.

(** Events that neither send on the results channel nor signal the
    wait-group. *)
Definition internal (l : list event) : Prop :=
  sends l = [] ∧ count is_done l = 0%nat.

(** What [log_unless] adds to the trace. *)
Definition log_events (silent : bool) (ty source msg : string) : list event :=
  if silent then []
  else [EvLog {| Type_ := ty; Source := source; Message := msg |}].

Definition warning_text (i : nat) (e : error) : string :=
  "Request failed (attempt " +:+ pretty (i + 1)%nat +:+ "/"
  +:+ pretty retryAttempts +:+ "): " +:+ e +:+ ". Retrying in 5s...".

Definition client_error_text (resp : option Response) : string :=
  "Client error " +:+ pretty (status_of resp) +:+ ", not retrying.".

(** ** A library and networks for concrete runs *)

Definition lines_of (body : string) : list string :=
  List.filter (λ l, negb (bool_decide (l = ""))) (Split newline body).

(** A stand-in for [json.Unmarshal]: the body lists the URLs one per line;
    for OTX a first line [next] stands for [has_next]. *)
Definition example_lib : Lib :=
  {| NewRequest_error := λ _, None;
     unmarshal_vt := λ body,
       {| UndetectedUrls := map (λ l, [l]) (lines_of body);
          ResponseCode := 1 |};
     unmarshal_otx := λ body,
       match lines_of body with
       | l :: ls =>
           if bool_decide (l = "next")
           then {| URLList := ls; HasNext := true |}
           else {| URLList := l :: ls; HasNext := false |}
       | [] => {| URLList := []; HasNext := false |}
       end;
     unmarshal_hr := λ body, {| AllURLs := lines_of body |} |}.

Definition nl : string := String newline EmptyString.

(** A goroutine that does its work and returns: its trace ends with the
    one message on the results channel and the signal on the wait-group. *)
Definition one_message (tr : list event) : Prop :=
  ∃ pre urls, tr = pre ++ [EvSend urls; EvDone] ∧ internal pre.

(** From the [N]-th call of [http.DefaultClient.Do] on, no response of OTX
    announces a further page. *)
Definition pages_end (lib : Lib) (net : Net) (N : nat) : Prop :=
  ∀ k req resp, (N ≤ k)%nat → net req k = Responded resp →
    HasNext (unmarshal_otx lib (Body resp)) = false.

(** A network that answers every request with status 200 and one body. *)
Definition always (body : string) : Net := λ _ _, answers 200 body.

(** OTX answers the first page with one URL and the promise of a second
    page; from then on every call fails. *)
Definition second_page_down : Net :=
  λ _ n, if (n =? 0)%nat
         then answers 200 ("next" +:+ nl +:+ "http://a.com/x")
         else Failed None "connection refused".

(** A library whose [http.NewRequest] rejects every URL. *)
Definition no_request_lib : Lib :=
  {| NewRequest_error := λ _, Some "invalid URL";
     unmarshal_vt := unmarshal_vt example_lib;
     unmarshal_otx := unmarshal_otx example_lib;
     unmarshal_hr := unmarshal_hr example_lib |}.

(** The configuration file of a user [u]. *)
Definition home_config : string := "/home/u/.config/Ph.Sh_url/config.yaml".

Definition no_keys : Config :=
  {| VirusTotalKeys := []; AlienVaultKeys := []; HudsonRockKeys := [] |}.

(** A run with the flags [-e vt,otx,hr] against an archive that answers
    every query with an empty body. *)
Definition wayback_only_empty : Params :=
  {| silent := false; outputFile := "endpoints.txt";
     inputFile := "domains.txt"; configFile := home_config;
     excludedMap := make_excludedMap "vt,otx,hr";
     config := no_keys; lib := example_lib;
     world := λ _ _, always "";
     write_error := λ _, None; iteration := 0 |}.

(** The URLs of a sequence of messages, as a set. *)
Definition urls_of (msgs : list slice) : gset string :=
  list_to_set (concat (map elems msgs)).

(** Some message of the sequence is not the absent marker. *)
Definition some_present (msgs : list slice) : bool :=
  existsb (λ m, negb (is_nil m)) msgs.

(** The goroutine started for source [s] sends a result that is not
    absent. *)
Definition produced_result (fuel : nat) (p : Params) (i : nat)
    (domain : string) (st : Main) (s : source) : Prop :=
  ∃ tr urls,
    querier fuel (lib p) (world p i) (config p) domain (apiKeyIndex st)
      (silent p) s = Some tr
    ∧ Some urls ∈ sends tr.

(** The state in which the driver has dealt with the first [k] lines. *)
Definition after_lines (fuel : nat) (p : Params) (k : nat)
    (domains : list string) : option Main :=
  run_lines fuel p (length domains) 0 (take k domains) (start p domains).

(** A run with OTX excluded, where the archive knows two URLs for every
    domain and the other sources none. *)
Definition two_urls : Params :=
  {| silent := false; outputFile := "endpoints.txt";
     inputFile := "domains.txt"; configFile := home_config;
     excludedMap := make_excludedMap "otx";
     config := no_keys; lib := example_lib;
     world := λ _ s,
       match s with
       | Wayback => always ("http://a.com/x" +:+ nl +:+ "http://a.com/y")
       | _ => always ""
       end;
     write_error := λ _, None; iteration := 0 |}.

Definition quietly (p : Params) : Params :=
  {| silent := true; outputFile := outputFile p;
     inputFile := inputFile p; configFile := configFile p;
     excludedMap := excludedMap p; config := config p; lib := lib p;
     world := world p; write_error := write_error p;
     iteration := iteration p |}.

(** What a step of the driver never does: shrink the URL set, break its
    agreement with the messages read, print, write, or come back from an
    exit. *)
Record extends (st st' : Main) : Prop := {
  ext_set : finalUrlSet st ⊆ finalUrlSet st';
  ext_union : finalUrlSet st = urls_of (received st) →
              finalUrlSet st' = urls_of (received st');
  ext_stdout : stdout (outputs st') = stdout (outputs st);
  ext_writes : writes (outputs st') = writes (outputs st);
  ext_exited : exited st' = exited st;
  ext_stay : exited st = true → st' = st
}.

(** The write of the failed domains, which happens when there are some. *)
Definition failed_write (st : Main) : list (string * list string) :=
  match failedDomains st with
  | [] => []
  | _ :: _ => [(failed_path, failedDomains st)]
  end.

(** The run [p] with another output file. *)
Definition writing_to (path : string) (p : Params) : Params :=
  {| silent := silent p; outputFile := path;
     inputFile := inputFile p; configFile := configFile p;
     excludedMap := excludedMap p; config := config p; lib := lib p;
     world := world p; write_error := write_error p;
     iteration := iteration p |}.

(** Files by path for concrete runs: a path is taken from the working
    directory, so that [./] in front of it does not change the file it
    names. *)
Fixpoint drop_dot_slash (path : string) : string :=
  match path with
  | String "."%char (String "/"%char rest) => drop_dot_slash rest
  | _ => path
  end.

(** Five input lines, one of them no domain. *)
Definition five_lines : list string :=
  ["example.com"; "not a domain!!"; "sub.example.co"; "example.org";
   "example.net"].

(** ** Notions for the goroutines of one domain *)

(** A goroutine that has not returned. *)
Definition live (g : list event) : bool :=
  match g with [] => false | _ :: _ => true end.

(** What a started querier does ends with its one signal on the
    wait-group. *)
Definition ends_with_Done (g : list event) : Prop :=
  ∃ body, g = body ++ [EvDone] ∧ count is_done body = 0%nat.

(** The orchestrator is past [wg.Wait()], past [close(urlChannel)], past
    [close(logChan)], past [logWg.Wait()]. *)
Definition joined_at (x : Machine.pc) : bool :=
  match x with
  | Machine.AtDispatch _ | Machine.AtWait => false
  | _ => true
  end.

Definition url_closed_at (x : Machine.pc) : bool :=
  match x with
  | Machine.AtDispatch _ | Machine.AtWait | Machine.AtCloseUrl => false
  | _ => true
  end.

Definition log_closed_at (x : Machine.pc) : bool :=
  match x with
  | Machine.AtDispatch _ | Machine.AtWait | Machine.AtCloseUrl
  | Machine.AtCloseLog => false
  | _ => true
  end.

Definition drained_at (x : Machine.pc) : bool :=
  match x with
  | Machine.AtDrain | Machine.AtDecide | Machine.AtEnd => true
  | _ => false
  end.

(** What holds in every state the goroutines of one domain can reach. *)
Record Inv (st : Machine.state) : Prop := {
  inv_wf : Forall (λ g, g = [] ∨ ends_with_Done g) (Machine.goroutines st);
  inv_wg : Machine.wg st = length (List.filter live (Machine.goroutines st));
  inv_logWg : Machine.logWg st = if Machine.consumer st then 1%nat else 0%nat;
  inv_url : Machine.urlClosed st = url_closed_at (Machine.at_ st);
  inv_log : Machine.logClosed st = log_closed_at (Machine.at_ st);
  inv_joined : joined_at (Machine.at_ st) = true → Machine.wg st = 0%nat;
  inv_consumer : Machine.consumer st = false →
                 Machine.logClosed st = true ∧ Machine.logChan st = [];
  inv_drained : drained_at (Machine.at_ st) = true →
                Machine.consumer st = false;
  inv_runCount : Machine.runCount st = length (Machine.goroutines st)
}.

Ltac inv_fields :=
  split; simpl;
  repeat match goal with H : Machine.at_ _ = _ |- _ => rewrite ?H; clear H end;
  try done; auto; try lia; try congruence.


(** One domain with only the archive enabled, which knows one URL. *)
Definition archive_only : gmap string bool := make_excludedMap "vt,otx,hr".

Definition archive_prog (s : source) : list event :=
  default []
    (querier 1 example_lib (λ _, always "http://a.com/x") no_keys
       "example.com" 0 false s).

(** The querier runs to its end, the consumer prints its log line, the
    orchestrator closes the channels, the consumer returns, and the
    orchestrator arrives at its drain loop. *)
Definition archive_schedule : list Machine.label :=
  [Machine.Orchestrator; Machine.Orchestrator; Machine.Orchestrator;
   Machine.Orchestrator; Machine.Orchestrator;
   Machine.Querier 0; Machine.Querier 0; Machine.Querier 0; Machine.Querier 0;
   Machine.Consumer;
   Machine.Orchestrator; Machine.Orchestrator; Machine.Orchestrator;
   Machine.Consumer; Machine.Orchestrator].

(** The sources for which the orchestrator has still to start a goroutine. *)
Definition to_start (ex : gmap string bool) (x : Machine.pc) : list source :=
  match x with
  | Machine.AtDispatch rest =>
      List.filter (λ s, negb (excluded ex (source_key s))) rest
  | _ => []
  end.

(** The messages of a list of goroutines. *)
Definition messages (gs : list (list event)) : list slice :=
  concat (map sends gs).

Definition past_drain (x : Machine.pc) : bool :=
  match x with
  | Machine.AtDecide | Machine.AtEnd => true
  | _ => false
  end.

(** The messages of the dispatched queriers are, up to their order, those
    already drained, those in the channel, those the started queriers have
    still to send and those of the queriers still to start. *)
Definition Accounted (ex : gmap string bool) (prog : source → list event)
    (set0 : gset string) (st : Machine.state) : Prop :=
  ∃ drained,
    (Machine.domainSuccess st, Machine.urlSet st) = drain drained false set0
    ∧ drained ++ Machine.urlChannel st ++ messages (Machine.goroutines st)
      ++ messages (map prog (to_start ex (Machine.at_ st)))
      ≡ₚ messages (map prog (dispatched ex))
    ∧ (Machine.runCount st + length (to_start ex (Machine.at_ st))
       = length (dispatched ex))%nat
    ∧ (past_drain (Machine.at_ st) = true → Machine.urlChannel st = [])
    ∧ (Machine.at_ st = Machine.AtEnd →
       Machine.failed st
       = Some (domain_failed (Machine.domainSuccess st) (Machine.runCount st))).

(** ** A schedule that completes *)

Definition is_log (e : event) : bool :=
  match e with EvLog _ => true | _ => false end.

(** One querier run to its end, the log consumer taking each log message
    as soon as it is sent. *)
Fixpoint run_querier (j : nat) (g : list event) : list Machine.label :=
  match g with
  | [] => []
  | e :: g' =>
      match e with
      | EvLog _ => [Machine.Querier j; Machine.Consumer]
      | _ => [Machine.Querier j]
      end ++ run_querier j g'
  end.

Fixpoint run_queriers (j : nat) (gs : list (list event)) : list Machine.label :=
  match gs with
  | [] => []
  | g :: gs' => run_querier j g ++ run_queriers (S j) gs'
  end.

(** The schedule in which the queriers run one after the other. *)
Definition sequential (ex : gmap string bool) (prog : source → list event)
  : list Machine.label :=
  let gs := map prog (dispatched ex) in
  repeat Machine.Orchestrator 5
  ++ run_queriers 0 gs
  ++ match gs with [] => [] | _ :: _ => [Machine.Orchestrator] end
  ++ [Machine.Orchestrator; Machine.Orchestrator; Machine.Consumer;
      Machine.Orchestrator]
  ++ repeat Machine.Orchestrator (length (messages gs))
  ++ [Machine.Orchestrator; Machine.Orchestrator].

Ltac use_IH IH :=
  match goal with
  | |- Machine.exec _ _ _ ?s = _ => rewrite (IH s); simpl; try done
  end.


(** ** The shape of a domain name *)

Definition is_alnum (a : ascii) : bool := is_letter a || is_digit a.

Definition is_alnum_hyphen (a : ascii) : bool :=
  is_letter a || is_digit a || is_hyphen a.

(** The dot-separated parts of a byte sequence. *)
Fixpoint labels (s : list ascii) : list (list ascii) :=
  match s with
  | [] => [[]]
  | a :: s' =>
      if is_dot a then [] :: labels s'
      else match labels s' with
           | x :: l => (a :: x) :: l
           | [] => [[a]]
           end
  end.

Fixpoint join_dots (parts : list (list ascii)) : list ascii :=
  match parts with
  | [] => []
  | x :: rest =>
      match rest with
      | [] => x
      | _ :: _ => x ++ "."%char :: join_dots rest
      end
  end.

(** A label: 1 to 63 letters, digits and hyphens, the first and the last
    no hyphen. *)
Definition label_ok (l : list ascii) : bool :=
  match l with
  | [] => false
  | a :: _ =>
      is_alnum a && is_alnum (List.last l a) && forallb is_alnum_hyphen l
      && (length l <=? 63)%nat
  end.

(** The final label: two letters or more. *)
Definition tld_ok (l : list ascii) : bool :=
  (2 <=? length l)%nat && forallb is_letter l.

Fixpoint labels_then_tld (parts : list (list ascii)) : bool :=
  match parts with
  | [] => false
  | l :: rest =>
      match rest with
      | [] => tld_ok l
      | _ :: _ => label_ok l && labels_then_tld rest
      end
  end.

(** Two parts or more, the last a final label, the others labels. *)
Definition domain_shape (s : string) : bool :=
  let parts := labels (bytes s) in
  (2 <=? length parts)%nat && labels_then_tld parts.

(** [[a-z0-9]([a-z0-9-]{0,61}[a-z0-9])?], the label of [label_dot]. *)
Definition label_re : Regex.re :=
  Regex.Cat fold_alnum
    (Regex.Opt (Regex.Cat (Regex.UpTo 61 fold_alnum_hyphen) fold_alnum)).

(** Labels, each followed by its dot. *)
Definition dotted (ls : list (list ascii)) : list ascii :=
  concat (map (λ l, l ++ ["."%char]) ls).

(** ** Notions for the input lines *)

(** The driver processes the line: its cleaned form is a valid domain. *)
Definition accepted (raw : string) : bool :=
  isValidDomain (cleanDomainLine raw).

(** What the driver logs for a line it skips (lines 493-511): nothing for
    a blank line. *)
Definition skip_outputs (silent : bool) (raw : string) : list output :=
  if bool_decide (TrimSpace raw = "") then []
  else
    log_when (negb silent)
      (if bool_decide (cleanDomainLine raw = "") then LogSkipEmpty
       else LogSkipInvalid (cleanDomainLine raw)).

(** No byte of the listed white-space runes is a domain byte. *)
Definition outside (encs : list (list ascii)) : bool :=
  forallb (forallb (λ a, negb (domain_char a))) encs.

(** ** The log consumer's line (lines 526-539) *)

Definition esc : string := String (byte 27) EmptyString.
Definition colorRed : string := esc +:+ "[31m".
Definition colorGreen : string := esc +:+ "[32m".
Definition colorYellow : string := esc +:+ "[33m".
Definition colorBlue : string := esc +:+ "[34m".
Definition colorReset : string := esc +:+ "[0m".

(** [switch msg.Type] *)
Definition consumer_color (ty : string) : string :=
  if bool_decide (ty = "SUCCESS") then colorGreen
  else if bool_decide (ty = "ERROR") then colorRed
  else if bool_decide (ty = "WARNING") then colorYellow
  else colorReset.

(** [log.Printf("%s[%s]%s %s", color, msg.Source, colorReset, msg.Message)] *)
Definition consumer_line (m : logMessage) : string :=
  consumer_color (Type_ m) +:+ "[" +:+ Source m +:+ "]" +:+ colorReset
  +:+ " " +:+ Message m.

(** ** Notions for the traces of the fetcher and the queriers *)

(** The tag under which the goroutine of a source logs. *)
Definition source_name (s : source) : string :=
  match s with
  | VT => "VT"
  | OTX => "OTX"
  | Wayback => "Wayback"
  | HR => "HudsonRock"
  end.

(** An event of the fetcher called with [req], [silent] and [source]. *)
Definition fetch_event (req : Request) (silent : bool) (source : string)
    (e : event) : Prop :=
  match e with
  | EvDo r => r = req
  | EvSleep d => d = retryDelay
  | EvLog m =>
      silent = false ∧ Source m = source
      ∧ (Type_ m = "WARNING" ∨ Type_ m = "ERROR")
  | _ => False
  end.

(** An event of a querier before its report. *)
Definition early_event (silent : bool) (name : string) (e : event) : Prop :=
  match e with
  | EvDo r => Method r = "GET"
  | EvSleep d => d = retryDelay
  | EvLog m =>
      silent = false ∧ Source m = name
      ∧ (Type_ m = "WARNING" ∨ Type_ m = "ERROR")
  | _ => False
  end.

(** A querier that reports: requests, sleeps and warnings, then the
    report (unless silent), the message and the signal.  The report is a
    success with the number of URLs sent, or an error with the absent
    marker.  [bounded] says that the querier calls the fetcher once. *)
Definition reports (silent : bool) (name : string) (bounded : bool)
    (tr : list event) : Prop :=
  ∃ pre ty msg urls,
    tr = pre ++ log_events silent ty name msg ++ [EvSend urls; EvDone]
    ∧ Forall (early_event silent name) pre
    ∧ ((ty = "SUCCESS" ∧ msg = found urls) ∨ (ty = "ERROR" ∧ urls = None))
    ∧ urls ≠ Some []
    ∧ (count is_sleep pre ≤ count is_do pre)%nat
    ∧ (bounded = true → (count is_do pre ≤ retryAttempts)%nat).

(** The seconds a trace sleeps. *)
Definition slept_in (tr : list event) : Z :=
  foldr (λ e acc, match e with EvSleep d => (d + acc)%Z | _ => acc end) 0%Z tr.

(** ** Notions for the run as a whole *)

(** The seconds the main goroutine sleeps. *)
Definition slept (outs : list output) : Z :=
  foldr (λ o acc, match o with OutSleep d => (d + acc)%Z | _ => acc end)
        0%Z outs.

(** An output of a silent run: anything but a log line that is no fatal
    error. *)
Definition quiet_output (o : output) : bool :=
  match o with
  | OutLog (LogFatal _) => true
  | OutLog _ => false
  | _ => true
  end.

(** The domains of the input lines that the driver processes, in their
    order. *)
Definition accepted_domains (domains : list string) : list string :=
  map cleanDomainLine (List.filter accepted domains).

(** A run that fails to write one file. *)
Definition unwritable (path : string) (p : Params) : Params :=
  {| silent := silent p; outputFile := outputFile p;
     inputFile := inputFile p; configFile := configFile p;
     excludedMap := excludedMap p; config := config p; lib := lib p;
     world := world p;
     write_error := λ f, if bool_decide (f = path)
                         then Some "permission denied" else write_error p f;
     iteration := iteration p |}.

(** ** Reading and writing lines (lines 360-396) *)

(** [bufio.MaxScanTokenSize]: the most a [bufio.Scanner] buffers while it
    looks for the end of a line. *)
Definition MaxScanTokenSize : Z := 65536.

Definition ErrTooLong : error := "bufio.Scanner: token too long".

Definition carriage_return : ascii := byte 13.

(** [dropCR] of package [bufio]: a carriage return at the end goes. *)
Fixpoint dropCR (s : string) : string :=
  match s with
  | EmptyString => EmptyString
  | String a s' =>
      if bool_decide (s' = "") && bool_decide (a = carriage_return)
      then EmptyString
      else String a (dropCR s')
  end.

Definition too_long (segment : string) : bool :=
  (MaxScanTokenSize <=? Z.of_nat (String.length segment))%Z.

(** The loop [for scanner.Scan() { lines = append(lines, scanner.Text()) }]
    over the parts of the input between its newlines, with [scanner.Err()]
    at its end.  A part before a newline is a line; the part after the last
    newline is a line unless it is empty; either loses a final carriage
    return.  A part that does not fit the buffer ends the scan with
    [ErrTooLong]. *)
Fixpoint scan (segments : list string) : list string * option error :=
  match segments with
  | [] => ([], None)
  | segment :: rest =>
      if too_long segment then ([], Some ErrTooLong)
      else
        match rest with
        | [] =>
            (if bool_decide (segment = "") then [] else [dropCR segment], None)
        | _ :: _ =>
            let '(lines, err) := scan rest in (dropCR segment :: lines, err)
        end
  end.

(** [readLinesFromStdin], and [readLinesFromFile] once the file is open,
    on the bytes of the input. *)
Definition readLines (data : string) : list string * option error :=
  scan (Split newline data).

(** [readLinesFromFile] on a file system that maps a path to the bytes of
    the file there. *)
Definition readLinesFromFile (files : gmap string string) (filePath : string)
  : list string * option error :=
  match files !! filePath with
  | None => ([], Some ("open " +:+ filePath +:+ ": no such file or directory"))
  | Some data => readLines data
  end.

(** What [writeLinesToFile] leaves in the file: [fmt.Fprintln] of each
    line. *)
Fixpoint Fprintln_lines (lines : list string) : string :=
  match lines with
  | [] => EmptyString
  | line :: rest => line +:+ nl +:+ Fprintln_lines rest
  end.

(** The bytes of the files after a sequence of outputs, kept by file as
    in [files_after]: [file_of] gives the file that a path names. *)
Definition disk_after (file_of : string → string) (outs : list output)
    (files : gmap string string) : gmap string string :=
  foldl (λ files o,
           match o with
           | OutWrite path lines =>
               <[file_of path := Fprintln_lines lines]> files
           | _ => files
           end) files outs.

(** A line that [writeLinesToFile] and the scanner give back as it is: no
    newline in it, no carriage return at its end, shorter than the buffer. *)
Definition plain_line (line : string) : Prop :=
  Forall (λ a, a ≠ newline) (bytes line)
  ∧ last (bytes line) ≠ Some carriage_return
  ∧ (Z.of_nat (String.length line) < MaxScanTokenSize)%Z.

(** Lines that end in a carriage return and a newline. *)
Fixpoint crlf_lines (lines : list string) : string :=
  match lines with
  | [] => EmptyString
  | line :: rest =>
      line +:+ String carriage_return nl +:+ crlf_lines rest
  end.

(** ** Notions for the sources *)

(** [strings.Join] with a separator of one byte. *)
Fixpoint Join (sep : ascii) (parts : list string) : string :=
  match parts with
  | [] => EmptyString
  | x :: rest =>
      match rest with
      | [] => x
      | _ :: _ => x +:+ String sep (Join sep rest)
      end
  end.

(** A line that is not blank. *)
Definition not_blank (line : string) : bool :=
  negb (bool_decide (TrimSpace line = "")).

(** The request of [getAlienVaultURLs] for a page (lines 221-233), as
    [http.DefaultClient.Do] gets it: [Header.Add] has put the key under
    the canonical form of the name [X-OTX-API-KEY]. *)
Definition otx_request (domain : string) (apiKeys : list string)
    (apiKeyIndex page : nat) : Request :=
  {| Method := "GET";
     URL := "https://otx.alienvault.com/api/v1/indicators/domain/"
            +:+ domain +:+ "/url_list?limit=500&page=" +:+ pretty page;
     Header := if (0 <? length apiKeys)%nat
               then [("X-Otx-Api-Key", pick_key apiKeys apiKeyIndex)]
               else [] |}.

(** The requests of a trace, in their order. *)
Definition requests (tr : list event) : list Request :=
  omap (λ e, match e with EvDo r => Some r | _ => None end) tr.

(** OTX serves two pages of one URL each. *)
Definition two_pages : Net :=
  λ _ n, if (n =? 0)%nat
         then answers 200 ("next" +:+ nl +:+ "http://a.com/x")
         else answers 200 "http://a.com/y".

(** A server that answers only the requests that carry a header of the
    given name, byte for byte, and turns the others away with status 403. *)
Definition with_header (name : string) (net : Net) : Net :=
  λ req n,
    if bool_decide (name ∈ map fst (Header req)) then net req n
    else answers 403 "".

(** ** Notions for the progress of the goroutines *)

(** The statements the orchestrator has still to pass. *)
Definition rank (x : Machine.pc) : nat :=
  match x with
  | Machine.AtDispatch rest => 7 + length rest
  | Machine.AtWait => 6
  | Machine.AtCloseUrl => 5
  | Machine.AtCloseLog => 4
  | Machine.AtLogWait => 3
  | Machine.AtDrain => 2
  | Machine.AtDecide => 1
  | Machine.AtEnd => 0
  end.

(** A bound on the steps that are left: each event of a querier counts for
    itself and for the receipt of what it may send. *)
Definition work (ex : gmap string bool) (prog : source → list event)
    (st : Machine.state) : nat :=
  rank (Machine.at_ st)
  + 3 * length (concat (Machine.goroutines st))
  + 3 * length (concat (map prog (to_start ex (Machine.at_ st))))
  + length (Machine.logChan st) + length (Machine.urlChannel st)
  + (if Machine.consumer st then 1 else 0).

(** The log message carries the tag of the source. *)
Definition from_source (s : source) (m : logMessage) : bool :=
  bool_decide (Source m = source_name s).

(** What the querier with number [j] has still to do: what is left of it
    once it is started, all of it before. *)
Definition remaining (prog : source → list event) (st : Machine.state)
    (j : nat) (s : source) : list event :=
  default (prog s) (Machine.goroutines st !! j).

(** The log messages sent so far, in the order of their sending: those
    printed and those still in the channel. *)
Definition logged (st : Machine.state) : list logMessage :=
  Machine.printed st ++ Machine.logChan st.

(** The log messages of each dispatched source are those sent with its tag
    so far, in their order, and those it has still to send; the queriers
    are started in the order of the dispatch. *)
Record LogInv (ex : gmap string bool) (prog : source → list event)
    (st : Machine.state) : Prop := {
  log_count :
    (length (Machine.goroutines st) ≤ length (dispatched ex))%nat;
  log_started :
    drop (length (Machine.goroutines st)) (dispatched ex)
    = to_start ex (Machine.at_ st);
  log_order :
    ∀ j s, dispatched ex !! j = Some s →
      List.filter (from_source s) (logged st)
      ++ logs (remaining prog st j s) = logs (prog s);
  log_tagged :
    Forall (λ m, ∃ s, s ∈ dispatched ex ∧ Source m = source_name s)
           (logged st)
}.

(** A run against an archive that knows one URL, the other sources
    excluded. *)
Definition archive_params : Params :=
  {| silent := false; outputFile := "endpoints.txt";
     inputFile := "domains.txt"; configFile := home_config;
     excludedMap := archive_only;
     config := no_keys; lib := example_lib;
     world := λ _ _, always "http://a.com/x";
     write_error := λ _, None; iteration := 0 |}.

(** [archive_schedule], and the orchestrator to the end of the domain. *)
Definition archive_to_end : list Machine.label :=
  archive_schedule
  ++ [Machine.Orchestrator; Machine.Orchestrator; Machine.Orchestrator].

(** ** The configuration file (lines 90-139) *)

Definition configDirName : string := "Ph.Sh_url".
Definition configFileName : string := "config.yaml".

Definition quote : string := String (byte 34) EmptyString.

(** The text of [defaultConfig]. *)
Definition defaultConfig : string :=
  "# Configuration file for Ph.Sh_URL" +:+ nl
  +:+ "virustotal:" +:+ nl
  +:+ "  - " +:+ quote +:+ "YOUR_VT_API_KEY_1" +:+ quote +:+ nl
  +:+ "alienvault:" +:+ nl
  +:+ "  - " +:+ quote +:+ "YOUR_OTX_API_KEY_1" +:+ quote +:+ nl
  +:+ "hudsonrock:" +:+ nl
  +:+ "  - " +:+ quote +:+ "YOUR_HUDSONROCK_API_KEY_1" +:+ quote +:+ nl.

(** The operating system and the libraries as [loadConfig] meets them: the
    home directory or the error of [os.UserHomeDir], [filepath.Join] and
    [filepath.Dir], the error, if any, of [os.Stat] (one that is not
    "does not exist"), of [os.MkdirAll] and of [os.ReadFile] on a path,
    the error of [os.WriteFile] on a path together with the bytes that the
    failed write leaves there, if it leaves a file, and [yaml.Unmarshal]
    into a [Config]. *)
Record OS : Type := {
  UserHomeDir : string + error;
  filepath_Join : list string → string;
  filepath_Dir : string → string;
  Stat_error : string → option error;
  MkdirAll_error : string → option error;
  WriteFile_error : string → option (error * option string);
  ReadFile_error : string → option error;
  yaml_Unmarshal : string → Config + error
}.

(** [os.IsNotExist(err)] for the error of [os.Stat(path)]. *)
Definition IsNotExist (os : OS) (files : gmap string string) (path : string) : bool :=
  bool_decide (files !! path = None) && bool_decide (Stat_error os path = None).

Definition ReadFile (os : OS) (files : gmap string string) (path : string)
  : string + error :=
  match ReadFile_error os path with
  | Some e => inr e
  | None =>
      match files !! path with
      | Some data => inl data
      | None => inr ("open " +:+ path +:+ ": no such file or directory")
      end
  end.

(** [createDefaultConfig]: the error, and the files afterwards. *)
Definition createDefaultConfig (os : OS) (files : gmap string string) (path : string)
  : option error * gmap string string :=
  match MkdirAll_error os (filepath_Dir os path) with
  | Some e => (Some e, files)
  | None =>
      match WriteFile_error os path with
      | Some (e, None) => (Some e, files)
      | Some (e, Some partial) => (Some e, <[path := partial]> files)
      | None => (None, <[path := defaultConfig]> files)
      end
  end.

Definition configPath (os : OS) (home : string) : string :=
  filepath_Join os [home; ".config"; configDirName; configFileName].

(** [loadConfig]: the configuration or the error, the files afterwards,
    and the lines logged. *)
Definition loadConfig (os : OS) (files : gmap string string) (silent : bool)
  : (Config + error) * gmap string string * list string :=
  match UserHomeDir os with
  | inr e => (inr ("could not get user home directory: " +:+ e), files, [])
  | inl home =>
      let path := configPath os home in
      if IsNotExist os files path then
        let l := if silent then []
                 else ["Configuration file not found at " +:+ path] in
        match createDefaultConfig os files path with
        | (Some e, files') =>
            (inr ("could not create default config file: " +:+ e), files', l)
        | (None, files') =>
            (inr ("a new configuration file has been created at " +:+ path
                  +:+ ". Please edit it to add your API keys"), files', l)
        end
      else
        let l := if silent then []
                 else ["Loading configuration from " +:+ path] in
        match ReadFile os files path with
        | inr e => (inr ("could not read config file: " +:+ e), files, l)
        | inl data =>
            match yaml_Unmarshal os data with
            | inr e => (inr ("could not parse config file: " +:+ e), files, l)
            | inl config => (inl config, files, l)
            end
        end
  end.

(** A system on which nothing fails, with paths joined by slashes and a
    parser that knows the default text. *)
Definition example_os : OS :=
  {| UserHomeDir := inl "/home/u";
     filepath_Join := Join "/"%char;
     filepath_Dir := λ _, "/home/u/.config/Ph.Sh_url";
     Stat_error := λ _, None;
     MkdirAll_error := λ _, None;
     WriteFile_error := λ _, None;
     ReadFile_error := λ _, None;
     yaml_Unmarshal := λ data,
       if bool_decide (data = defaultConfig)
       then inl {| VirusTotalKeys := ["YOUR_VT_API_KEY_1"];
                   AlienVaultKeys := ["YOUR_OTX_API_KEY_1"];
                   HudsonRockKeys := ["YOUR_HUDSONROCK_API_KEY_1"] |}
       else inr "yaml: unknown text" |}.


(** ** Notions for the URL set of a run *)

(** A querier returns the URL [u] in the first [k] lines of the run: for an
    input line [i] before the [k]-th that the driver accepts, the goroutine
    of a dispatched source, run for the domain of the line with the key
    counter at the number of the lines accepted before it, sends a message
    that holds [u]. *)
Definition returned (fuel : nat) (p : Params) (domains : list string)
    (k : nat) (u : string) : Prop :=
  ∃ i raw s tr urls,
    (i < k)%nat ∧ domains !! i = Some raw ∧ accepted raw = true
    ∧ s ∈ dispatched (excludedMap p)
    ∧ querier fuel (lib p) (world p i) (config p) (cleanDomainLine raw)
        (length (List.filter accepted (take i domains))) (silent p) s
      = Some tr
    ∧ Some urls ∈ sends tr
    ∧ u ∈ urls.

(** A run with only the archive enabled, which knows two URLs for the
    first input line and two for the third, one of them for both, and none
    for the other lines. *)
Definition archive_overlap : Params :=
  {| silent := false; outputFile := "endpoints.txt";
     inputFile := "domains.txt"; configFile := home_config;
     excludedMap := make_excludedMap "vt,otx,hr";
     config := no_keys; lib := example_lib;
     world := λ i _,
       match i with
       | 0 => always ("http://a.com/x" +:+ nl +:+ "http://cdn.com/z")
       | 2 => always ("http://cdn.com/z" +:+ nl +:+ "http://b.com/y")
       | _ => always ""
       end%nat;
     write_error := λ _, None; iteration := 0 |}.


(** * Properties *)

(** ** Regular expressions: the matcher answers only for the language *)

Module RegexFacts.
Import Regex.

Lemma nullable_lang r : nullable r = true → lang r [].
Proof.
  induction r as [| |p|r1 IH1 r2 IH2|r1 IH1 r2 IH2|r IH]; simpl; intros H;
    try discriminate.
  - constructor.
  - apply andb_prop in H as [H1 H2].
    change (@nil ascii) with (@nil ascii ++ []). constructor; auto.
  - apply orb_prop in H as [H|H]; [apply lang_alt_l | apply lang_alt_r]; auto.
  - constructor.
Qed.

Lemma lang_Void s : ¬ lang Void s.
Proof. intros H. inversion H. Qed.

Lemma cat_lang r1 r2 s : lang (cat r1 r2) s → lang (Cat r1 r2) s.
Proof.
  destruct r1, r2; simpl; intros H; try exact H;
    try (exfalso; exact (lang_Void _ H));
    try (change s with ([] ++ s); constructor; [constructor | exact H]).
Qed.

Lemma alt_lang r1 r2 s : lang (alt r1 r2) s → lang (Alt r1 r2) s.
Proof.
  destruct r1, r2; simpl; intros H; try exact H;
    try (exfalso; exact (lang_Void _ H));
    first [ apply lang_alt_r; exact H | apply lang_alt_l; exact H ].
Qed.

Lemma deriv_lang a r : ∀ s, lang (deriv a r) s → lang r (a :: s).
Proof.
  induction r as [| |p|r1 IH1 r2 IH2|r1 IH1 r2 IH2|r IH]; simpl; intros s H.
  - inversion H.
  - inversion H.
  - destruct (p a) eqn:Hp; inversion H; subst. by constructor.
  - apply alt_lang in H. inversion H as [| | | ? ? ? H1 | ? ? ? H2 | |]; subst.
    + apply cat_lang in H1. inversion H1; subst.
      change (a :: u ++ v) with ((a :: u) ++ v). constructor; auto.
    + destruct (nullable r1) eqn:Hn; [| inversion H2].
      change (a :: s) with ([] ++ a :: s).
      constructor; auto using nullable_lang.
  - apply alt_lang in H. inversion H; subst;
      [apply lang_alt_l | apply lang_alt_r]; auto.
  - apply cat_lang in H. inversion H; subst.
    change (a :: u ++ v) with ((a :: u) ++ v). constructor; auto.
Qed.

Lemma matches_lang s : ∀ r, matches r s = true → lang r s.
Proof.
  induction s as [|a s IH]; simpl; intros r H.
  - by apply nullable_lang.
  - by apply deriv_lang, IH.
Qed.

(** Every word of [Star r] is a concatenation of words of [r]. *)
Lemma lang_Star_ind (r : re) (P : list ascii → Prop) :
  P [] →
  (∀ u v, lang r u → lang (Star r) v → P v → P (u ++ v)) →
  ∀ s, lang (Star r) s → P s.
Proof.
  intros Hnil Hcons s H. remember (Star r) as r' eqn:E.
  induction H; inversion E; subst; auto.
Qed.

(** The converse: the matcher answers for the whole language. *)
Lemma lang_nullable r s : lang r s → s = [] → nullable r = true.
Proof.
  induction 1 as [|p a Hp|r1 r2 u v _ IH1 _ IH2|r1 r2 u _ IH|r1 r2 u _ IH
               |r|r u v _ _ _ _]; intros E; simpl; try done.
  - destruct u; [|done]. destruct v; [|done]. by rewrite IH1, IH2.
  - by rewrite IH.
  - rewrite IH by done. apply orb_true_r.
Qed.

Lemma lang_cat r1 r2 s : lang (Cat r1 r2) s → lang (cat r1 r2) s.
Proof.
  intros H. inversion H as [| |? ? u v H1 H2| | | |]; subst.
  destruct r1; try (by inversion H1);
  destruct r2; try (by inversion H2); simpl; try done.
  all: inversion H1; subst; done.
Qed.

Lemma lang_alt r1 r2 s : lang (Alt r1 r2) s → lang (alt r1 r2) s.
Proof.
  intros H. inversion H as [| | |? ? ? H1|? ? ? H2| |]; subst.
  - destruct r1; try (by inversion H1); destruct r2; simpl; try done;
    by apply lang_alt_l.
  - destruct r2; try (by inversion H2); destruct r1; simpl; try done;
    by apply lang_alt_r.
Qed.

Lemma lang_deriv r w :
  lang r w → ∀ a s, w = a :: s → lang (deriv a r) s.
Proof.
  induction 1 as [|p b Hp|r1 r2 u v H1 IH1 H2 IH2|r1 r2 u H1 IH|r1 r2 u H2 IH
               |r|r u v H1 IH1 H2 IH2]; intros a s E; simpl; try done.
  - injection E as -> <-. rewrite Hp. constructor.
  - apply lang_alt. destruct u as [|b u]; simpl in E.
  + apply lang_alt_r. rewrite (lang_nullable _ _ H1 eq_refl). by apply IH2.
  + injection E as -> <-. apply lang_alt_l, lang_cat.
    constructor; [by apply IH1 | done].
  - apply lang_alt, lang_alt_l. by apply IH.
  - apply lang_alt, lang_alt_r. by apply IH.
  - destruct u as [|b u]; simpl in E.
  + by apply IH2.
  + injection E as -> <-. apply lang_cat.
    constructor; [by apply IH1 | done].
Qed.

Lemma lang_matches s : ∀ r, lang r s → matches r s = true.
Proof.
  induction s as [|a s IH]; simpl; intros r H.
  - by eapply lang_nullable.
  - by eapply IH, lang_deriv.
Qed.

Lemma matches_iff r s : matches r s = true ↔ lang r s.
Proof. split; [apply matches_lang | apply lang_matches]. Qed.

End RegexFacts.

(** ** The cleaner and the validator *)

Section Domain.
Import Regex RegexFacts.

Lemma domain_char_not_space a s :
  domain_char a = true →
  skip_space unicode_space_encodings (a :: s) = None
  ∧ skip_space (map (@rev ascii) unicode_space_encodings) (a :: s) = None.
Proof.
  destruct a as [[] [] [] [] [] [] [] []]; intros H;
    try (vm_compute in H; discriminate H); split; vm_compute; reflexivity.
Qed.

Lemma trim_left_keeps fuel encs s :
  (∀ a s', s = a :: s' → skip_space encs s = None) →
  trim_left fuel encs s = s.
Proof.
  intros H. destruct fuel as [|fuel]; [done|]. simpl.
  destruct s as [|a s']; [done|]. by rewrite (H a s').
Qed.

Lemma TrimLeftSpace_clean s :
  Forall (λ a, domain_char a = true) s → TrimLeftSpace s = s.
Proof.
  intros H. apply trim_left_keeps. intros a s' ->.
  apply Forall_cons in H as [Ha _].
  exact (proj1 (domain_char_not_space a s' Ha)).
Qed.

Lemma TrimRightSpace_clean s :
  Forall (λ a, domain_char a = true) s → TrimRightSpace s = s.
Proof.
  intros H. unfold TrimRightSpace. rewrite trim_left_keeps.
  - apply rev_involutive.
  - intros a s' E. rewrite E. apply domain_char_not_space.
    assert (Ha : a ∈ rev s) by (rewrite E; left).
    apply list_elem_of_In, in_rev in Ha. rewrite Forall_forall in H.
    by apply H, list_elem_of_In.
Qed.

Lemma TrimSpace_clean s :
  Forall (λ a, domain_char a = true) (bytes s) → TrimSpace s = s.
Proof.
  intros H. unfold TrimSpace. fold (bytes s).
  rewrite (TrimLeftSpace_clean _ H), (TrimRightSpace_clean _ H).
  apply string_of_list_ascii_of_string.
Qed.

Lemma delete_outside_bytes keep s :
  Forall (λ a, keep a = true) (bytes (delete_outside keep s)).
Proof.
  induction s as [|a s IH]; simpl; [constructor|].
  destruct (keep a) eqn:E; simpl; [constructor|]; auto.
Qed.

Lemma cleanDomainLine_delete line :
  cleanDomainLine line = delete_outside domain_char line.
Proof. apply TrimSpace_clean, delete_outside_bytes. Qed.

Lemma cleanDomainLine_bytes line :
  Forall (λ a, domain_char a = true) (bytes (cleanDomainLine line)).
Proof. rewrite cleanDomainLine_delete. apply delete_outside_bytes. Qed.

(** The two folds of [(?i)] beyond ASCII hold a byte that is no domain
    byte. *)
Lemma lang_fold_extra w :
  lang fold_extra w → ¬ Forall (λ a, domain_char a = true) w.
Proof.
  unfold fold_extra. simpl. intros H Hall.
  inversion H as [| | | ? ? ? H1 | ? ? ? H1 | |]; subst;
    inversion H1 as [| |? ? ? ? Ha _| | | |]; subst;
    inversion Ha as [|? a Hp| | | | |]; subst;
    apply bool_decide_eq_true in Hp; subst a;
    apply Forall_app in Hall as [Hall _];
    apply Forall_cons in Hall as [Hall _]; vm_compute in Hall;
    discriminate Hall.
Qed.

Lemma lang_fold_class p w :
  Forall (λ a, domain_char a = true) w →
  lang (Alt (Class p) fold_extra) w → ∃ a, w = [a] ∧ p a = true.
Proof.
  intros Hall H. inversion H as [| | | ? ? ? H1 | ? ? ? H1 | |]; subst.
  - inversion H1; subst. eauto.
  - by apply lang_fold_extra in H1.
Qed.

Lemma lang_letters v :
  Forall (λ a, domain_char a = true) v →
  lang (Star fold_letter) v → forallb is_letter v = true.
Proof.
  intros Hall H. revert Hall. pattern v.
  eapply lang_Star_ind; [| | exact H]; [done|].
  intros u w Hu _ IH Hall. apply Forall_app in Hall as [Hu' Hw].
  apply lang_fold_class in Hu as (a & -> & Ha); [|done].
  simpl. rewrite Ha. by apply IH.
Qed.

Lemma lang_tld v :
  Forall (λ a, domain_char a = true) v →
  lang (AtLeast 2 fold_letter) v →
  (2 <=? length v)%nat && forallb is_letter v = true.
Proof.
  simpl. intros Hall H.
  inversion H as [| |? ? u1 v1 H1 H2| | | |]; subst.
  inversion H2 as [| |? ? u2 v2 H3 H4| | | |]; subst.
  apply Forall_app in Hall as [Hu1 Hall].
  apply Forall_app in Hall as [Hu2 Hv2].
  apply lang_fold_class in H1 as (a & -> & Ha); [|done].
  apply lang_fold_class in H3 as (b & -> & Hb); [|done].
  simpl. by rewrite Ha, Hb, lang_letters.
Qed.

Lemma lang_label_dot w :
  lang label_dot w → ∃ w', w = w' ++ ["."%char].
Proof.
  unfold label_dot. intros H.
  inversion H as [| |? ? u v _ Hd| | | |]; subst.
  inversion Hd as [|? a Ha| | | | |]; subst.
  apply bool_decide_eq_true in Ha. subst a. eauto.
Qed.

Lemma lang_labels w :
  lang (Plus label_dot) w → ∃ w', w = w' ++ ["."%char].
Proof.
  unfold Plus. intros H.
  inversion H as [| |? ? u v Hu Hv| | | |]; subst.
  assert (Hs : v = [] ∨ ∃ v', v = v' ++ ["."%char]).
  { pattern v. eapply lang_Star_ind; [| | exact Hv]; [by left|].
    intros u1 v1 Hu1 _ [->|[v' ->]]; right.
    - rewrite app_nil_r. by apply lang_label_dot.
    - exists (u1 ++ v'). by rewrite app_assoc. }
  destruct Hs as [->|[v' ->]].
  - rewrite app_nil_r. by apply lang_label_dot.
  - exists (u ++ v'). by rewrite app_assoc.
Qed.

Lemma after_last_dot_letters v :
  forallb is_letter v = true → after_last_dot v = None.
Proof.
  induction v as [|a v IH]; simpl; [done|]. intros H.
  apply andb_prop in H as [Ha Hv]. rewrite (IH Hv).
  destruct (is_dot a) eqn:E; [|done].
  apply bool_decide_eq_true in E. subst a. vm_compute in Ha. discriminate Ha.
Qed.

Lemma after_last_dot_app u v :
  forallb is_letter v = true →
  after_last_dot (u ++ "."%char :: v) = Some v.
Proof.
  intros Hv. induction u as [|a u IH]; simpl.
  - by rewrite (after_last_dot_letters _ Hv).
  - by rewrite IH.
Qed.

(** A valid string of domain bytes ends in a dot and two or more
    letters. *)
Lemma isValidDomain_final_label s :
  Forall (λ a, domain_char a = true) (bytes s) →
  isValidDomain s = true → alphabetic_final_label s = true.
Proof.
  intros Hall H. apply matches_lang in H. fold (bytes s) in H.
  unfold alphabetic_final_label. fold (bytes s).
  unfold domain_re in H. revert H Hall. generalize (bytes s) as l.
  intros l H Hall. inversion H as [| |? ? u v Hu Hv| | | |]; subst.
  apply Forall_app in Hall as [_ Hall].
  apply lang_labels in Hu as [u' ->].
  pose proof (lang_tld _ Hall Hv) as Ht.
  apply andb_prop in Ht as [Hlen Hlet].
  rewrite <- app_assoc.
  change ([("."%char)] ++ v) with ("."%char :: v).
  rewrite (after_last_dot_app _ _ Hlet).
  by apply andb_true_intro.
Qed.

End Domain.

(** C9, as stated, is refuted by a line with a byte that the cleaner
    deletes from its last label: the final label [com/x] of the line is not
    alphabetic, the cleaned line [example.comx] is valid. *)
Lemma C9_counterexample :
  alphabetic_final_label "example.com/x" = false
  ∧ isValidDomain (cleanDomainLine "example.com/x") = true.
Proof. split; vm_compute; reflexivity. Qed.

(** C9 (amended): for every input line [x], every byte of
    [cleanDomainLine x] is in [[A-Za-z0-9.-]]; and whenever the cleaned line
    lacks a dot-separated alphabetic final label of length at least two,
    [isValidDomain (cleanDomainLine x)] is false. *)
Theorem C9_clean_then_validate (x : string) :
  Forall (λ a, domain_char a = true) (bytes (cleanDomainLine x))
  ∧ (alphabetic_final_label (cleanDomainLine x) = false →
     isValidDomain (cleanDomainLine x) = false).
Proof.
  split; [apply cleanDomainLine_bytes|]. intros Hno.
  destruct (isValidDomain (cleanDomainLine x)) eqn:E; [|done].
  apply isValidDomain_final_label in E; [congruence|].
  apply cleanDomainLine_bytes.
Qed.

Lemma C9_witness :
  alphabetic_final_label (cleanDomainLine "local host!") = false
  ∧ isValidDomain (cleanDomainLine "local host!") = false.
Proof.
  split; [vm_compute; reflexivity|].
  apply (C9_clean_then_validate "local host!"). vm_compute. reflexivity.
Defined.

(** ** The retrying fetcher *)

(** C2, as stated, fails twice.  A server that answers 500 to every attempt
    is asked once, and its response is returned with a nil error.  A first
    answer of 429 ends the call after one attempt, whether [Do] reports it
    with a nil error or with an error: 429 lies in 400-499. *)
Lemma C2_counterexample :
  let always_500 : Net := λ _ _, answers 500 "" in
  let first_429 : Net :=
    λ _ n, if (n =? 0)%nat then answers 429 "" else answers 200 "" in
  let first_429_error : Net :=
    λ _ n, if (n =? 0)%nat
           then Failed (Some {| StatusCode := 429; Body := "" |}) "too many"
           else answers 200 "" in
  let call net := makeRequestWithRetry net example_request true "VT" [] in
  call always_500 = (answers 500 "", [EvDo example_request])
  ∧ call first_429 = (answers 429 "", [EvDo example_request])
  ∧ call first_429_error
    = (Failed (Some {| StatusCode := 429; Body := "" |}) "too many",
       [EvDo example_request]).
Proof. repeat split; vm_compute; reflexivity. Qed.

(** C2 (amended): when each of three attempts returns an error and no
    response with a status in 400-499, the fetcher makes exactly three
    attempts, sleeps five seconds after each of them, and reports the
    terminal failure that wraps the last error; when the first attempt
    returns a response with a status in 400-499 (429 included), with or
    without an error, it makes exactly one attempt and returns response and
    error as they are, without sleeping; when the first attempt fails in the
    retryable way and the second returns a response without error, it
    reports success after two attempts, with one sleep between them. *)
Theorem C2_retry_budget (net : Net) (req : Request) (silent : bool)
    (source : string) :
  let result := makeRequestWithRetry net req silent source [] in
  ((∀ n, (n < 3)%nat → retryable (net req n)) →
   attempts_and_sleeps result.2
   = [EvDo req; EvSleep 5; EvDo req; EvSleep 5; EvDo req; EvSleep 5]
   ∧ ∃ resp e, net req 2%nat = Failed resp e
       ∧ result.1 = Failed None ("request failed after 3 attempts: " +:+ e))
  ∧ ((∃ resp, client_error (Some resp) = true
        ∧ (net req 0%nat = Responded resp
           ∨ ∃ e, net req 0%nat = Failed (Some resp) e)) →
     attempts_and_sleeps result.2 = [EvDo req] ∧ result.1 = net req 0%nat)
  ∧ (retryable (net req 0%nat) →
     ∀ resp, net req 1%nat = Responded resp →
     attempts_and_sleeps result.2 = [EvDo req; EvSleep 5; EvDo req]
     ∧ result.1 = Responded resp).
Proof.
  cbv zeta. split; [|split].
  - intros H.
    destruct (H 0%nat) as (r0 & e0 & E0 & C0); [lia|].
    destruct (H 1%nat) as (r1 & e1 & E1 & C1); [lia|].
    destruct (H 2%nat) as (r2 & e2 & E2 & C2); [lia|].
    go_unfold. simpl.
    destruct silent; simpl; rewrite E0, C0; simpl; rewrite E1, C1; simpl;
      rewrite E2, C2; simpl; eauto.
  - intros (resp & C & [E|[e E]]); go_unfold; simpl; rewrite E; simpl; [done|].
    simpl in C. destruct silent; simpl; rewrite C; done.
  - intros (r0 & e0 & E0 & C0) resp E1. go_unfold. simpl.
    destruct silent; simpl; rewrite E0, C0; simpl; rewrite E1; done.
Qed.

Lemma C2_witness :
  let refused : DoResult := Failed None "connection refused" in
  let too_many : DoResult :=
    Failed (Some {| StatusCode := 429; Body := "" |}) "too many" in
  (makeRequestWithRetry (λ _ _, refused) example_request true "VT" []).1
  = Failed None "request failed after 3 attempts: connection refused"
  ∧ makeRequestWithRetry (λ _ _, too_many) example_request true "VT" []
    = (too_many, [EvDo example_request])
  ∧ (makeRequestWithRetry
       (λ _ n, if (n =? 0)%nat then refused else answers 200 "ok")
       example_request true "VT" []).1
    = answers 200 "ok".
Proof.
  cbv zeta. split; [|split].
  - destruct (proj1 (C2_retry_budget (λ _ _, Failed None "connection refused")
                       example_request true "VT")) as (_ & r & e & E & ->).
    + intros n _. by exists None, "connection refused".
    + by inversion E.
  - destruct (proj1 (proj2 (C2_retry_budget
        (λ _ _, Failed (Some {| StatusCode := 429; Body := "" |}) "too many")
        example_request true "VT"))) as (_ & E).
    + eexists. split; [|right; eexists; reflexivity]. reflexivity.
    + reflexivity.
  - destruct (proj2 (proj2 (C2_retry_budget
        (λ _ n, if (n =? 0)%nat then Failed None "connection refused"
                else answers 200 "ok")
        example_request true "VT"))) with (resp := {| StatusCode := 200%Z; Body := "ok" |})
      as (_ & E).
    + by exists None, "connection refused".
    + reflexivity.
    + exact E.
Defined.

(** ** Traces of the fetcher and of the queriers *)

Lemma count_app p (l1 l2 : list event) :
  count p (l1 ++ l2) = (count p l1 + count p l2)%nat.
Proof. unfold count. by rewrite List.filter_app, length_app. Qed.

Lemma sends_app (l1 l2 : list event) : sends (l1 ++ l2) = sends l1 ++ sends l2.
Proof. apply omap_app. Qed.

Lemma internal_app l1 l2 : internal l1 → internal l2 → internal (l1 ++ l2).
Proof.
  intros [S1 D1] [S2 D2]. split.
  - by rewrite sends_app, S1, S2.
  - by rewrite count_app, D1, D2.
Qed.

Lemma log_unless_eq silent ty src msg tr :
  log_unless silent ty src msg tr = (tt, tr ++ log_events silent ty src msg).
Proof.
  unfold log_unless, log_events. destruct silent; [|done].
  unfold ret. by rewrite app_nil_r.
Qed.

Lemma log_events_internal silent ty src msg :
  internal (log_events silent ty src msg)
  ∧ count is_do (log_events silent ty src msg) = 0%nat.
Proof. by destruct silent. Qed.

(** One round of the loop of the fetcher. *)
Lemma retry_loop_S net req silent source left i err tr0 :
  retry_loop (S left) i err net req silent source tr0
  = match net req (count is_do tr0) with
    | Responded resp => (Responded resp, tr0 ++ [EvDo req])
    | Failed resp e =>
        let tr1 := tr0 ++ [EvDo req]
                   ++ log_events silent "WARNING" source (warning_text i e) in
        if client_error resp then
          (Failed resp e,
           tr1 ++ log_events silent "ERROR" source (client_error_text resp))
        else
          retry_loop left (S i) e net req silent source
            (tr1 ++ [EvSleep retryDelay])
    end.
Proof.
  simpl. unfold mbind, G_bind, bind, http_Do.
  destruct (net req (count is_do tr0)) as [resp|resp e]; [done|].
  rewrite log_unless_eq. fold (warning_text i e).
  destruct (client_error resp).
  - rewrite log_unless_eq. unfold ret. fold (client_error_text resp).
    by rewrite <- !app_assoc.
  - unfold Sleep, emit. by rewrite <- !app_assoc.
Qed.

(** The fetcher only extends the trace, by internal events; a response it
    returns without error is the answer to one of its own attempts. *)
Lemma retry_loop_shape net req silent source left :
  ∀ i err tr0,
    ∃ r suf, retry_loop left i err net req silent source tr0 = (r, tr0 ++ suf)
      ∧ internal suf
      ∧ (∀ resp, r = Responded resp →
           ∃ k, (count is_do tr0 ≤ k < count is_do (tr0 ++ suf))%nat
                ∧ net req k = Responded resp).
Proof.
  induction left as [|left IH]; intros i err tr0.
  - eexists _, []. simpl. unfold ret. rewrite app_nil_r.
    split; [done|]. split; [done|]. intros resp H. discriminate H.
  - rewrite retry_loop_S.
    destruct (net req (count is_do tr0)) as [resp|resp e] eqn:E.
    + exists (Responded resp), [EvDo req]. repeat split.
      intros resp' H. injection H as <-. exists (count is_do tr0).
      rewrite count_app. split; [unfold count; simpl; lia | done].
    + cbv zeta.
      pose proof (log_events_internal silent "WARNING" source
                    (warning_text i e)) as [I1 D1].
      pose proof (log_events_internal silent "ERROR" source
                    (client_error_text resp)) as [I2 D2].
      destruct (client_error resp).
      * eexists (Failed resp e), _. rewrite <- !app_assoc.
        split; [reflexivity|]. split; [| intros ? H; discriminate H].
        apply (internal_app [_]); [done|]. by apply internal_app.
      * destruct (IH (S i) e ((tr0 ++ [EvDo req]
                    ++ log_events silent "WARNING" source (warning_text i e))
                    ++ [EvSleep retryDelay]))
          as (r & suf & -> & Isuf & Hresp).
        eexists r, _. rewrite <- !app_assoc. split; [reflexivity|].
        split.
        { apply (internal_app [_]); [done|]. apply internal_app; [done|].
          by apply (internal_app [_]). }
        intros resp' H. destruct (Hresp resp' H) as (k & Hk & Ek).
        exists k. split; [|done]. rewrite !count_app in Hk.
        rewrite !count_app. lia.
Qed.

Lemma makeRequestWithRetry_shape net req silent source tr0 :
  ∃ r suf, makeRequestWithRetry net req silent source tr0 = (r, tr0 ++ suf)
    ∧ internal suf
    ∧ (∀ resp, r = Responded resp →
         ∃ k, (count is_do tr0 ≤ k < count is_do (tr0 ++ suf))%nat
              ∧ net req k = Responded resp).
Proof.
  unfold makeRequestWithRetry. apply retry_loop_shape.
Qed.

(** ** The queriers: one signal, at most one message *)

Lemma log_then_send silent ty src msg urls tr :
  (bind (log_unless silent ty src msg) (λ _, send urls) tr).2
  = tr ++ log_events silent ty src msg ++ [EvSend urls].
Proof.
  unfold bind. rewrite log_unless_eq.
  unfold send, emit. simpl. by rewrite <- app_assoc.
Qed.

Lemma one_message_intro pre urls :
  internal pre → one_message ((pre ++ [EvSend urls]) ++ [EvDone]).
Proof. intros H. exists pre, urls. by rewrite <- app_assoc. Qed.

Lemma one_message_counts tr :
  one_message tr →
  count is_done tr = 1%nat ∧ last tr = Some EvDone
  ∧ length (sends tr) = 1%nat.
Proof.
  intros (pre & urls & -> & [S D]). rewrite count_app, sends_app, D, S.
  repeat split. by rewrite last_app.
Qed.

Lemma getVirusTotalURLs_trace lib net domain apiKeys apiKeyIndex silent :
  let tr := getVirusTotalURLs lib net domain apiKeys apiKeyIndex silent in
  if (length apiKeys =? 0)%nat then tr = [EvDone] else one_message tr.
Proof.
  cbv zeta. unfold getVirusTotalURLs, with_deferred_Done, mbind, G_bind.
  destruct (length apiKeys =? 0)%nat; [done|].
  destruct (NewRequest lib _) as [req|err].
  - unfold bind at 1.
    destruct (makeRequestWithRetry_shape net req silent "VT" [])
      as (r & suf & -> & I & _).
    destruct r as [resp|resp err]; rewrite log_then_send, app_assoc;
      apply one_message_intro, internal_app; try done;
      apply log_events_internal.
  - rewrite log_then_send, app_assoc.
    apply one_message_intro, internal_app; [done|]. apply log_events_internal.
Qed.

Lemma getWaybackURLs_trace lib net domain silent :
  one_message (getWaybackURLs lib net domain silent).
Proof.
  unfold getWaybackURLs, with_deferred_Done, mbind, G_bind.
  destruct (NewRequest lib _) as [req|err].
  - unfold bind at 1.
    destruct (makeRequestWithRetry_shape net req silent "Wayback" [])
      as (r & suf & -> & I & _).
    destruct r as [resp|resp err]; rewrite log_then_send, app_assoc;
      apply one_message_intro, internal_app; try done;
      apply log_events_internal.
  - rewrite log_then_send, app_assoc.
    apply one_message_intro, internal_app; [done|]. apply log_events_internal.
Qed.

Lemma getHudsonRockURLs_trace lib net domain apiKeys apiKeyIndex silent :
  one_message (getHudsonRockURLs lib net domain apiKeys apiKeyIndex silent).
Proof.
  unfold getHudsonRockURLs, with_deferred_Done, mbind, G_bind.
  destruct (NewRequest lib _) as [req|err].
  - set (warn := "Processing without API key (data may be redacted)...").
    assert (∃ req' l, (if (0 <? length apiKeys)%nat
                       then ret (Header_Add "key"
                                   (pick_key apiKeys apiKeyIndex) req)
                       else bind (log_unless silent "WARNING" "HudsonRock" warn)
                                 (λ _, ret req)) [] = (req', l) ∧ internal l)
      as (req' & l & E & Il).
    { destruct (0 <? length apiKeys)%nat.
      - by exists (Header_Add "key" (pick_key apiKeys apiKeyIndex) req), [].
      - unfold bind. rewrite log_unless_eq. unfold ret.
        eexists _, _. split; [reflexivity|]. apply log_events_internal. }
    unfold bind at 1. rewrite E. unfold bind at 1.
    destruct (makeRequestWithRetry_shape net req' silent "HudsonRock" l)
      as (r & suf & -> & I & _).
    destruct r as [resp|resp err]; rewrite log_then_send, app_assoc;
      apply one_message_intro; (apply internal_app; [by apply internal_app|]);
      apply log_events_internal.
  - rewrite log_then_send, app_assoc.
    apply one_message_intro, internal_app; [done|]. apply log_events_internal.
Qed.

Lemma otx_pages_shape lib net domain apiKeys apiKeyIndex silent fuel :
  ∀ page allUrls tr0,
    ∃ r suf,
      otx_pages fuel lib net domain apiKeys apiKeyIndex silent page allUrls tr0
      = (r, tr0 ++ suf) ∧ internal suf.
Proof.
  induction fuel as [|fuel IH]; intros page allUrls tr0; simpl.
  - exists None, []. unfold ret. by rewrite app_nil_r.
  - unfold mbind, G_bind. destruct (NewRequest lib _) as [req|err].
    + set (req' := if (0 <? length apiKeys)%nat then _ else _).
      unfold bind at 1.
      destruct (makeRequestWithRetry_shape net req' silent "OTX" tr0)
        as (r & suf & -> & I & _).
      destruct r as [resp|resp err].
      * destruct (HasNext _).
        -- destruct (IH (S page)
                       (foldl go_append allUrls
                          (URLList (unmarshal_otx lib (Body resp))))
                       (tr0 ++ suf)) as (r & suf' & -> & I').
           exists r, (suf ++ suf'). rewrite app_assoc.
           split; [done|]. by apply internal_app.
        -- unfold ret. by eexists _, suf.
      * unfold bind. rewrite log_unless_eq. unfold ret.
        eexists _, _. rewrite <- app_assoc. split; [reflexivity|].
        apply internal_app; [done|]. apply log_events_internal.
    + unfold bind. rewrite log_unless_eq. unfold ret.
      eexists _, _. split; [reflexivity|]. apply log_events_internal.
Qed.

Lemma getAlienVaultURLs_trace fuel lib net domain apiKeys apiKeyIndex silent tr :
  getAlienVaultURLs fuel lib net domain apiKeys apiKeyIndex silent = Some tr →
  one_message tr.
Proof.
  unfold getAlienVaultURLs.
  destruct (otx_pages_shape lib net domain apiKeys apiKeyIndex silent fuel
              1 None []) as (r & suf & -> & I).
  destruct r as [allUrls|]; [|done]. intros [= <-].
  unfold mbind, G_bind. rewrite log_then_send, app_assoc.
  apply one_message_intro, internal_app; [done|]. apply log_events_internal.
Qed.

(** The loop over the pages is left as soon as the responses stop
    announcing a further page. *)
Lemma otx_pages_ends lib net domain apiKeys apiKeyIndex silent N :
  pages_end lib net N →
  ∀ fuel page allUrls tr0,
    (1 ≤ fuel)%nat → (N + 1 ≤ fuel + count is_do tr0)%nat →
    (otx_pages fuel lib net domain apiKeys apiKeyIndex silent page allUrls
       tr0).1 ≠ None.
Proof.
  intros Hend. induction fuel as [|fuel IH]; intros page allUrls tr0 H1 HN;
    [lia|]. simpl. unfold mbind, G_bind.
  destruct (NewRequest lib _) as [req|err].
  - set (req' := if (0 <? length apiKeys)%nat then _ else _).
    unfold bind at 1.
    destruct (makeRequestWithRetry_shape net req' silent "OTX" tr0)
      as (r & suf & -> & I & Hr).
    destruct r as [resp|resp err].
    + destruct (HasNext _) eqn:Hnext; [|done].
      destruct (Hr resp eq_refl) as (k & Hk & Ek).
      assert (k < N)%nat as HkN.
      { destruct (decide (N ≤ k)%nat) as [Hle|]; [|lia].
        rewrite (Hend k req' resp Hle Ek) in Hnext. discriminate Hnext. }
      apply IH; lia.
    + unfold bind. by rewrite log_unless_eq.
  - unfold bind. by rewrite log_unless_eq.
Qed.

Lemma getAlienVaultURLs_returns lib net domain apiKeys apiKeyIndex silent N :
  pages_end lib net N →
  ∃ tr, getAlienVaultURLs (S N) lib net domain apiKeys apiKeyIndex silent
        = Some tr.
Proof.
  intros Hend. unfold getAlienVaultURLs.
  pose proof (otx_pages_ends lib net domain apiKeys apiKeyIndex silent N Hend
                (S N) 1 None []) as H.
  destruct (otx_pages _ _ _ _ _ _ _ _ _ _) as [[allUrls|] tr].
  - eauto.
  - exfalso. apply H; [lia | simpl; lia | done].
Qed.

(** More fuel changes nothing once the loop has been left. *)
Lemma otx_pages_fuel lib net domain apiKeys apiKeyIndex silent fuel :
  ∀ page allUrls tr0 r tr,
    otx_pages fuel lib net domain apiKeys apiKeyIndex silent page allUrls tr0
    = (Some r, tr) →
    otx_pages (S fuel) lib net domain apiKeys apiKeyIndex silent page allUrls
      tr0 = (Some r, tr).
Proof.
  induction fuel as [|fuel IH]; intros page allUrls tr0 r tr; [done|].
  intros H. simpl in H. unfold mbind, G_bind in H.
  change (otx_pages (S (S fuel)) lib net domain apiKeys apiKeyIndex silent
            page allUrls tr0)
    with (match NewRequest lib
                  ("https://otx.alienvault.com/api/v1/indicators/domain/"
                   +:+ domain +:+ "/url_list?limit=500&page=" +:+ pretty page)
          with
          | inr err =>
              log_unless silent "ERROR" "OTX"
                ("Failed to create request: " +:+ err) ;;
              ret (Some allUrls)
          | inl req =>
              let req :=
                if (0 <? length apiKeys)%nat
                then Header_Add "X-OTX-API-KEY" (pick_key apiKeys apiKeyIndex) req
                else req in
              r ← makeRequestWithRetry net req silent "OTX";
              match r with
              | Failed _ err =>
                  log_unless silent "ERROR" "OTX" err ;;
                  ret (Some allUrls)
              | Responded resp =>
                  let r := unmarshal_otx lib (Body resp) in
                  let allUrls := foldl go_append allUrls (URLList r) in
                  if HasNext r then
                    otx_pages (S fuel) lib net domain apiKeys apiKeyIndex silent
                      (S page) allUrls
                  else ret (Some allUrls)
              end
          end tr0).
  unfold mbind, G_bind.
  destruct (NewRequest lib _) as [req|err]; [|done].
  cbv zeta in *. unfold bind at 1. unfold bind at 1 in H.
  destruct (makeRequestWithRetry _ _ _ _ _) as [[resp|resp err] tr1]; [|done].
  destruct (HasNext _); [|done]. by apply IH.
Qed.

(** C4, as stated, fails for VirusTotal without keys: the goroutine
    signals the wait-group and returns without a message on the results
    channel. *)
Lemma C4_counterexample :
  getVirusTotalURLs example_lib (always "") "example.com" [] 0 false
  = [EvDone]
  ∧ sends (getVirusTotalURLs example_lib (always "") "example.com" [] 0 false)
    = [].
Proof. split; vm_compute; reflexivity. Qed.

(** C4 (amended): every started querier that returns signals the
    wait-group exactly once, as the last thing it does, on every path; it
    sends exactly one message on the results channel, a URL list or the
    absent marker, except that the VirusTotal querier with an empty key list
    sends none.  VirusTotal, Wayback and HudsonRock always return; OTX
    returns once the responses stop announcing a further page. *)
Theorem C4_signal_and_message (lib : Lib) (net : Net) (domain : string)
    (apiKeys : list string) (apiKeyIndex : nat) (silent : bool) :
  let vt := getVirusTotalURLs lib net domain apiKeys apiKeyIndex silent in
  let wb := getWaybackURLs lib net domain silent in
  let hr := getHudsonRockURLs lib net domain apiKeys apiKeyIndex silent in
  (count is_done vt = 1%nat ∧ last vt = Some EvDone
   ∧ length (sends vt) = if (length apiKeys =? 0)%nat then 0%nat else 1%nat)
  ∧ (count is_done wb = 1%nat ∧ last wb = Some EvDone
     ∧ length (sends wb) = 1%nat)
  ∧ (count is_done hr = 1%nat ∧ last hr = Some EvDone
     ∧ length (sends hr) = 1%nat)
  ∧ (∀ fuel tr,
       getAlienVaultURLs fuel lib net domain apiKeys apiKeyIndex silent
       = Some tr →
       count is_done tr = 1%nat ∧ last tr = Some EvDone
       ∧ length (sends tr) = 1%nat)
  ∧ (∀ N, pages_end lib net N →
       ∃ tr, getAlienVaultURLs (S N) lib net domain apiKeys apiKeyIndex silent
             = Some tr).
Proof.
  cbv zeta. split; [|split; [|split; [|split]]].
  - pose proof (getVirusTotalURLs_trace lib net domain apiKeys apiKeyIndex
                  silent) as H. cbv zeta in H.
    destruct (length apiKeys =? 0)%nat; [by rewrite H|].
    by apply one_message_counts.
  - apply one_message_counts, getWaybackURLs_trace.
  - apply one_message_counts, getHudsonRockURLs_trace.
  - intros fuel tr H. by apply getAlienVaultURLs_trace, one_message_counts in H.
  - intros N. apply getAlienVaultURLs_returns.
Qed.

Lemma C4_witness :
  ∃ tr, getAlienVaultURLs 1 example_lib (always "http://a.com/x")
          "example.com" ["key"] 0 false = Some tr
        ∧ count is_done tr = 1%nat ∧ length (sends tr) = 1%nat.
Proof.
  destruct (C4_signal_and_message example_lib (always "http://a.com/x")
              "example.com" ["key"] 0 false) as (_ & _ & _ & Hone & Hret).
  destruct (Hret 0%nat) as [tr E].
  - intros k req resp _ [= <-]. reflexivity.
  - exists tr. split; [exact E|].
    destruct (Hone 1%nat tr E) as (D & _ & S). by split.
Defined.

(** C5 fails on the code (the claim is what the three other queriers do).
    When the second page of OTX cannot be fetched, the querier logs the
    ERROR, then a SUCCESS with the count of the first page, and sends the
    list gathered so far; when the request cannot even be built, it logs an
    ERROR and then the SUCCESS of zero URLs. *)
Theorem C5_otx_failure_reports_success :
  (∃ tr, getAlienVaultURLs 5 example_lib second_page_down "example.com" [] 0
           false = Some tr
         ∧ sends tr = [Some ["http://a.com/x"]]
         ∧ map (λ m, (Type_ m, Message m)) (logs tr)
           = [("WARNING",
               "Request failed (attempt 1/3): connection refused. Retrying in 5s...");
              ("WARNING",
               "Request failed (attempt 2/3): connection refused. Retrying in 5s...");
              ("WARNING",
               "Request failed (attempt 3/3): connection refused. Retrying in 5s...");
              ("ERROR", "request failed after 3 attempts: connection refused");
              ("SUCCESS", "Found 1 URLs")])
  ∧ getAlienVaultURLs 5 no_request_lib (always "") "example.com" [] 0 false
    = Some [EvLog {| Type_ := "ERROR"; Source := "OTX";
                     Message := "Failed to create request: invalid URL" |};
            EvLog {| Type_ := "SUCCESS"; Source := "OTX";
                     Message := "Found 0 URLs" |};
            EvSend None; EvDone].
Proof.
  split; [eexists; split; [vm_compute; reflexivity|]|];
    repeat split; vm_compute; reflexivity.
Qed.

(** C1 fails on the code.  The archive answers with an empty body: the
    Wayback querier logs the SUCCESS of zero URLs and sends the [nil] slice,
    which is the absent marker, and the domain, whose only enabled source
    succeeded, is appended to the failed domains. *)
Theorem C1_empty_success_is_absent :
  getWaybackURLs example_lib (always "") "example.com" false
  = [EvDo {| Method := "GET";
             URL := "https://web.archive.org/cdx/search/cdx?url=*.example.com/*&output=text&fl=original&collapse=urlkey";
             Header := [] |};
     EvLog {| Type_ := "SUCCESS"; Source := "Wayback";
              Message := "Found 0 URLs" |};
     EvSend None; EvDone]
  ∧ drain [None] false ∅ = (false, ∅)
  ∧ ∃ st, run 1 wayback_only_empty ["example.com"] = Some st
          ∧ failedDomains st = ["example.com"]
          ∧ writes (outputs st)
            = [("failed_domains.txt", ["example.com"]); ("endpoints.txt", [])].
Proof.
  split; [vm_compute; reflexivity|]. split; [vm_compute; reflexivity|].
  eexists. split; [vm_compute; reflexivity|]. split; vm_compute; reflexivity.
Qed.

(** ** Draining the results channel *)

Lemma foldl_insert_url (l : list string) :
  ∀ set : gset string,
    foldl (λ set u, insert_url u set) set l = set ∪ list_to_set l.
Proof.
  induction l as [|u l IH]; intros set; simpl.
  - set_solver.
  - rewrite IH. unfold insert_url. set_solver.
Qed.

Lemma urls_of_app (m1 m2 : list slice) :
  urls_of (m1 ++ m2) = urls_of m1 ∪ urls_of m2.
Proof.
  unfold urls_of. rewrite map_app, concat_app, list_to_set_app_L. done.
Qed.

Lemma drain_eq (msgs : list slice) :
  ∀ ok set, drain msgs ok set = (ok || some_present msgs, set ∪ urls_of msgs).
Proof.
  unfold drain.
  induction msgs as [|m msgs IH]; intros ok set; simpl.
  - rewrite orb_false_r. f_equal. unfold urls_of. set_solver.
  - unfold drain_one at 2. simpl. rewrite IH, foldl_insert_url. f_equal.
    + destruct (is_nil m), ok; done.
    + change (m :: msgs) with ([m] ++ msgs). rewrite urls_of_app.
      unfold urls_of at 2. simpl. rewrite app_nil_r. set_solver.
Qed.

(** The order in which the messages arrive does not matter. *)
Lemma drain_Permutation (m1 m2 : list slice) ok set :
  m1 ≡ₚ m2 → drain m1 ok set = drain m2 ok set.
Proof.
  intros H. rewrite !drain_eq. f_equal.
  - f_equal. unfold some_present.
    apply eq_true_iff_eq. rewrite !existsb_exists.
    split; intros (x & Hx & Hp); exists x; split; try done;
      apply list_elem_of_In; apply list_elem_of_In in Hx;
      [by rewrite <- H | by rewrite H].
  - f_equal. unfold urls_of. apply set_eq. intros u.
    rewrite !elem_of_list_to_set. by rewrite H.
Qed.

Lemma some_present_spec (msgs : list slice) :
  some_present msgs = true ↔ ∃ urls, Some urls ∈ msgs.
Proof.
  unfold some_present. rewrite existsb_exists. split.
  - intros ([urls|] & Hin & Hp); [|done]. exists urls.
    by apply list_elem_of_In.
  - intros (urls & Hin). exists (Some urls). split; [|done].
    by apply list_elem_of_In.
Qed.

(** ** One domain *)

Lemma processDomain_spec fuel p i n domain st st' :
  processDomain fuel p i n domain st = Some st' →
  ∃ traces,
    mapM (querier fuel (lib p) (world p i) (config p) domain
            (apiKeyIndex st) (silent p)) (dispatched (excludedMap p))
    = Some traces
    ∧ finalUrlSet st' = finalUrlSet st ∪ urls_of (sends (concat traces))
    ∧ failedDomains st'
      = (if domain_failed (some_present (sends (concat traces)))
              (length (dispatched (excludedMap p)))
         then failedDomains st ++ [domain] else failedDomains st)
    ∧ received st' = received st ++ sends (concat traces)
    ∧ apiKeyIndex st' = S (apiKeyIndex st)
    ∧ exited st' = exited st
    ∧ stdout (outputs st') = stdout (outputs st)
    ∧ writes (outputs st') = writes (outputs st).
Proof.
  unfold processDomain. intros H.
  destruct (mapM _ _) as [traces|] eqn:E; [|done]. simpl in H.
  rewrite drain_eq in H. injection H as <-. exists traces. simpl.
  repeat split.
  - unfold stdout. rewrite !omap_app.
    assert (∀ b l, omap (λ o, match o with OutPrint l => Some l | _ => None end)
                     (log_when b l) = []) as Hlog by (by intros []).
    rewrite !Hlog. simpl.
    assert (omap (λ o, match o with OutPrint l => Some l | _ => None end)
              (map (λ m, OutLog (LogSource m)) (logs (concat traces))) = [])
      as -> by (by induction (logs (concat traces))).
    destruct (S i <? n)%nat; simpl; rewrite ?omap_app, ?Hlog, ?app_nil_r; done.
  - unfold writes. rewrite !omap_app.
    assert (∀ b l, omap (λ o, match o with OutWrite f l => Some (f, l) | _ => None end)
                     (log_when b l) = []) as Hlog by (by intros []).
    rewrite !Hlog. simpl.
    assert (omap (λ o, match o with OutWrite f l => Some (f, l) | _ => None end)
              (map (λ m, OutLog (LogSource m)) (logs (concat traces))) = [])
      as -> by (by induction (logs (concat traces))).
    destruct (S i <? n)%nat; simpl; rewrite ?omap_app, ?Hlog, ?app_nil_r; done.
Qed.

Lemma elem_of_concat {A} (x : A) (ls : list (list A)) :
  x ∈ concat ls ↔ ∃ l, x ∈ l ∧ l ∈ ls.
Proof.
  rewrite list_elem_of_In, in_concat. split.
  - intros (l & Hl & Hx). exists l. by rewrite !list_elem_of_In.
  - intros (l & Hx & Hl). exists l. by rewrite <- !list_elem_of_In.
Qed.

(** C3: for every processed domain, the domain is appended to the failed
    domains if and only if at least one source was dispatched for it
    ([runCount > 0]) and no dispatched source produced a result that is not
    absent; otherwise the list is unchanged.  In particular a domain with no
    enabled source is never added. *)
Theorem C3_failed_domain (fuel : nat) (p : Params) (i n : nat)
    (domain : string) (st st' : Main) :
  processDomain fuel p i n domain st = Some st' →
  let srcs := dispatched (excludedMap p) in
  (failedDomains st' = failedDomains st ++ [domain]
   ↔ (0 < length srcs)%nat
     ∧ ¬ ∃ s, s ∈ srcs ∧ produced_result fuel p i domain st s)
  ∧ (failedDomains st' = failedDomains st
     ∨ failedDomains st' = failedDomains st ++ [domain])
  ∧ (srcs = [] → failedDomains st' = failedDomains st).
Proof.
  intros H. cbv zeta.
  apply processDomain_spec in H as (traces & Hm & _ & Hf & _).
  rewrite Hf. clear Hf.
  assert (some_present (sends (concat traces)) = true
          ↔ ∃ s, s ∈ dispatched (excludedMap p)
                 ∧ produced_result fuel p i domain st s) as Hsome.
  { rewrite some_present_spec. apply mapM_Some in Hm.
    split.
    - intros (urls & Hin). unfold sends in Hin.
      apply list_elem_of_omap in Hin as (e & He & Hu).
      apply elem_of_concat in He as (tr & He & Htr).
      apply list_elem_of_lookup in Htr as (j & Hj).
      destruct (Forall2_lookup_r _ _ _ _ _ Hm Hj) as (s & Hs & Hq).
      exists s. split; [by eapply list_elem_of_lookup_2|].
      exists tr, urls. split; [done|]. unfold sends.
      apply list_elem_of_omap. eauto.
    - intros (s & Hs & tr & urls & Hq & Hin).
      apply list_elem_of_lookup in Hs as (j & Hj).
      destruct (Forall2_lookup_l _ _ _ _ _ Hm Hj) as (tr' & Htr & Hq').
      rewrite Hq in Hq'. injection Hq' as <-.
      exists urls. unfold sends in *.
      apply list_elem_of_omap in Hin as (e & He & Hu).
      apply list_elem_of_omap. exists e. split; [|done].
      apply elem_of_concat. exists tr. split; [done|].
      by eapply list_elem_of_lookup_2. }
  unfold domain_failed.
  assert (∀ l : list string, l ≠ l ++ [domain]) as Hne.
  { intros l E. apply (f_equal length) in E. rewrite length_app in E.
    simpl in E. lia. }
  destruct (some_present (sends (concat traces))) eqn:Es; simpl.
  - split; [|split]; [| by left | done].
    split; [intros E; by apply Hne in E|].
    intros [_ Hno]. exfalso. apply Hno. by apply Hsome.
  - destruct (dispatched (excludedMap p)) as [|s srcs] eqn:Ed; simpl.
    + split; [|split]; [| by left | done].
      split; [intros E; by apply Hne in E | intros [Hlt _]; lia].
    + split; [|split]; [| by right | done].
      split; [|done]. intros _. split; [lia|].
      intros Hex. apply Hsome in Hex. discriminate Hex.
Qed.

Lemma C3_witness :
  ∃ st', processDomain 1 wayback_only_empty 0 1 "example.com" initial
         = Some st'
         ∧ failedDomains st' = ["example.com"].
Proof.
  eexists. split; [vm_compute; reflexivity|].
  eapply (proj2 (proj1 (C3_failed_domain 1 wayback_only_empty 0 1
                          "example.com" initial _ eq_refl))).
  split; [vm_compute; lia|].
  intros (s & Hs & tr & urls & Hq & Hin).
  assert (s = Wayback) as ->.
  { vm_compute in Hs. apply list_elem_of_In in Hs. destruct Hs as [<-|[]].
    done. }
  vm_compute in Hq. injection Hq as <-. vm_compute in Hin.
  apply list_elem_of_In in Hin. destruct Hin as [Hin|[]]. discriminate Hin.
Defined.

(** ** The driver: what a line changes *)

Lemma stdout_app o1 o2 : stdout (o1 ++ o2) = stdout o1 ++ stdout o2.
Proof. apply omap_app. Qed.

Lemma writes_app o1 o2 : writes (o1 ++ o2) = writes o1 ++ writes o2.
Proof. apply omap_app. Qed.

Lemma stdout_log_when b l : stdout (log_when b l) = [].
Proof. by destruct b. Qed.

Lemma writes_log_when b l : writes (log_when b l) = [].
Proof. by destruct b. Qed.

Lemma stdout_prints l : stdout (map OutPrint l) = l.
Proof. induction l as [|x l IH]; simpl; [done|]. unfold stdout in *. simpl. by rewrite IH. Qed.

Lemma writes_prints l : writes (map OutPrint l) = [].
Proof. by induction l. Qed.

Ltac outs :=
  repeat first
    [ rewrite stdout_app | rewrite writes_app | rewrite stdout_log_when
    | rewrite writes_log_when | rewrite stdout_prints | rewrite writes_prints
    | rewrite app_nil_r | rewrite app_nil_l ].

Lemma extends_refl st : extends st st.
Proof. by split. Qed.

Lemma extends_trans st1 st2 st3 :
  extends st1 st2 → extends st2 st3 → extends st1 st3.
Proof.
  intros [S1 U1 O1 W1 E1 X1] [S2 U2 O2 W2 E2 X2]. split.
  - set_solver.
  - auto.
  - congruence.
  - congruence.
  - congruence.
  - intros Hx. assert (st2 = st1) as -> by auto. auto.
Qed.

Lemma extends_log b l st : exited st = false → extends st (out (log_when b l) st).
Proof. intros H. split; simpl; outs; try done. congruence. Qed.

Lemma process_line_extends fuel p n st i raw st' :
  process_line fuel p n st i raw = Some st' → extends st st'.
Proof.
  unfold process_line. destruct (exited st) eqn:Ex.
  { intros [= <-]. apply extends_refl. }
  case_bool_decide as Ht; [intros [= <-]; apply extends_refl|].
  case_bool_decide as Hc; [intros [= <-]; by apply extends_log|].
  destruct (isValidDomain _); simpl; [|intros [= <-]; by apply extends_log].
  intros Hp. apply processDomain_spec in Hp
    as (traces & _ & Hs & _ & Hr & _ & He & Ho & Hw).
  split; try done.
  - rewrite Hs. set_solver.
  - intros E. by rewrite Hs, Hr, urls_of_app, E.
  - congruence.
Qed.

Lemma run_lines_extends fuel p n domains :
  ∀ i st st', run_lines fuel p n i domains st = Some st' → extends st st'.
Proof.
  induction domains as [|raw rest IH]; intros i st st'; simpl.
  - intros [= <-]. apply extends_refl.
  - destruct (process_line fuel p n st i raw) as [st1|] eqn:E; [|done].
    simpl. intros H. eapply extends_trans.
    + by eapply process_line_extends.
    + by eapply IH.
Qed.

Lemma run_lines_app fuel p n d1 :
  ∀ d2 i st,
    run_lines fuel p n i (d1 ++ d2) st
    = run_lines fuel p n i d1 st ≫= run_lines fuel p n (i + length d1) d2.
Proof.
  induction d1 as [|raw d1 IH]; intros d2 i st; simpl.
  - by rewrite Nat.add_0_r.
  - destruct (process_line fuel p n st i raw) as [st1|]; [|done]. simpl.
    rewrite IH. by replace (i + S (length d1))%nat with (S i + length d1)%nat by lia.
Qed.


Lemma start_state p domains :
  finalUrlSet (start p domains) = ∅
  ∧ received (start p domains) = []
  ∧ failedDomains (start p domains) = []
  ∧ stdout (outputs (start p domains)) = (if silent p then [] else [banner])
  ∧ writes (outputs (start p domains)) = []
  ∧ exited (start p domains) = bool_decide (domains = []).
Proof.
  unfold start, prelude.
  destruct domains as [|raw rest]; destruct (silent p); simpl; try done;
    by case_bool_decide.
Qed.

(** ** The order of the keys *)

(** Whatever order the iteration takes, the list holds the keys of the
    set, each once. *)
Lemma flatten_Permutation order set : flatten order set ≡ₚ elements set.
Proof.
  unfold flatten.
  destruct (permutations (elements set) !! _) as [l|] eqn:E; [|done].
  symmetry. apply permutations_Permutation. by eapply list_elem_of_lookup_2.
Qed.

Lemma NoDup_flatten order set : NoDup (flatten order set).
Proof. rewrite flatten_Permutation. apply NoDup_elements. Qed.

Lemma elem_of_flatten order set u : u ∈ flatten order set ↔ u ∈ set.
Proof. rewrite flatten_Permutation. apply elem_of_elements. Qed.

Lemma length_flatten order set : length (flatten order set) = size set.
Proof. by rewrite flatten_Permutation. Qed.

Lemma flatten_empty order : flatten order ∅ = [].
Proof.
  apply Permutation_nil_r. rewrite flatten_Permutation.
  by rewrite elements_empty.
Qed.

(** Every order of the keys is that of some iteration. *)
Lemma flatten_any_order set l :
  l ≡ₚ elements set → ∃ order, flatten order set = l.
Proof.
  intros H. symmetry in H. apply permutations_Permutation in H.
  apply list_elem_of_lookup in H as [i Hi]. exists i. unfold flatten.
  rewrite Nat.mod_small by (by eapply lookup_lt_Some). by rewrite Hi.
Qed.


(** ** The end of the run and the interrupt *)

Lemma perform_keeps o st :
  finalUrlSet (perform o st) = finalUrlSet st
  ∧ received (perform o st) = received st
  ∧ failedDomains (perform o st) = failedDomains st.
Proof. unfold perform. by destruct (exited st). Qed.

Lemma perform_exited o st : exited st = true → perform o st = st.
Proof. intros H. unfold perform. by rewrite H. Qed.

Lemma writes_cons_write f l o : writes (OutWrite f l :: o) = (f, l) :: writes o.
Proof. done. Qed.


Lemma existsb_is_exit_app o1 o2 :
  existsb is_exit (o1 ++ o2) = existsb is_exit o1 || existsb is_exit o2.
Proof. apply existsb_app. Qed.

Lemma exit_log_when b l : existsb is_exit (log_when b l) = false.
Proof. by destruct b. Qed.

(** What [save_failed] puts before the rest: the write of the failed
    domains if there are some, or a fatal error that cuts the rest off. *)
Lemma save_failed_cases p st k :
  (write_error p failed_path = None ∨ failedDomains st = []) ∧
    stdout (save_failed p st k) = stdout k
    ∧ writes (save_failed p st k) = failed_write st ++ writes k
    ∧ existsb is_exit (save_failed p st k) = existsb is_exit k
  ∨ (write_error p failed_path ≠ None ∧ failedDomains st ≠ []) ∧
    stdout (save_failed p st k) = []
    ∧ writes (save_failed p st k) = []
    ∧ existsb is_exit (save_failed p st k) = true.
Proof.
  unfold save_failed, failed_write, write_or_die.
  destruct (failedDomains st) as [|d ds] eqn:Ef.
  - left. cbn [length Nat.ltb Nat.leb]. auto.
  - cbn [length Nat.ltb Nat.leb].
    destruct (write_error p failed_path) as [e|].
    + right. rewrite stdout_app, writes_app, existsb_is_exit_app,
        stdout_log_when, writes_log_when, exit_log_when. done.
    + left. rewrite stdout_app, writes_app, existsb_is_exit_app,
        stdout_log_when, writes_log_when, exit_log_when. auto.
Qed.

Lemma finish_exited p st : exited st = true → finish p st = st.
Proof. apply perform_exited. Qed.

(** Normal completion in silent mode: the URLs go to standard output, and
    the only file written is that of the failed domains. *)
Lemma finish_silent p st :
  silent p = true → exited st = false → exited (finish p st) = false →
  stdout (outputs (finish p st))
  = stdout (outputs st) ++ flatten (iteration p) (finalUrlSet st)
  ∧ writes (outputs (finish p st)) = writes (outputs st) ++ failed_write st.
Proof.
  intros Hs Ex. unfold finish, perform, finish_outputs. rewrite Ex, Hs.
  cbn [exited outputs]. rewrite stdout_app, writes_app.
  destruct (save_failed_cases p st
              (map OutPrint (flatten (iteration p) (finalUrlSet st))))
    as [(_ & -> & -> & ->)|(_ & _ & _ & ->)]; [|done].
  by rewrite stdout_prints, writes_prints, app_nil_r.
Qed.

(** Normal completion otherwise: nothing on standard output, and the last
    write is that of the URLs to the output file. *)
Lemma finish_loud p st :
  silent p = false → exited st = false → exited (finish p st) = false →
  stdout (outputs (finish p st)) = stdout (outputs st)
  ∧ writes (outputs (finish p st))
    = writes (outputs st) ++ failed_write st
      ++ [(outputFile p, flatten (iteration p) (finalUrlSet st))].
Proof.
  intros Hs Ex. unfold finish, perform, finish_outputs. rewrite Ex, Hs.
  cbn [exited outputs]. rewrite stdout_app, writes_app.
  destruct (save_failed_cases p st
              (write_or_die p (outputFile p)
                 (flatten (iteration p) (finalUrlSet st))
                 "Failed to write URLs: "
                 [OutLog (LogAllDone
                            (length (flatten (iteration p) (finalUrlSet st)))
                            (outputFile p))]))
    as [(_ & -> & -> & ->)|(_ & _ & _ & ->)]; [|done].
  unfold write_or_die. destruct (write_error p (outputFile p)); [done|].
  intros _. by rewrite app_nil_r.
Qed.


Lemma after_lines_state fuel p k domains st_k :
  after_lines fuel p k domains = Some st_k →
  extends (start p domains) st_k
  ∧ finalUrlSet st_k = urls_of (received st_k)
  ∧ stdout (outputs st_k) = (if silent p then [] else [banner])
  ∧ writes (outputs st_k) = []
  ∧ exited st_k = bool_decide (domains = []).
Proof.
  unfold after_lines. intros H. apply run_lines_extends in H.
  destruct (start_state p domains) as (S0 & R0 & _ & O0 & W0 & X0).
  split; [done|]. destruct H as [HS HU HO HW HX _].
  repeat split; try congruence. apply HU. by rewrite S0, R0.
Qed.

Lemma run_split fuel p k domains st :
  run_lines fuel p (length domains) 0 domains (start p domains) = Some st →
  ∃ st_k, after_lines fuel p k domains = Some st_k ∧ extends st_k st.
Proof.
  unfold after_lines. rewrite <- (take_drop k domains) at 2.
  rewrite run_lines_app.
  destruct (run_lines fuel p (length domains) 0 (take k domains) _)
    as [st_k|]; [|done].
  simpl. intros H. exists st_k. split; [done|].
  by eapply run_lines_extends.
Qed.

Lemma files_after_writes (file_of : string → string) (outs : list output) :
  ∀ fs, files_after file_of outs fs
        = foldl (λ fs w, <[file_of w.1 := w.2]> fs) fs (writes outs).
Proof.
  unfold files_after, writes.
  induction outs as [|o outs IH]; intros fs; simpl; [done|].
  rewrite IH. by destruct o.
Qed.

(** ** The goroutines of one domain: what every schedule preserves *)

Lemma no_live_all_returned (gs : list (list event)) :
  length (List.filter live gs) = 0%nat → Forall (λ g, g = []) gs.
Proof.
  induction gs as [|g gs IH]; simpl; [constructor|].
  destruct g; simpl; [|done]. intros H. constructor; auto.
Qed.

Lemma live_insert (gs : list (list event)) :
  ∀ j g g', gs !! j = Some g → live g = true →
    (length (List.filter live (<[j := g']> gs))
     + (if live g' then 0 else 1) = length (List.filter live gs))%nat.
Proof.
  induction gs as [|g0 gs IH]; intros j g g' Hj Hl; [done|].
  destruct j as [|j]; simpl in *.
  - injection Hj as ->. rewrite Hl. destruct (live g'); simpl; lia.
  - specialize (IH j g g' Hj Hl). destruct (live g0); simpl; lia.
Qed.

Lemma ends_with_Done_step e rest :
  ends_with_Done (e :: rest) →
  if is_done e then rest = [] else ends_with_Done rest.
Proof.
  intros (body & E & D). destruct body as [|e' body]; simpl in E.
  - injection E as -> ->. done.
  - injection E as -> ->. unfold count in D. simpl in D.
    destruct (is_done e'); [done|]. by exists body.
Qed.

Lemma ends_with_Done_live g : ends_with_Done g → live g = true.
Proof. intros (body & -> & _). by destruct body. Qed.

Lemma one_message_ends_with_Done tr : one_message tr → ends_with_Done tr.
Proof.
  intros (pre & urls & -> & [_ D]). exists (pre ++ [EvSend urls]).
  split; [by rewrite <- app_assoc|]. by rewrite count_app, D.
Qed.

Lemma querier_ends_with_Done fuel lib nets config domain idx silent s tr :
  querier fuel lib nets config domain idx silent s = Some tr →
  ends_with_Done tr.
Proof.
  destruct s; simpl.
  - intros [= <-].
    pose proof (getVirusTotalURLs_trace lib (nets VT) domain
                  (VirusTotalKeys config) idx silent) as H. cbv zeta in H.
    destruct (length (VirusTotalKeys config) =? 0)%nat.
    + rewrite H. by exists [].
    + by apply one_message_ends_with_Done.
  - intros H. by apply getAlienVaultURLs_trace, one_message_ends_with_Done in H.
  - intros [= <-]. apply one_message_ends_with_Done, getWaybackURLs_trace.
  - intros [= <-]. apply one_message_ends_with_Done, getHudsonRockURLs_trace.
Qed.


Section MachineInv.
Import Machine.

Variable ex : gmap string bool.
Variable prog : source → list event.
Variable set0 : gset string.
Hypothesis prog_ends :
  ∀ s, excluded ex (source_key s) = false → ends_with_Done (prog s).

Lemma Inv_main_step st st' :
  Inv st → main_step ex prog st = Some st' → Inv st'.
Proof.
  intros [Iwf Iwg Ilw Iu Il Ij Ic Id Ir]. unfold main_step.
  destruct (at_ st) as [[|s rest]| | | | | | |] eqn:Hpc; simpl in *.
  - intros [= <-]. destruct (runCount st =? 0)%nat eqn:E; inv_fields.
    intros _. apply Nat.eqb_eq in E. rewrite E in Ir.
    destruct (goroutines st); [|done]. by rewrite Iwg.
  - destruct (excluded ex (source_key s)) eqn:Ex; intros [= <-]; inv_fields.
    all: rewrite ?List.filter_app, ?length_app; simpl;
      rewrite ?(ends_with_Done_live _ (prog_ends s Ex)); simpl; try lia.
    apply Forall_app. split; [done|]. constructor; [right; auto|constructor].
  - destruct (wg st =? 0)%nat eqn:E; [|done]. intros [= <-].
    apply Nat.eqb_eq in E. inv_fields.
  - intros [= <-]. inv_fields.
  - intros [= <-]. inv_fields.
    intros Hc. destruct (Ic Hc) as [Hcl _]. congruence.
  - destruct (logWg st =? 0)%nat eqn:E; [|done]. intros [= <-].
    apply Nat.eqb_eq in E. inv_fields.
    intros _. destruct (consumer st); [lia|done].
  - destruct (urlChannel st) as [|urls rest].
    + destruct (urlClosed st) eqn:Hcl; [|done]. intros [= <-]. inv_fields.
    + intros [= <-]. inv_fields.
  - intros [= <-]. inv_fields.
  - done.
Qed.

Lemma Inv_querier_step j st st' :
  Inv st → querier_step j st = Some st' → Inv st'.
Proof.
  intros [Iwf Iwg Ilw Iu Il Ij Ic Id Ir]. unfold querier_step.
  destruct (goroutines st !! j) as [[|e rest]|] eqn:Hj; [done| |done].
  assert (ends_with_Done (e :: rest)) as Hg.
  { destruct (proj1 (Forall_lookup _ _) Iwf j _ Hj) as [?|?]; done. }
  pose proof (ends_with_Done_step _ _ Hg) as Hstep.
  pose proof (live_insert _ j _ rest Hj eq_refl) as Hlive.
  assert (joined_at (at_ st) = false) as Hnj.
  { destruct (joined_at (at_ st)) eqn:E; [|done].
    rewrite (Ij eq_refl) in Iwg. symmetry in Iwg.
    apply no_live_all_returned in Iwg.
    pose proof (proj1 (Forall_lookup _ _) Iwg j _ Hj) as Hnil.
    discriminate Hnil. }
  assert (url_closed_at (at_ st) = false ∧ log_closed_at (at_ st) = false
          ∧ drained_at (at_ st) = false) as (Hu & Hl & Hd).
  { by destruct (at_ st). }
  assert (consumer st = true) as Hc.
  { destruct (consumer st) eqn:E; [done|]. destruct (Ic eq_refl). congruence. }
  assert (Forall (λ g, g = [] ∨ ends_with_Done g) (<[j := rest]> (goroutines st)))
    as Hwf'.
  { apply Forall_insert; [done|]. destruct (is_done e); auto. }
  destruct e; simpl in Hstep.
  - intros [= <-]. rewrite (ends_with_Done_live _ Hstep) in Hlive.
    split; simpl; rewrite ?length_insert; try done; try lia.
  - intros [= <-]. rewrite (ends_with_Done_live _ Hstep) in Hlive.
    split; simpl; rewrite ?length_insert; try done; try lia.
  - destruct (logClosed st || _); [done|]. intros [= <-].
    rewrite (ends_with_Done_live _ Hstep) in Hlive.
    split; simpl; rewrite ?length_insert; try done; try lia; try congruence.
  - destruct (urlClosed st || _); [done|]. intros [= <-].
    rewrite (ends_with_Done_live _ Hstep) in Hlive.
    split; simpl; rewrite ?length_insert; try done; try lia; try congruence.
  - destruct (wg st =? 0)%nat eqn:E; [done|]. intros [= <-]. subst rest.
    simpl in Hlive.
    split; simpl; rewrite ?length_insert; try done; try lia; try congruence.
Qed.

Lemma Inv_consumer_step st st' :
  Inv st → consumer_step st = Some st' → Inv st'.
Proof.
  intros [Iwf Iwg Ilw Iu Il Ij Ic Id Ir]. unfold consumer_step.
  destruct (consumer st) eqn:Hc; [|done].
  assert (drained_at (at_ st) = false) as Hd.
  { destruct (drained_at (at_ st)); [|done]. by specialize (Id eq_refl). }
  destruct (logChan st) as [|m rest] eqn:Hl.
  - destruct (logClosed st) eqn:Hcl; [|done]. intros [= <-].
    split; simpl; try done; try lia; try congruence.
  - intros [= <-]. split; simpl; rewrite ?Hc; try done; try congruence.
Qed.

Lemma Inv_exec sched :
  ∀ st st', Inv st → exec ex prog sched st = Some st' → Inv st'.
Proof.
  induction sched as [|l sched IH]; intros st st' I; simpl.
  - by intros [= <-].
  - destruct (fire ex prog l st) as [st1|] eqn:E; [|done]. simpl.
    apply IH. destruct l; simpl in E.
    + by eapply Inv_main_step.
    + by eapply Inv_querier_step.
    + by eapply Inv_consumer_step.
Qed.

Lemma Inv_init : Inv (init set0).
Proof. by split. Qed.

(** Whenever the orchestrator is about to read from the results channel or
    to decide, every started querier has returned, both channels are
    closed, the log channel is empty and the log consumer has returned. *)
Lemma drain_after_logs sched st :
  exec ex prog sched (init set0) = Some st →
  reads_or_decides st = true →
  Forall (λ g, g = []) (goroutines st) ∧ wg st = 0%nat
  ∧ urlClosed st = true ∧ logClosed st = true
  ∧ logChan st = [] ∧ consumer st = false ∧ logWg st = 0%nat.
Proof.
  intros H Hr. apply Inv_exec in H; [|apply Inv_init].
  destruct H as [Iwf Iwg Ilw Iu Il Ij Ic Id Ir]. unfold reads_or_decides in Hr.
  assert (joined_at (at_ st) = true ∧ drained_at (at_ st) = true
          ∧ url_closed_at (at_ st) = true ∧ log_closed_at (at_ st) = true)
    as (Hj & Hd & Hu & Hl) by (by destruct (at_ st)).
  specialize (Ij Hj). specialize (Id Hd). destruct (Ic Id) as [_ Hlc].
  rewrite Id in Ilw. rewrite Ij in Iwg. symmetry in Iwg.
  repeat split; try congruence. by apply no_live_all_returned.
Qed.

(** The orchestrator takes from the results channel, updates the variables
    of the drain loop or settles the failure nowhere else. *)
Lemma reads_only_there st st' :
  main_step ex prog st = Some st' →
  urlChannel st' ≠ urlChannel st ∨ domainSuccess st' ≠ domainSuccess st
  ∨ urlSet st' ≠ urlSet st ∨ failed st' ≠ failed st →
  reads_or_decides st = true.
Proof.
  unfold main_step, reads_or_decides.
  destruct (at_ st) as [[|s rest]| | | | | | |]; try done.
  - intros [= <-]. simpl. intros [?|[?|[?|?]]]; congruence.
  - destruct (excluded ex (source_key s)); intros [= <-]; simpl;
      intros [?|[?|[?|?]]]; congruence.
  - destruct (wg st =? 0)%nat; [|done]. intros [= <-]. simpl.
    intros [?|[?|[?|?]]]; congruence.
  - intros [= <-]. simpl. intros [?|[?|[?|?]]]; congruence.
  - intros [= <-]. simpl. intros [?|[?|[?|?]]]; congruence.
  - destruct (logWg st =? 0)%nat; [|done]. intros [= <-]. simpl.
    intros [?|[?|[?|?]]]; congruence.
Qed.

End MachineInv.

Lemma messages_app gs1 gs2 : messages (gs1 ++ gs2) = messages gs1 ++ messages gs2.
Proof. unfold messages. by rewrite map_app, concat_app. Qed.

Lemma messages_step (gs : list (list event)) :
  ∀ j e r, gs !! j = Some (e :: r) →
    messages gs ≡ₚ sends [e] ++ messages (<[j := r]> gs).
Proof.
  unfold messages.
  induction gs as [|g gs IH]; intros j e r Hj; [done|].
  destruct j as [|j]; simpl in *.
  - injection Hj as ->. change (e :: r) with ([e] ++ r).
    by rewrite sends_app, <- app_assoc.
  - rewrite (IH j e r Hj). apply Permutation_app_swap_app.
Qed.

Lemma messages_returned gs : Forall (λ g, g = []) gs → messages gs = [].
Proof.
  unfold messages. induction 1 as [|g gs -> _ IH]; simpl; [done|]. exact IH.
Qed.

Lemma drain_snoc msgs urls ok set :
  drain (msgs ++ [urls]) ok set = drain_one (drain msgs ok set) urls.
Proof. unfold drain. by rewrite foldl_app. Qed.

Section Accounting.
Import Machine.
Variable ex : gmap string bool.
Variable prog : source → list event.
Variable set0 : gset string.

Lemma Accounted_init : Accounted ex prog set0 (init set0).
Proof.
  exists []. simpl. repeat split; try done.
Qed.

Lemma Accounted_main_step st st' :
  Accounted ex prog set0 st → main_step ex prog st = Some st' →
  Accounted ex prog set0 st'.
Proof.
  intros (dr & Hd & Hp & Hr & Hc & Hf). unfold main_step.
  destruct (at_ st) as [[|s rest]| | | | | | |] eqn:Hpc; simpl in *.
  - intros [= <-]. exists dr. simpl. rewrite ?Hpc.
    destruct (runCount st =? 0)%nat; simpl; repeat split; done.
  - destruct (excluded ex (source_key s)) eqn:Ex; intros [= <-]; exists dr;
      simpl in *.
    + repeat split; done.
    + rewrite messages_app. repeat split; try done.
      * rewrite <- Hp. unfold messages at 2. simpl. fold (messages []).
        unfold messages at 4. simpl. rewrite app_nil_r.
        fold (messages (map prog
                (List.filter (λ s, negb (excluded ex (source_key s))) rest))).
        by rewrite <- !app_assoc.
      * lia.
  - destruct (wg st =? 0)%nat; [|done]. intros [= <-]. exists dr.
    simpl. rewrite ?Hpc. repeat split; done.
  - intros [= <-]. exists dr. simpl. rewrite ?Hpc. repeat split; done.
  - intros [= <-]. exists dr. simpl. rewrite ?Hpc. repeat split; done.
  - destruct (logWg st =? 0)%nat; [|done]. intros [= <-]. exists dr.
    simpl. rewrite ?Hpc. repeat split; done.
  - destruct (urlChannel st) as [|urls rest] eqn:Hch.
    + destruct (urlClosed st); [|done]. intros [= <-]. exists dr.
      simpl. rewrite Hch. repeat split; done.
    + intros [= <-]. exists (dr ++ [urls]). simpl. rewrite ?Hpc.
      repeat split; try done.
      * by rewrite drain_snoc, <- Hd.
      * rewrite <- Hp. by rewrite <- !app_assoc.
  - intros [= <-]. exists dr. simpl. repeat split; done.
  - done.
Qed.

Lemma querier_step_before_join j st st' :
  Inv st → querier_step j st = Some st' →
  joined_at (at_ st) = false ∧ at_ st' = at_ st.
Proof.
  intros [Iwf Iwg Ilw Iu Il Ij Ic Id Ir]. unfold querier_step.
  destruct (goroutines st !! j) as [[|e rest]|] eqn:Hj; [done| |done].
  intros H. split.
  - destruct (joined_at (at_ st)) eqn:E; [|done].
    rewrite (Ij eq_refl) in Iwg. symmetry in Iwg.
    apply no_live_all_returned in Iwg.
    pose proof (proj1 (Forall_lookup _ _) Iwg j _ Hj) as Hnil.
    discriminate Hnil.
  - destruct e; simpl in H;
      repeat match type of H with
             | (if ?b then _ else _) = _ => destruct b; [done|]
             end;
      by injection H as <-.
Qed.

Lemma Accounted_querier_step j st st' :
  Inv st →
  Accounted ex prog set0 st → querier_step j st = Some st' →
  Accounted ex prog set0 st'.
Proof.
  intros I (dr & Hd & Hp & Hr & Hc & Hf) Hstep.
  destruct (querier_step_before_join j st st' I Hstep) as [Hnj Hat].
  assert (past_drain (at_ st) = false ∧ at_ st ≠ AtEnd) as [Hnp Hne].
  { by destruct (at_ st). }
  revert Hstep. unfold querier_step.
  destruct (goroutines st !! j) as [[|e rest]|] eqn:Hj; [done| |done].
  pose proof (messages_step _ j e rest Hj) as Hm.
  destruct e; simpl in *.
  - intros [= <-]. exists dr. simpl. rewrite <- Hm. repeat split; done.
  - intros [= <-]. exists dr. simpl. rewrite <- Hm. repeat split; done.
  - destruct (logClosed st || _); [done|]. intros [= <-]. exists dr. simpl.
    rewrite <- Hm. repeat split; done.
  - destruct (urlClosed st || _) eqn:E; [done|]. intros [= <-]. exists dr.
    simpl. apply orb_false_iff in E as [E1 E2].
    repeat split; try done; try (intros ?; congruence).
    rewrite <- Hp, Hm. rewrite <- !app_assoc. simpl.
    apply Permutation_app_head. apply Permutation_app_head.
    by rewrite Permutation_middle.
  - destruct (wg st =? 0)%nat; [done|]. intros [= <-]. exists dr. simpl.
    rewrite <- Hm. repeat split; done.
Qed.

Lemma Accounted_consumer_step st st' :
  Accounted ex prog set0 st → consumer_step st = Some st' →
  Accounted ex prog set0 st'.
Proof.
  intros (dr & Hd & Hp & Hr & Hc & Hf). unfold consumer_step.
  destruct (consumer st); [|done].
  destruct (logChan st) as [|m rest].
  - destruct (logClosed st); [|done]. intros [= <-]. by exists dr.
  - intros [= <-]. by exists dr.
Qed.

Hypothesis prog_ends :
  ∀ s, excluded ex (source_key s) = false → ends_with_Done (prog s).

Lemma Accounted_exec sched :
  ∀ st st', Inv st → Accounted ex prog set0 st →
    exec ex prog sched st = Some st' → Accounted ex prog set0 st'.
Proof.
  induction sched as [|l sched IH]; intros st st' I A; simpl.
  - by intros [= <-].
  - destruct (fire ex prog l st) as [st1|] eqn:E; [|done]. simpl.
    apply IH.
    + destruct l; simpl in E.
      * by eapply Inv_main_step.
      * by eapply Inv_querier_step.
      * by eapply Inv_consumer_step.
    + destruct l; simpl in E.
      * by eapply Accounted_main_step.
      * by eapply Accounted_querier_step.
      * by eapply Accounted_consumer_step.
Qed.

(** Every schedule that brings the orchestrator to the end of the domain
    leaves the variables that [drain] computes from the messages of the
    dispatched queriers, taken in the order of their start. *)
Lemma every_schedule_drains sched st :
  exec ex prog sched (init set0) = Some st → at_ st = AtEnd →
  (domainSuccess st, urlSet st)
  = drain (messages (map prog (dispatched ex))) false set0
  ∧ failed st
    = Some (domain_failed (domainSuccess st) (length (dispatched ex))).
Proof.
  intros Hexec Hend.
  pose proof (Inv_exec ex prog prog_ends sched _ _ (Inv_init set0) Hexec) as I.
  pose proof (Accounted_exec sched _ _ (Inv_init set0) Accounted_init Hexec)
    as (dr & Hd & Hp & Hr & Hc & Hf).
  destruct I as [Iwf Iwg Ilw Iu Il Ij Ic Id Ir].
  rewrite Hend in *. simpl in *.
  rewrite (Ij eq_refl) in Iwg. symmetry in Iwg.
  apply no_live_all_returned, messages_returned in Iwg.
  rewrite (Hc eq_refl), Iwg in Hp. simpl in Hp. rewrite app_nil_r in Hp.
  split.
  - rewrite Hd. by apply drain_Permutation.
  - rewrite (Hf eq_refl). do 2 f_equal. lia.
Qed.

End Accounting.

(** ** The goroutines of one domain: a schedule that completes *)

Section Progress.
Import Machine.
Variable ex : gmap string bool.
Variable prog : source → list event.
Variable set0 : gset string.

Lemma exec_app s1 s2 st :
  exec ex prog (s1 ++ s2) st = exec ex prog s1 st ≫= exec ex prog s2.
Proof.
  revert st. induction s1 as [|l s1 IH]; intros st; simpl; [done|].
  destruct (fire ex prog l st); simpl; [apply IH|done].
Qed.

(** After the four tests of [excludedMap] and the test of [runCount]. *)
Lemma exec_dispatch :
  exec ex prog (repeat Orchestrator 5) (init set0)
  = Some {| at_ := match dispatched ex with [] => AtCloseUrl | _ => AtWait end;
            runCount := length (dispatched ex);
            wg := length (dispatched ex);
            logWg := 1;
            goroutines := map prog (dispatched ex);
            urlChannel := []; urlClosed := false;
            logChan := []; logClosed := false; consumer := true;
            printed := []; domainSuccess := false; urlSet := set0;
            failed := None |}.
Proof.
  unfold dispatched, init. simpl. unfold main_step. simpl.
  destruct (excluded ex "vt"); simpl;
    destruct (excluded ex "otx"); simpl;
    destruct (excluded ex "wayback"); simpl;
    destruct (excluded ex "hr"); simpl; reflexivity.
Qed.

Lemma exec_run_querier j g :
  ∀ st,
    goroutines st !! j = Some g →
    consumer st = true → logChan st = [] →
    logClosed st = false → urlClosed st = false →
    (length (urlChannel st) + length (sends g) ≤ capacity)%nat →
    (count is_done g ≤ wg st)%nat →
    exec ex prog (run_querier j g) st
    = Some {| at_ := at_ st; runCount := runCount st;
              wg := wg st - count is_done g; logWg := logWg st;
              goroutines := <[j := []]> (goroutines st);
              urlChannel := urlChannel st ++ sends g; urlClosed := false;
              logChan := []; logClosed := false; consumer := true;
              printed := printed st ++ logs g;
              domainSuccess := domainSuccess st; urlSet := urlSet st;
              failed := failed st |}.
Proof.
  induction g as [|e g IH]; intros st Hj Hc Hl Hlc Huc Hcap Hwg.
  - simpl. destruct st; simpl in *; subst. f_equal. f_equal.
    + unfold count. simpl. lia.
    + by rewrite list_insert_id.
    + by rewrite app_nil_r.
    + by rewrite app_nil_r.
  - assert (j < length (goroutines st))%nat as Hlt
      by (by eapply lookup_lt_Some).
    assert (∀ st1, querier_step j st = Some st1 →
              exec ex prog (run_querier j (e :: g)) st
              = (if is_log e then consumer_step st1 else Some st1)
                ≫= exec ex prog (run_querier j g)) as Hstep.
    { intros st1 E. simpl. rewrite exec_app. destruct e; simpl; rewrite E;
        simpl; try done. by destruct (consumer_step st1). }
    unfold querier_step in Hstep. rewrite Hj in Hstep.
    destruct e.
    + rewrite (Hstep _ eq_refl). simpl. use_IH IH.
      * by rewrite list_insert_insert_eq.
      * by apply list_lookup_insert_eq.
    + rewrite (Hstep _ eq_refl). simpl. use_IH IH.
      * by rewrite list_insert_insert_eq.
      * by apply list_lookup_insert_eq.
    + rewrite Hlc, Hl in Hstep. rewrite (Hstep _ eq_refl).
      unfold consumer_step. simpl. rewrite Hc. simpl. use_IH IH.
      * rewrite list_insert_insert_eq. by rewrite <- app_assoc.
      * by apply list_lookup_insert_eq.
    + assert (length (sends (EvSend urls :: g)) = S (length (sends g)))
        as Hs by done.
      rewrite Hs in Hcap.
      assert ((capacity <=? length (urlChannel st))%nat = false) as Hfull
        by (apply Nat.leb_gt; lia).
      rewrite Huc, Hfull in Hstep. rewrite (Hstep _ eq_refl). simpl.
      use_IH IH.
      * rewrite list_insert_insert_eq. by rewrite <- app_assoc.
      * by apply list_lookup_insert_eq.
      * rewrite length_app. simpl. lia.
    + unfold count in Hwg. simpl in Hwg.
      assert ((wg st =? 0)%nat = false) as Hpos by (apply Nat.eqb_neq; lia).
      rewrite Hpos in Hstep. rewrite (Hstep _ eq_refl). simpl. use_IH IH.
      * rewrite list_insert_insert_eq. do 2 f_equal.
        unfold count. simpl. lia.
      * by apply list_lookup_insert_eq.
      * unfold count. lia.
Qed.

Lemma ends_with_Done_count g : ends_with_Done g → count is_done g = 1%nat.
Proof. intros (body & -> & D). by rewrite count_app, D. Qed.

Lemma exec_run_queriers gs :
  ∀ pre st,
    goroutines st = pre ++ gs →
    Forall ends_with_Done gs →
    consumer st = true → logChan st = [] →
    logClosed st = false → urlClosed st = false →
    (length (urlChannel st) + length (messages gs) ≤ capacity)%nat →
    (length gs ≤ wg st)%nat →
    exec ex prog (run_queriers (length pre) gs) st
    = Some {| at_ := at_ st; runCount := runCount st;
              wg := wg st - length gs; logWg := logWg st;
              goroutines := pre ++ map (λ _, []) gs;
              urlChannel := urlChannel st ++ messages gs; urlClosed := false;
              logChan := []; logClosed := false; consumer := true;
              printed := printed st ++ concat (map logs gs);
              domainSuccess := domainSuccess st; urlSet := urlSet st;
              failed := failed st |}.
Proof.
  induction gs as [|g gs IH]; intros pre st Hg Hwf Hc Hl Hlc Huc Hcap Hwg.
  - simpl. destruct st; simpl in *; subst. f_equal. f_equal.
    + lia.
    + by rewrite app_nil_r.
    + by rewrite app_nil_r.
  - apply Forall_cons in Hwf as [Hg1 Hwf].
    pose proof (ends_with_Done_count g Hg1) as Hd.
    change (messages (g :: gs)) with (sends g ++ messages gs) in *.
    rewrite length_app in Hcap. simpl in Hwg.
    simpl. rewrite exec_app, exec_run_querier; try done; try lia.
    2: { rewrite Hg. by apply list_lookup_middle. }
    simpl.
    assert (<[length pre := []]> (goroutines st) = (pre ++ [[]]) ++ gs) as Hins.
    { rewrite Hg, <- app_assoc. simpl.
      replace (length pre) with (length pre + 0)%nat at 1 by lia.
      by rewrite insert_app_r. }
    replace (S (length pre)) with (length (pre ++ [[]]))
      by (rewrite length_app; simpl; lia).
    match goal with
    | |- exec _ _ _ ?s = _ =>
        rewrite (IH (pre ++ [[]]) s); simpl; try done; try lia
    end.
    + do 2 f_equal; try lia.
      * by rewrite <- app_assoc.
      * by rewrite <- app_assoc.
      * by rewrite <- app_assoc.
    + rewrite length_app. lia.
Qed.

(** From the drain loop on. *)
Lemma exec_drain ch :
  ∀ st,
    at_ st = AtDrain → urlChannel st = ch →
    exec ex prog (repeat Orchestrator (length ch)) st
    = Some (set_result (drain ch (domainSuccess st) (urlSet st))
              (set_urlChannel [] (urlClosed st) st)).
Proof.
  induction ch as [|urls ch IH]; intros st Hat Hch; simpl.
  - destruct st; simpl in *; by subst.
  - unfold main_step. rewrite Hat, Hch. simpl.
    match goal with
    | |- exec _ _ _ ?s = _ => rewrite (IH s); simpl; try done
    end.
Qed.

Hypothesis prog_ends :
  ∀ s, excluded ex (source_key s) = false → ends_with_Done (prog s).
Hypothesis prog_one :
  ∀ s, excluded ex (source_key s) = false →
       (length (sends (prog s)) ≤ 1)%nat.

Lemma dispatched_messages :
  Forall ends_with_Done (map prog (dispatched ex))
  ∧ (length (messages (map prog (dispatched ex))) ≤ capacity)%nat.
Proof.
  unfold dispatched, capacity, messages. simpl.
  destruct (excluded ex "vt") eqn:E1; simpl;
    destruct (excluded ex "otx") eqn:E2; simpl;
    destruct (excluded ex "wayback") eqn:E3; simpl;
    destruct (excluded ex "hr") eqn:E4; simpl;
    rewrite ?length_app;
    (split; [repeat constructor; by apply prog_ends|]);
    try pose proof (prog_one VT E1); try pose proof (prog_one OTX E2);
    try pose proof (prog_one Wayback E3); try pose proof (prog_one HR E4);
    simpl; lia.
Qed.

(** The sequential schedule brings the orchestrator to the end of the
    domain: the channels of capacity four never block it. *)
Lemma sequential_completes :
  ∃ st, exec ex prog (sequential ex prog) (init set0) = Some st
        ∧ at_ st = AtEnd.
Proof.
  destruct dispatched_messages as [Hwf Hcap].
  unfold sequential. rewrite exec_app, exec_dispatch. simpl.
  rewrite exec_app.
  match goal with
  | |- ∃ _, exec _ _ _ ?s ≫= _ = _ ∧ _ =>
      pose proof (exec_run_queriers (map prog (dispatched ex)) [] s) as Hrun
  end.
  simpl in Hrun. rewrite Hrun; try done; [|by rewrite length_map].
  clear Hrun. simpl.
  rewrite length_map, Nat.sub_diag.
  destruct (dispatched ex) as [|s0 srcs] eqn:Ed; simpl.
  - eexists. split; [reflexivity|done].
  - rewrite exec_app.
    match goal with
    | |- ∃ _, exec _ _ (repeat Orchestrator (length ?ch)) ?s ≫= _ = _ ∧ _ =>
        rewrite (exec_drain ch s); simpl; try done
    end.
    eexists. split; [reflexivity|done].
Qed.
End Progress.

Lemma sends_concat (traces : list (list event)) :
  sends (concat traces) = messages traces.
Proof.
  unfold messages. induction traces as [|tr traces IH]; simpl; [done|].
  by rewrite sends_app, IH.
Qed.

Lemma mapM_map {A B} (f : A → option B) (g : A → B) (l : list A) (k : list B) :
  mapM f l = Some k → (∀ x, x ∈ l → f x = Some (g x)) → k = map g l.
Proof.
  intros H Hg. apply mapM_Some in H.
  induction H as [|x y l k Hx _ IH]; simpl; [done|].
  rewrite Hg in Hx by left. injection Hx as <-.
  f_equal. apply IH. intros z Hz. apply Hg. by right.
Qed.

Lemma dispatched_spec (ex : gmap string bool) (s : source) :
  s ∈ dispatched ex ↔ excluded ex (source_key s) = false.
Proof.
  unfold dispatched. rewrite list_elem_of_In, filter_In, negb_true_iff.
  split; [by intros [_ ?]|]. intros H. split; [|done].
  destruct s; simpl; auto.
Qed.

(** C7: whatever the schedule of the goroutines of a domain, when the
    orchestrator reads a message from the results channel or decides
    whether the domain failed, every dispatched querier has returned (the
    wait-group is at zero), both channels are closed, the log channel is
    empty and the log consumer has returned; and the orchestrator touches
    the results channel, the variables of the drain loop and the decision
    at no other point of its program. *)
Theorem C7_logs_before_results (fuel : nat) (lib : Lib) (nets : source → Net)
    (config : Config) (domain : string) (idx : nat) (silent : bool)
    (ex : gmap string bool) (prog : source → list event)
    (set0 : gset string) (sched : list Machine.label) (st : Machine.state) :
  (∀ s, s ∈ dispatched ex →
     querier fuel lib nets config domain idx silent s = Some (prog s)) →
  Machine.exec ex prog sched (Machine.init set0) = Some st →
  (Machine.reads_or_decides st = true →
   Forall (λ g, g = []) (Machine.goroutines st) ∧ Machine.wg st = 0%nat
   ∧ Machine.urlClosed st = true ∧ Machine.logClosed st = true
   ∧ Machine.logChan st = [] ∧ Machine.consumer st = false
   ∧ Machine.logWg st = 0%nat)
  ∧ (∀ st', Machine.main_step ex prog st = Some st' →
       Machine.urlChannel st' ≠ Machine.urlChannel st
       ∨ Machine.domainSuccess st' ≠ Machine.domainSuccess st
       ∨ Machine.urlSet st' ≠ Machine.urlSet st
       ∨ Machine.failed st' ≠ Machine.failed st →
       Machine.reads_or_decides st = true).
Proof.
  intros Hprog Hexec. split.
  - apply (drain_after_logs ex prog set0) with (sched := sched); [|done].
    intros s Hs. apply dispatched_spec in Hs.
    by eapply querier_ends_with_Done, Hprog.
  - intros st'. apply reads_only_there.
Qed.

Lemma C7_witness :
  ∃ st, Machine.exec archive_only archive_prog archive_schedule
          (Machine.init ∅) = Some st
        ∧ Machine.urlChannel st = [Some ["http://a.com/x"]]
        ∧ Machine.logChan st = [] ∧ Machine.consumer st = false.
Proof.
  eexists. split; [vm_compute; reflexivity|]. split; [vm_compute; reflexivity|].
  edestruct (C7_logs_before_results 1 example_lib (λ _, always "http://a.com/x")
               no_keys "example.com" 0 false archive_only archive_prog ∅
               archive_schedule) as [H _].
  - intros s Hs. vm_compute in Hs. apply list_elem_of_In in Hs.
    destruct Hs as [<-|[]]. vm_compute. reflexivity.
  - vm_compute. reflexivity.
  - destruct H as (_ & _ & _ & _ & L & C & _); [vm_compute; reflexivity|].
    by split.
Defined.

Lemma querier_one_send fuel lib nets config domain idx silent s tr :
  querier fuel lib nets config domain idx silent s = Some tr →
  (length (sends tr) ≤ 1)%nat.
Proof.
  destruct s; simpl.
  - intros [= <-].
    pose proof (getVirusTotalURLs_trace lib (nets VT) domain
                  (VirusTotalKeys config) idx silent) as H. cbv zeta in H.
    destruct (length (VirusTotalKeys config) =? 0)%nat.
    + rewrite H. simpl. lia.
    + apply one_message_counts in H as (_ & _ & ->). lia.
  - intros H. apply getAlienVaultURLs_trace, one_message_counts in H
      as (_ & _ & ->). lia.
  - intros [= <-].
    destruct (one_message_counts _ (getWaybackURLs_trace lib (nets Wayback)
                                      domain silent)) as (_ & _ & ->). lia.
  - intros [= <-].
    destruct (one_message_counts _
                (getHudsonRockURLs_trace lib (nets HR) domain
                   (HudsonRockKeys config) idx silent)) as (_ & _ & ->). lia.
Qed.

(** X1: the orchestrator as a function and the goroutines as a machine agree:
    every schedule that brings the orchestrator to the end of the domain
    leaves the URL set of [processDomain], and settles the failure of the
    domain as [processDomain] does. *)
Theorem every_schedule_agrees (fuel : nat) (p : Params) (i n : nat)
    (domain : string) (st0 st1 : Main) (prog : source → list event)
    (sched : list Machine.label) (m : Machine.state) :
  processDomain fuel p i n domain st0 = Some st1 →
  (∀ s, s ∈ dispatched (excludedMap p) →
     querier fuel (lib p) (world p i) (config p) domain (apiKeyIndex st0)
       (silent p) s = Some (prog s)) →
  Machine.exec (excludedMap p) prog sched (Machine.init (finalUrlSet st0))
  = Some m →
  Machine.at_ m = Machine.AtEnd →
  Machine.urlSet m = finalUrlSet st1
  ∧ ∃ failed, Machine.failed m = Some failed
      ∧ failedDomains st1
        = if failed then failedDomains st0 ++ [domain] else failedDomains st0.
Proof.
  intros Hp Hprog Hexec Hend.
  apply processDomain_spec in Hp as (traces & Hm & Hs & Hf & _).
  apply (mapM_map _ prog) in Hm; [|done]. subst traces.
  rewrite sends_concat in Hs, Hf.
  destruct (every_schedule_drains (excludedMap p) prog (finalUrlSet st0))
    with (sched := sched) (st := m) as [Hd Hfail]; try done.
  { intros s Hs'. apply dispatched_spec in Hs'.
    by eapply querier_ends_with_Done, Hprog. }
  rewrite drain_eq in Hd. injection Hd as Hds Hset.
  split; [congruence|]. eexists. split; [exact Hfail|].
  by rewrite Hf, Hds.
Qed.

(** ** Runs come to an end *)

Lemma querier_returns (p : Params) (i : nat) (domain : string) (idx : nat)
    (N : nat) (s : source) :
  pages_end (lib p) (world p i OTX) N →
  is_Some (querier (S N) (lib p) (world p i) (config p) domain idx
             (silent p) s).
Proof.
  intros Hend. destruct s; simpl; try done.
  destruct (getAlienVaultURLs_returns (lib p) (world p i OTX) domain
              (AlienVaultKeys (config p)) idx (silent p) N Hend) as [tr ->].
  done.
Qed.

Lemma processDomain_returns (p : Params) (i n : nat) (domain : string)
    (st : Main) (N : nat) :
  pages_end (lib p) (world p i OTX) N →
  is_Some (processDomain (S N) p i n domain st).
Proof.
  intros Hend. unfold processDomain.
  assert (is_Some (mapM (querier (S N) (lib p) (world p i) (config p) domain
                           (apiKeyIndex st) (silent p))
                     (dispatched (excludedMap p)))) as [traces ->].
  { apply mapM_is_Some, Forall_forall. intros s _.
    by apply querier_returns. }
  simpl. by destruct (drain _ _ _).
Qed.

(** X2: when the pagination of OTX ends within [N] requests for every
    line, the driver deals with all the lines and the run completes. *)
Lemma run_returns (p : Params) (domains : list string) (N : nat) :
  (∀ i, pages_end (lib p) (world p i OTX) N) →
  is_Some (run (S N) p domains).
Proof.
  intros Hend. unfold run.
  assert (∀ ds i st, is_Some (run_lines (S N) p (length domains) i ds st))
    as Hlines.
  { induction ds as [|raw ds IH]; intros i st; simpl; [done|].
    assert (is_Some (process_line (S N) p (length domains) st i raw))
      as [st' ->].
    { unfold process_line. destruct (exited st); [done|].
      repeat case_bool_decide; try done.
      destruct (isValidDomain _); simpl; [|done].
      by apply processDomain_returns. }
    simpl. apply IH. }
  destruct (Hlines domains 0%nat (start p domains)) as [st ->]. done.
Qed.

(** ** Concrete runs *)

Example isValidDomain_accepts :
  isValidDomain "example.com" = true
  ∧ isValidDomain "Sub-Domain.Example.ORG" = true
  ∧ isValidDomain "a.b-c.io" = true
  ∧ isValidDomain (string_of_list_ascii (repeat "a"%char 63) +:+ ".com")
    = true.
Proof. repeat split; vm_compute; reflexivity. Qed.

Example isValidDomain_rejects :
  isValidDomain "localhost" = false
  ∧ isValidDomain "example.c" = false
  ∧ isValidDomain "example.c0m" = false
  ∧ isValidDomain "-example.com" = false
  ∧ isValidDomain "example-.com" = false
  ∧ isValidDomain "exa_mple.com" = false
  ∧ isValidDomain "example..com" = false
  ∧ isValidDomain ".example.com" = false
  ∧ isValidDomain "example.com." = false
  ∧ isValidDomain (string_of_list_ascii (repeat "a"%char 64) +:+ ".com")
    = false.
Proof. repeat split; vm_compute; reflexivity. Qed.

(** Under [(?i)] the Kelvin sign U+212A counts as the letter [k]; the
    cleaner deletes its bytes before the validator sees them. *)
Example isValidDomain_kelvin :
  let kelvin := string_of_list_ascii [byte 226; byte 132; byte 170] in
  isValidDomain ("example.o" +:+ kelvin) = true
  ∧ cleanDomainLine ("example.o" +:+ kelvin) = "example.o".
Proof. split; vm_compute; reflexivity. Qed.

Example cleanDomainLine_examples :
  cleanDomainLine " not a domain!! " = "notadomain"
  ∧ cleanDomainLine "https://example.com/login" = "httpsexample.comlogin"
  ∧ cleanDomainLine "!!" = "".
Proof. repeat split; vm_compute; reflexivity. Qed.

Example TrimSpace_examples :
  let nbsp := string_of_list_ascii [byte 194; byte 160] in
  let tab := string_of_list_ascii [byte 9] in
  TrimSpace (tab +:+ " a b " +:+ nbsp +:+ nl) = "a b"
  ∧ TrimSpace (nbsp +:+ " ") = ""
  ∧ TrimSpace "example.com" = "example.com".
Proof. repeat split; vm_compute; reflexivity. Qed.

Example dispatched_examples :
  dispatched (make_excludedMap "") = [VT; OTX; Wayback; HR]
  ∧ dispatched (make_excludedMap "vt, hr") = [OTX; Wayback]
  ∧ dispatched (make_excludedMap "vt,otx,wayback,hr") = [].
Proof. repeat split; vm_compute; reflexivity. Qed.

(** The example of the specification: three input lines, VT and HudsonRock
    excluded, OTX and the archive know URLs for the first domain and none
    for the last.  The output file holds the two URLs, the second line is
    skipped, and the last domain, for which both sources succeeded with no
    URL, is written to the failed domains. *)
Example end_to_end :
  let p :=
    {| silent := false; outputFile := "endpoints.txt";
     inputFile := "domains.txt"; configFile := home_config;
       excludedMap := make_excludedMap "vt,hr";
       config := no_keys; lib := example_lib;
       world := λ i s,
         match i, s with
         | O, OTX => always "a.com/x"
         | O, Wayback => always ("a.com/x" +:+ nl +:+ "a.com/y")
         | _, _ => always ""
         end;
       write_error := λ _, None; iteration := 0 |} in
  ∃ st, run 1 p ["example.com"; "not a domain!!"; "sub.example.co"] = Some st
        ∧ finalUrlSet st = {["a.com/x"; "a.com/y"]}
        ∧ failedDomains st = ["sub.example.co"]
        ∧ OutLog (LogSkipInvalid "notadomain") ∈ outputs st
        ∧ last (writes (outputs st))
          = Some ("endpoints.txt", ["a.com/y"; "a.com/x"]).
Proof.
  eexists. split; [vm_compute; reflexivity|].
  split; [vm_compute; reflexivity|]. split; [vm_compute; reflexivity|].
  split; [|vm_compute; reflexivity].
  apply list_elem_of_In. vm_compute. tauto.
Qed.

(** X3: whenever the queriers return, the schedule in which they run one
    after the other brings the orchestrator to the end of the domain: the
    goroutines of a domain do not deadlock in it. *)
Theorem some_schedule_completes (fuel : nat) (p : Params) (i : nat)
    (domain : string) (st0 : Main) (prog : source → list event) :
  (∀ s, s ∈ dispatched (excludedMap p) →
     querier fuel (lib p) (world p i) (config p) domain (apiKeyIndex st0)
       (silent p) s = Some (prog s)) →
  ∃ m, Machine.exec (excludedMap p) prog (sequential (excludedMap p) prog)
         (Machine.init (finalUrlSet st0)) = Some m
       ∧ Machine.at_ m = Machine.AtEnd.
Proof.
  intros Hprog. apply sequential_completes.
  - intros s Hs. apply dispatched_spec in Hs.
    by eapply querier_ends_with_Done, Hprog.
  - intros s Hs. apply dispatched_spec in Hs.
    by eapply querier_one_send, Hprog.
Qed.

(** ** The validator decides the shape of a domain name *)

Section DomainShape.
Import Regex RegexFacts.

Lemma labels_not_nil s : labels s ≠ [].
Proof.
  destruct s as [|a s]; simpl; [done|].
  destruct (is_dot a); [done|]. by destruct (labels s).
Qed.

Lemma labels_cons_dot l r :
  Forall (λ a, is_dot a = false) l →
  labels (l ++ "."%char :: r) = l :: labels r.
Proof.
  intros H. induction H as [|a l Ha _ IH]; simpl; [done|].
  by rewrite Ha, IH.
Qed.

Lemma labels_no_dot l :
  Forall (λ a, is_dot a = false) l → labels l = [l].
Proof.
  intros H. induction H as [|a l Ha _ IH]; simpl; [done|].
  by rewrite Ha, IH.
Qed.

Lemma join_dots_labels s : join_dots (labels s) = s.
Proof.
  induction s as [|a s IH]; simpl; [done|].
  destruct (is_dot a) eqn:E.
  - apply bool_decide_eq_true in E. subst a.
    pose proof (labels_not_nil s) as Hne.
    destruct (labels s) as [|x l]; [done|]. simpl in *. by rewrite IH.
  - pose proof (labels_not_nil s) as Hne.
    destruct (labels s) as [|x l]; [done|]. simpl in *.
    destruct l; by rewrite <- IH.
Qed.

Lemma alnum_hyphen_no_dot a : is_alnum_hyphen a = true → is_dot a = false.
Proof.
  intros H. destruct (is_dot a) eqn:E; [|done].
  apply bool_decide_eq_true in E. subst a. vm_compute in H. discriminate H.
Qed.

Lemma alnum_alnum_hyphen a : is_alnum a = true → is_alnum_hyphen a = true.
Proof. unfold is_alnum, is_alnum_hyphen. intros ->. done. Qed.

Lemma letter_alnum a : is_letter a = true → is_alnum a = true.
Proof. unfold is_alnum. intros ->. done. Qed.

Lemma forallb_no_dot (p : ascii → bool) l :
  (∀ a, p a = true → is_dot a = false) →
  forallb p l = true → Forall (λ a, is_dot a = false) l.
Proof.
  intros Hp H. induction l as [|a l IH]; [constructor|].
  simpl in H. apply andb_prop in H as [Ha Hl]. constructor; auto.
Qed.

Lemma label_ok_no_dot l :
  label_ok l = true → Forall (λ a, is_dot a = false) l.
Proof.
  destruct l as [|a l]; [done|]. unfold label_ok. intros H.
  apply andb_prop in H as [H _]. apply andb_prop in H as [_ H].
  eapply forallb_no_dot; [|exact H]. apply alnum_hyphen_no_dot.
Qed.

Lemma tld_ok_no_dot l : tld_ok l = true → Forall (λ a, is_dot a = false) l.
Proof.
  unfold tld_ok. intros H. apply andb_prop in H as [_ H].
  eapply forallb_no_dot; [|exact H].
  intros a Ha. by apply alnum_hyphen_no_dot, alnum_alnum_hyphen, letter_alnum.
Qed.

(** [[a-z0-9-]{0,n}] over domain bytes. *)
Lemma upto_lang_ok n :
  ∀ w, Forall (λ a, domain_char a = true) w →
    lang (UpTo n fold_alnum_hyphen) w →
    (length w ≤ n)%nat ∧ forallb is_alnum_hyphen w = true.
Proof.
  induction n as [|n IH]; intros w Hall H; simpl in H.
  - inversion H; subst. done.
  - inversion H as [| | | ? ? ? H1 | ? ? ? H1 | |]; subst.
    + inversion H1; subst. simpl. split; [lia|done].
    + inversion H1 as [| |? ? u v Hu Hv| | | |]; subst.
      apply Forall_app in Hall as [Hu' Hv'].
      apply lang_fold_class in Hu as (a & -> & Ha); [|done].
      destruct (IH v Hv' Hv) as [Hlen Hok]. simpl. split; [lia|].
      unfold is_alnum_hyphen at 1. by rewrite Ha, Hok.
Qed.

Lemma upto_ok_lang n :
  ∀ w, (length w ≤ n)%nat → forallb is_alnum_hyphen w = true →
    lang (UpTo n fold_alnum_hyphen) w.
Proof.
  induction n as [|n IH]; intros w Hlen Hok.
  - destruct w; [apply lang_eps | simpl in Hlen; lia].
  - destruct w as [|a w]; simpl.
    + apply lang_alt_l, lang_eps.
    + simpl in Hok, Hlen. apply andb_prop in Hok as [Ha Hw].
      apply lang_alt_r. apply (Regex.lang_cat _ _ [a] w).
      * apply lang_alt_l. by apply lang_class.
      * apply IH; [lia|done].
Qed.

Lemma label_lang_bound n w :
  Forall (λ a, domain_char a = true) w →
  lang (Cat fold_alnum (Opt (Cat (UpTo n fold_alnum_hyphen) fold_alnum))) w →
  (length w ≤ n + 2)%nat
  ∧ ∃ a, head w = Some a ∧ is_alnum a = true
         ∧ is_alnum (List.last w a) = true
         ∧ forallb is_alnum_hyphen w = true.
Proof.
  intros Hall H.
  inversion H as [| |? ? u v Hu Hv| | | |]; subst.
  apply Forall_app in Hall as [Hu' Hv'].
  apply lang_fold_class in Hu as (a & -> & Ha); [|done].
  fold (is_alnum a) in Ha.
  inversion Hv as [| | | ? ? ? H1 | ? ? ? H1 | |]; subst.
  - inversion H1; subst. simpl. split; [lia|]. exists a.
    rewrite Ha, (alnum_alnum_hyphen _ Ha). done.
  - inversion H1 as [| |? ? m e Hm He| | | |]; subst.
    apply Forall_app in Hv' as [Hm' He'].
    apply lang_fold_class in He as (b & -> & Hb); [|done].
    fold (is_alnum b) in Hb.
    destruct (upto_lang_ok _ _ Hm' Hm) as [Hlen Hok].
    change ([a] ++ m ++ [b]) with ((a :: m) ++ [b]).
    rewrite length_app. cbn [length]. split; [lia|]. exists a.
    rewrite last_last, forallb_app. cbn [app forallb head].
    rewrite Hok, Ha, Hb, (alnum_alnum_hyphen _ Ha), (alnum_alnum_hyphen _ Hb).
    done.
Qed.

Lemma label_lang_ok w :
  Forall (λ a, domain_char a = true) w → lang label_re w → label_ok w = true.
Proof.
  intros Hall H. destruct (label_lang_bound 61 w Hall H)
    as (Hlen & a & Hhd & Ha & Hb & Hok).
  destruct w as [|a' w]; [done|]. injection Hhd as ->.
  unfold label_ok. rewrite Ha, Hb, Hok. cbn [andb]. apply Nat.leb_le.
  exact Hlen.
Qed.

Lemma label_ok_lang w : label_ok w = true → lang label_re w.
Proof.
  destruct w as [|a t]; [done|]. unfold label_ok. intros H.
  apply andb_prop in H as [H Hlen]. apply andb_prop in H as [H Hall].
  apply andb_prop in H as [Ha Hb]. apply Nat.leb_le in Hlen.
  unfold label_re. apply (Regex.lang_cat _ _ [a] t).
  { apply lang_alt_l. by apply lang_class. }
  destruct t as [|c t'] using rev_ind.
  - apply lang_alt_l, lang_eps.
  - clear IHt'. apply lang_alt_r.
    change (a :: t' ++ [c]) with ((a :: t') ++ [c]) in *.
    rewrite last_last in Hb. rewrite forallb_app in Hall.
    rewrite length_app in Hlen. simpl in Hall, Hlen.
    apply andb_prop in Hall as [Hall _]. apply andb_prop in Hall as [_ Hall].
    apply Regex.lang_cat.
    + apply upto_ok_lang; [lia|done].
    + apply lang_alt_l. by apply lang_class.
Qed.

Lemma label_dot_lang w : lang label_dot w ↔ ∃ l, w = l ++ ["."%char] ∧ lang label_re l.
Proof.
  unfold label_dot. fold label_re. split.
  - intros H. inversion H as [| |? ? u v Hu Hd| | | |]; subst.
    inversion Hd as [|? a Ha| | | | |]; subst.
    apply bool_decide_eq_true in Ha. subst a. eauto.
  - intros (l & -> & Hl). apply Regex.lang_cat; [done|]. by apply lang_class.
Qed.

Lemma star_labels w :
  Forall (λ a, domain_char a = true) w → lang (Star label_dot) w →
  ∃ ls, w = dotted ls ∧ Forall (λ l, label_ok l = true) ls.
Proof.
  intros Hall H. revert Hall. pattern w.
  eapply lang_Star_ind; [| | exact H].
  - intros _. by exists [].
  - intros u v Hu _ IH Hall. apply Forall_app in Hall as [Hu' Hv'].
    destruct (IH Hv') as (ls & -> & Hls).
    apply label_dot_lang in Hu as (l & -> & Hl).
    apply Forall_app in Hu' as [Hl' _].
    exists (l :: ls). split; [done|]. constructor; [|done].
    by apply label_lang_ok.
Qed.

Lemma labels_dotted ls t :
  Forall (λ l, label_ok l = true) ls → tld_ok t = true →
  labels (dotted ls ++ t) = ls ++ [t].
Proof.
  intros Hls Ht. induction Hls as [|l ls Hl _ IH]; simpl.
  - by apply labels_no_dot, tld_ok_no_dot.
  - unfold dotted in *. simpl. rewrite <- !app_assoc. simpl.
    rewrite labels_cons_dot; [|by apply label_ok_no_dot]. by rewrite IH.
Qed.

Lemma labels_then_tld_app ls t :
  Forall (λ l, label_ok l = true) ls → tld_ok t = true →
  labels_then_tld (ls ++ [t]) = true.
Proof.
  intros Hls Ht. induction Hls as [|l ls Hl _ IH]; simpl; [done|].
  rewrite Hl, IH. by destruct ls.
Qed.

Lemma tld_ok_lang t : tld_ok t = true → lang (AtLeast 2 fold_letter) t.
Proof.
  unfold tld_ok. intros H. apply andb_prop in H as [Hlen Hall].
  destruct t as [|a [|b t]]; [done|done|]. simpl in Hall.
  apply andb_prop in Hall as [Ha Hall]. apply andb_prop in Hall as [Hb Hall].
  simpl. apply (Regex.lang_cat _ _ [a] (b :: t)).
  { apply lang_alt_l. by apply lang_class. }
  apply (Regex.lang_cat _ _ [b] t).
  { apply lang_alt_l. by apply lang_class. }
  clear Hlen. induction t as [|c t IH]; [apply lang_star_nil|].
  simpl in Hall. apply andb_prop in Hall as [Hc Hall].
  apply (lang_star_cons _ [c] t); [|by apply IH].
  apply lang_alt_l. by apply lang_class.
Qed.

Lemma join_dots_cons l l' rest :
  join_dots (l :: l' :: rest) = l ++ "."%char :: join_dots (l' :: rest).
Proof. reflexivity. Qed.

Lemma labels_then_tld_cons l l' rest :
  labels_then_tld (l :: l' :: rest)
  = label_ok l && labels_then_tld (l' :: rest).
Proof. reflexivity. Qed.

(** A label and its dot before a domain with its labels. *)
Lemma lang_label_before l j (r : re) :
  label_ok l = true → lang (Cat (Star label_dot) r) j →
  lang (Cat (Cat label_dot (Star label_dot)) r) (l ++ "."%char :: j).
Proof.
  intros Hl H. inversion H as [| |? ? u v Hu Hv| | | |]; subst.
  change (l ++ "."%char :: u ++ v) with (l ++ [("."%char)] ++ u ++ v).
  rewrite !app_assoc. apply Regex.lang_cat; [|done].
  apply Regex.lang_cat; [|done].
  apply label_dot_lang. exists l. split; [done|]. by apply label_ok_lang.
Qed.

Lemma lang_label_star l j (r : re) :
  label_ok l = true → lang (Cat (Star label_dot) r) j →
  lang (Cat (Star label_dot) r) (l ++ "."%char :: j).
Proof.
  intros Hl H. inversion H as [| |? ? u v Hu Hv| | | |]; subst.
  change (l ++ "."%char :: u ++ v) with (l ++ [("."%char)] ++ u ++ v).
  rewrite !app_assoc. apply Regex.lang_cat; [|done].
  apply lang_star_cons; [|done].
  apply label_dot_lang. exists l. split; [done|]. by apply label_ok_lang.
Qed.

Lemma shape_lang parts :
  labels_then_tld parts = true →
  lang (Cat (Star label_dot) (AtLeast 2 fold_letter)) (join_dots parts).
Proof.
  induction parts as [|l rest IH]; [done|].
  destruct rest as [|l' rest'].
  - intros Ht. apply (Regex.lang_cat _ _ [] l); [apply lang_star_nil|].
    by apply tld_ok_lang.
  - rewrite labels_then_tld_cons, join_dots_cons. intros H.
    apply andb_prop in H as [Hl Hrest].
    apply lang_label_star; [done|]. by apply IH.
Qed.

Lemma domain_lang_shape w :
  Forall (λ a, domain_char a = true) w →
  lang domain_re w ↔
  ((2 <=? length (labels w))%nat && labels_then_tld (labels w) = true).
Proof.
  intros Hall. split.
  - unfold domain_re, Plus. intros H.
    inversion H as [| |? ? u t Hu Ht| | | |]; subst.
    apply Forall_app in Hall as [Hu' Ht'].
    inversion Hu as [| |? ? u0 us Hu0 Hus| | | |]; subst.
    apply Forall_app in Hu' as [Hu0' Hus'].
    apply label_dot_lang in Hu0 as (l0 & -> & Hl0).
    apply Forall_app in Hu0' as [Hl0' _].
    apply star_labels in Hus as (ls & -> & Hls); [|done].
    pose proof (lang_tld _ Ht' Ht) as Htld. fold (tld_ok t) in Htld.
    assert (Hall : Forall (λ l, label_ok l = true) (l0 :: ls)).
    { constructor; [by apply label_lang_ok | done]. }
    change ((l0 ++ ["."%char]) ++ dotted ls) with (dotted (l0 :: ls)).
    rewrite (labels_dotted _ _ Hall Htld).
    rewrite (labels_then_tld_app _ _ Hall Htld), andb_true_r.
    apply Nat.leb_le. rewrite length_app. simpl. lia.
  - intros H. apply andb_prop in H as [Hlen H].
    rewrite <- (join_dots_labels w).
    destruct (labels w) as [|l [|l' rest]]; [done|done|].
    rewrite labels_then_tld_cons in H. rewrite join_dots_cons.
    apply andb_prop in H as [Hl Hrest].
    apply lang_label_before; [done|]. by apply shape_lang.
Qed.

End DomainShape.

(** X4: on a string of domain bytes, which is what [main] hands to it, the
    validator accepts exactly the names of two or more dot-separated parts
    whose last part is two or more letters and whose other parts are 1 to
    63 letters, digits and hyphens with no hyphen first or last. *)
Theorem isValidDomain_shape (s : string) :
  Forall (λ a, domain_char a = true) (bytes s) →
  isValidDomain s = domain_shape s.
Proof.
  intros Hall. unfold isValidDomain, Regex.MatchString, domain_shape.
  fold (bytes s). cbv zeta.
  pose proof (domain_lang_shape (bytes s) Hall) as H.
  rewrite <- RegexFacts.matches_iff in H.
  destruct (Regex.matches domain_re (bytes s)),
    ((2 <=? length (labels (bytes s)))%nat
     && labels_then_tld (labels (bytes s))); try done.
  - symmetry. by apply H.
  - by apply H.
Qed.

Lemma isValidDomain_shape_witness :
  isValidDomain "api-2.example.org" = domain_shape "api-2.example.org"
  ∧ domain_shape "api-2.example.org" = true.
Proof.
  split; [|vm_compute; reflexivity].
  apply (isValidDomain_shape "api-2.example.org").
  repeat constructor.
Defined.
(** ** Cleaning and trimming *)

Section Cleaning.

Lemma delete_outside_filter keep s :
  delete_outside keep s = string_of_list_ascii (List.filter keep (bytes s)).
Proof.
  induction s as [|a s IH]; simpl; [done|].
  destruct (keep a); simpl; by rewrite IH.
Qed.

Lemma delete_outside_kept keep s :
  Forall (λ a, keep a = true) (bytes s) → delete_outside keep s = s.
Proof.
  induction s as [|a s IH]; simpl; [done|]. intros H.
  apply Forall_cons in H as [-> H]. by rewrite IH.
Qed.

Lemma asciiSpace_outside a : asciiSpace a = true → domain_char a = false.
Proof.
  destruct a as [[] [] [] [] [] [] [] []]; intros H;
    try (vm_compute in H; discriminate H); vm_compute; reflexivity.
Qed.

Lemma strip_prefix_Some p :
  ∀ s s', strip_prefix p s = Some s' → s = p ++ s'.
Proof.
  induction p as [|a p IH]; intros s s'; simpl.
  - by intros [= ->].
  - destruct s as [|b s]; [done|]. case_bool_decide as E; [|done].
    subst b. intros H. by rewrite (IH _ _ H).
Qed.

Lemma first_some_Some {A B} (f : A → option B) l y :
  first_some f l = Some y → ∃ x, In x l ∧ f x = Some y.
Proof.
  induction l as [|x l IH]; simpl; [done|].
  destruct (f x) as [z|] eqn:E.
  - intros [= ->]. eauto.
  - intros H. destruct (IH H) as (x' & Hin & Hx'). eauto.
Qed.

Lemma skip_space_filter encs s s' :
  outside encs = true → skip_space encs s = Some s' →
  List.filter domain_char s' = List.filter domain_char s.
Proof.
  intros Hout. destruct s as [|a s0]; [done|]. unfold skip_space.
  destruct (asciiSpace a) eqn:Ea.
  - intros [= <-]. simpl. by rewrite (asciiSpace_outside _ Ea).
  - intros H. apply first_some_Some in H as (e & Hin & He).
    apply strip_prefix_Some in He. rewrite He, List.filter_app.
    unfold outside in Hout. rewrite forallb_forall in Hout.
    specialize (Hout e Hin).
    assert (List.filter domain_char e = []) as ->; [|done].
    clear He Hin. induction e as [|b e IH]; [done|]. simpl in *.
    apply andb_prop in Hout as [Hb He].
    apply negb_true_iff in Hb. rewrite Hb. by apply IH.
Qed.

Lemma trim_left_filter fuel encs :
  outside encs = true →
  ∀ s, List.filter domain_char (trim_left fuel encs s)
       = List.filter domain_char s.
Proof.
  intros Hout. induction fuel as [|fuel IH]; intros s; simpl; [done|].
  destruct (skip_space encs s) as [s'|] eqn:E; [|done].
  rewrite IH. by apply (skip_space_filter encs).
Qed.

Lemma TrimSpace_filter s :
  List.filter domain_char (bytes (TrimSpace s))
  = List.filter domain_char (bytes s).
Proof.
  unfold TrimSpace, bytes. rewrite list_ascii_of_string_of_list_ascii.
  unfold TrimRightSpace, TrimLeftSpace.
  rewrite filter_rev, trim_left_filter by (vm_compute; reflexivity).
  rewrite filter_rev, rev_involutive.
  apply trim_left_filter. vm_compute; reflexivity.
Qed.

End Cleaning.

Lemma cleanDomainLine_idem x :
  cleanDomainLine (cleanDomainLine x) = cleanDomainLine x.
Proof.
  rewrite (cleanDomainLine_delete (cleanDomainLine x)).
  apply delete_outside_kept, cleanDomainLine_bytes.
Qed.

Lemma cleanDomainLine_TrimSpace x :
  cleanDomainLine (TrimSpace x) = cleanDomainLine x.
Proof.
  rewrite !cleanDomainLine_delete, !delete_outside_filter.
  by rewrite TrimSpace_filter.
Qed.

Lemma blank_not_accepted raw : TrimSpace raw = "" → cleanDomainLine raw = "".
Proof. intros H. rewrite <- cleanDomainLine_TrimSpace. by rewrite H. Qed.

Lemma out_nil st : out [] st = st.
Proof. destruct st. unfold out. simpl. by rewrite app_nil_r. Qed.

Lemma process_line_eq fuel p n st i raw :
  exited st = false →
  process_line fuel p n st i raw
  = if accepted raw
    then processDomain fuel p i n (cleanDomainLine raw) st
    else Some (out (skip_outputs (silent p) raw) st).
Proof.
  intros Hex. unfold process_line, accepted, skip_outputs. rewrite Hex.
  case_bool_decide as Hb.
  - rewrite (blank_not_accepted _ Hb).
    change (isValidDomain "") with false. cbv iota. by rewrite out_nil.
  - rewrite cleanDomainLine_TrimSpace. case_bool_decide as Hc.
    + rewrite Hc. change (isValidDomain "") with false. done.
    + by destruct (isValidDomain (cleanDomainLine raw)).
Qed.

(** X5: cleaning a line twice is cleaning it once, trimming a line before
    it is cleaned changes nothing, and a cleaned line has no white space
    left to trim; a string of domain bytes is its own cleaned form. *)
Theorem cleanDomainLine_absorbs (x : string) :
  cleanDomainLine (cleanDomainLine x) = cleanDomainLine x
  ∧ cleanDomainLine (TrimSpace x) = cleanDomainLine x
  ∧ TrimSpace (cleanDomainLine x) = cleanDomainLine x
  ∧ (Forall (λ a, domain_char a = true) (bytes x) → cleanDomainLine x = x).
Proof.
  split; [apply cleanDomainLine_idem|].
  split; [apply cleanDomainLine_TrimSpace|].
  split; [apply TrimSpace_clean, cleanDomainLine_bytes|].
  intros H. rewrite cleanDomainLine_delete. by apply delete_outside_kept.
Qed.

Lemma cleanDomainLine_absorbs_witness :
  cleanDomainLine "example.com" = "example.com".
Proof.
  apply (cleanDomainLine_absorbs "example.com"). repeat constructor.
Defined.

(** X6: the driver judges a line by its cleaned form alone: the line is
    processed, under its cleaned form, exactly when that form is a valid
    domain; otherwise the state stays as it is, but for the warning. *)
Theorem process_line_by_cleaned (fuel : nat) (p : Params) (n : nat)
    (st : Main) (i : nat) (raw : string) :
  exited st = false →
  process_line fuel p n st i raw
  = if accepted raw
    then processDomain fuel p i n (cleanDomainLine raw) st
    else Some (out (skip_outputs (silent p) raw) st).
Proof.
  intros Hex. unfold process_line. rewrite Hex.
  destruct (cleanDomainLine_absorbs raw) as (_ & Htrim & _).
  unfold accepted, skip_outputs.
  destruct (decide (TrimSpace raw = "")) as [Hb|Hb].
  - rewrite !bool_decide_eq_true_2 by done.
    rewrite <- Htrim, Hb. change (isValidDomain (cleanDomainLine "")) with false.
    cbv iota. by rewrite out_nil.
  - rewrite !(bool_decide_eq_false_2 (TrimSpace raw = "")) by done.
    rewrite Htrim.
    destruct (decide (cleanDomainLine raw = "")) as [Hc|Hc].
    + rewrite !bool_decide_eq_true_2 by done. rewrite Hc.
      change (isValidDomain "") with false. done.
    + rewrite !bool_decide_eq_false_2 by done.
      by destruct (isValidDomain (cleanDomainLine raw)).
Qed.

Lemma process_line_by_cleaned_witness :
  process_line 1 two_urls 5 initial 1 "not a domain!!"
  = Some (out [OutLog (LogSkipInvalid "notadomain")] initial).
Proof.
  rewrite (process_line_by_cleaned 1 two_urls 5 initial 1 "not a domain!!")
    by reflexivity.
  reflexivity.
Defined.
(** ** The fetcher, attempt by attempt *)

Lemma count_cons p e (l : list event) :
  count p (e :: l) = ((if p e then 1 else 0) + count p l)%nat.
Proof. unfold count. simpl. by destruct (p e). Qed.

Lemma log_events_counts silent ty src msg :
  count is_do (log_events silent ty src msg) = 0%nat
  ∧ count is_sleep (log_events silent ty src msg) = 0%nat.
Proof. by destruct silent. Qed.

Lemma log_events_fetch req silent ty src msg :
  ty = "WARNING" ∨ ty = "ERROR" →
  Forall (fetch_event req silent src) (log_events silent ty src msg).
Proof.
  intros H. destruct silent; [constructor|].
  constructor; [|constructor]. by simpl.
Qed.

(** The loop of the fetcher from any round on: what it adds to the trace,
    how many requests and sleeps that holds, and where its result comes
    from. *)
Lemma retry_loop_events net req silent source left :
  ∀ i err tr0,
    ∃ r suf,
      retry_loop left i err net req silent source tr0 = (r, tr0 ++ suf)
      ∧ Forall (fetch_event req silent source) suf
      ∧ (count is_do suf ≤ left)%nat
      ∧ (0 < left → 0 < count is_do suf)%nat
      ∧ (∀ k, (k + 1 < count is_do suf)%nat →
           retryable (net req (count is_do tr0 + k)%nat))
      ∧ ((count is_sleep suf + 1 = count is_do suf)%nat
         ∧ r = net req (count is_do tr0 + count is_do suf - 1)%nat
         ∧ ¬ retryable r
         ∨ count is_sleep suf = count is_do suf ∧ count is_do suf = left
           ∧ (∀ k, (k < left)%nat →
                retryable (net req (count is_do tr0 + k)%nat))
           ∧ ∃ e, r = Failed None ("request failed after "
                                   +:+ pretty retryAttempts
                                   +:+ " attempts: " +:+ e)
                  ∧ (left = 0%nat → e = err)
                  ∧ (0 < left →
                     ∃ resp, net req (count is_do tr0 + left - 1)%nat
                             = Failed resp e)%nat).
Proof.
  induction left as [|left IH]; intros i err tr0.
  - exists (Failed None ("request failed after " +:+ pretty retryAttempts
                         +:+ " attempts: " +:+ err)), [].
    simpl. unfold ret. rewrite app_nil_r. split; [done|].
    split; [constructor|]. unfold count. simpl.
    split; [lia|]. split; [lia|]. split; [intros; lia|].
    right. split; [done|]. split; [done|]. split; [intros; lia|].
    exists err. split; [done|]. split; [done|]. lia.
  - rewrite retry_loop_S.
    destruct (net req (count is_do tr0)) as [resp|resp e] eqn:E.
    + exists (Responded resp), [EvDo req].
      split; [done|]. split; [by repeat constructor|].
      replace (count is_do [EvDo req]) with 1%nat by done.
      replace (count is_sleep [EvDo req]) with 0%nat by done.
      split; [lia|]. split; [lia|]. split; [intros; lia|].
      left. split; [done|]. split.
      * rewrite <- E. f_equal. lia.
      * intros (? & ? & ? & _). done.
    + cbv zeta.
      pose proof (log_events_counts silent "WARNING" source (warning_text i e))
        as [D1 S1].
      pose proof (log_events_counts silent "ERROR" source
                    (client_error_text resp)) as [D2 S2].
      pose proof (log_events_fetch req silent "WARNING" source
                    (warning_text i e) (or_introl eq_refl)) as F1.
      pose proof (log_events_fetch req silent "ERROR" source
                    (client_error_text resp) (or_intror eq_refl)) as F2.
      destruct (client_error resp) eqn:Ec.
      * eexists (Failed resp e), _. rewrite <- !app_assoc.
        split; [reflexivity|].
        split. { apply Forall_app. split; [by repeat constructor|].
                 apply Forall_app. done. }
        rewrite !count_app, D1, D2, S1, S2.
        replace (count is_do [EvDo req]) with 1%nat by done.
        replace (count is_sleep [EvDo req]) with 0%nat by done.
        split; [lia|]. split; [lia|]. split; [intros; lia|].
        left. split; [done|]. split.
        -- rewrite <- E. f_equal. lia.
        -- intros (resp' & e' & [= -> ->] & Hc). congruence.
      * destruct (IH (S i) e ((tr0 ++ [EvDo req]
                    ++ log_events silent "WARNING" source (warning_text i e))
                    ++ [EvSleep retryDelay]))
          as (r & suf & -> & Fsuf & Hle & Hpos & Hretry & Hres).
        eexists r, _. rewrite <- !app_assoc. split; [reflexivity|].
        split.
        { apply Forall_app. split; [by repeat constructor|].
          apply Forall_app. split; [done|].
          apply Forall_app. split; [by repeat constructor|done]. }
        rewrite !count_app, D1, S1 in *.
        replace (count is_do [EvDo req]) with 1%nat in * by done.
        replace (count is_do [EvSleep retryDelay]) with 0%nat in * by done.
        replace (count is_sleep [EvDo req]) with 0%nat by done.
        replace (count is_sleep [EvSleep retryDelay]) with 1%nat by done.
        assert (Hfirst : retryable (net req (count is_do tr0 + 0)%nat)).
        { rewrite Nat.add_0_r, E. by exists resp, e. }
        split; [lia|]. split; [lia|]. split.
        { intros k Hk. destruct k as [|k]; [done|].
          replace (count is_do tr0 + S k)%nat
            with (count is_do tr0 + (1 + 0) + 0 + k)%nat by lia.
          apply Hretry. lia. }
        destruct Hres as [(Hs & Hr & Hn)|(Hs & Hd & Hall & e' & Hr & Hz & He')].
        -- left. split; [lia|]. split; [|done]. rewrite Hr. f_equal. lia.
        -- right. split; [lia|]. split; [lia|]. split.
           { intros k Hk. destruct k as [|k]; [done|].
             replace (count is_do tr0 + S k)%nat
               with (count is_do tr0 + (1 + 0) + 0 + k)%nat by lia.
             apply Hall. lia. }
           exists e'. split; [done|]. split; [lia|]. intros _.
           destruct left as [|left].
           ++ exists resp. replace (count is_do tr0 + 1 - 1)%nat
                with (count is_do tr0) by lia.
              rewrite E. f_equal. symmetry. by apply Hz.
           ++ destruct He' as [resp' He']; [lia|]. exists resp'.
              rewrite <- He'. f_equal. lia.
Qed.

Lemma makeRequestWithRetry_events net req silent source tr0 :
  ∃ r suf,
    makeRequestWithRetry net req silent source tr0 = (r, tr0 ++ suf)
    ∧ Forall (fetch_event req silent source) suf
    ∧ (1 ≤ count is_do suf ≤ retryAttempts)%nat
    ∧ (count is_sleep suf ≤ count is_do suf)%nat
    ∧ (∀ resp, r = Responded resp →
         net req (count is_do tr0 + count is_do suf - 1)%nat = Responded resp).
Proof.
  unfold makeRequestWithRetry.
  destruct (retry_loop_events net req silent source retryAttempts 0
              "%!w(<nil>)" tr0)
    as (r & suf & E & F & Hle & Hpos & _ & Hres).
  exists r, suf. split; [done|]. split; [done|].
  unfold retryAttempts in *. split; [lia|]. split.
  - destruct Hres as [(Hs & _)|(Hs & _)]; lia.
  - intros resp ->. destruct Hres as [(_ & Hr & _)|(_ & _ & _ & e & He & _)];
      [done | discriminate He].
Qed.

Lemma fetch_event_quiet req source l :
  Forall (fetch_event req true source) l → logs l = [].
Proof.
  induction 1 as [|e l He _ IH]; [done|].
  destruct e as [| |m| |]; simpl in *; try done. by destruct He.
Qed.

Lemma slept_in_app l1 l2 : slept_in (l1 ++ l2) = (slept_in l1 + slept_in l2)%Z.
Proof.
  induction l1 as [|e l1 IH]; simpl; [done|].
  unfold slept_in in *. simpl. destruct e; rewrite ?IH; lia.
Qed.

Lemma slept_in_count l :
  Forall (λ e, ∀ d, e = EvSleep d → d = retryDelay) l →
  slept_in l = (retryDelay * Z.of_nat (count is_sleep l))%Z.
Proof.
  induction 1 as [|e l He _ IH]; [done|].
  rewrite count_cons. unfold slept_in in *. simpl.
  destruct e as [|d| | |]; simpl; rewrite ?IH; try lia.
  rewrite (He d eq_refl). lia.
Qed.

Lemma fetch_event_sleep req silent source l :
  Forall (fetch_event req silent source) l →
  Forall (λ e, ∀ d, e = EvSleep d → d = retryDelay) l.
Proof.
  intros H. eapply Forall_impl; [exact H|]. intros e He d ->. exact He.
Qed.

(** X7: the fetcher, whatever the network does: it calls
    [http.DefaultClient.Do] one to three times with the request it was
    given (what a call does on the wire, where the client follows
    redirects, is not counted) and sleeps five seconds after each call that
    failed without a status from 400 to 499; it logs nothing when silent;
    every call before the last was such a failure; and its result is the
    outcome of the last call, unless three calls failed that way, when it
    is the error that wraps the third one's. *)
Theorem makeRequestWithRetry_attempts (net : Net) (req : Request)
    (silent : bool) (source : string) :
  let result := makeRequestWithRetry net req silent source [] in
  let n := count is_do result.2 in
  (1 ≤ n ≤ 3)%nat
  ∧ Forall (fetch_event req silent source) result.2
  ∧ (silent = true → logs result.2 = [])
  ∧ slept_in result.2 = (5 * Z.of_nat (count is_sleep result.2))%Z
  ∧ (∀ k, (k + 1 < n)%nat → retryable (net req k))
  ∧ ((count is_sleep result.2 + 1 = n)%nat
     ∧ result.1 = net req (n - 1)%nat ∧ ¬ retryable result.1
     ∨ n = 3%nat ∧ count is_sleep result.2 = 3%nat
       ∧ (∀ k, (k < 3)%nat → retryable (net req k))
       ∧ ∃ resp e, net req 2%nat = Failed resp e
           ∧ result.1
             = Failed None ("request failed after 3 attempts: " +:+ e)).
Proof.
  cbv zeta. unfold makeRequestWithRetry.
  destruct (retry_loop_events net req silent source retryAttempts 0
              "%!w(<nil>)" [])
    as (r & suf & -> & F & Hle & Hpos & Hretry & Hres).
  cbn [fst snd app]. unfold retryAttempts in *.
  replace (count is_do []) with 0%nat in * by done.
  split; [lia|]. split; [done|].
  split. { intros ->. by eapply fetch_event_quiet. }
  split. { apply (slept_in_count suf). by eapply fetch_event_sleep. }
  split. { intros k Hk. by apply (Hretry k). }
  destruct Hres as [(Hs & Hr & Hn)|(Hs & Hd & Hall & e & Hr & _ & He)].
  - left. done.
  - right. destruct He as [resp He]; [lia|].
    split; [done|]. split; [lia|]. split; [exact Hall|].
    exists resp, e. done.
Qed.

(** ** The queriers report what they send *)

Lemma NewRequest_inl lib url req :
  NewRequest lib url = inl req →
  Method req = "GET" ∧ URL req = url ∧ Header req = [].
Proof.
  unfold NewRequest. destruct (NewRequest_error lib url); [done|].
  by intros [= <-].
Qed.

Lemma fetch_early req silent name l :
  Method req = "GET" →
  Forall (fetch_event req silent name) l → Forall (early_event silent name) l.
Proof.
  intros Hm H. eapply Forall_impl; [exact H|].
  intros [r| | | |]; simpl; try done. by intros ->.
Qed.

Lemma log_events_early silent ty name msg :
  ty = "WARNING" ∨ ty = "ERROR" →
  Forall (early_event silent name) (log_events silent ty name msg).
Proof.
  intros H. destruct silent; [constructor|].
  constructor; [|constructor]. by simpl.
Qed.

Lemma reports_intro silent name bounded pre ty msg urls :
  Forall (early_event silent name) pre →
  (ty = "SUCCESS" ∧ msg = found urls) ∨ (ty = "ERROR" ∧ urls = None) →
  urls ≠ Some [] →
  (count is_sleep pre ≤ count is_do pre)%nat →
  (bounded = true → (count is_do pre ≤ retryAttempts)%nat) →
  reports silent name bounded
    ((pre ++ log_events silent ty name msg ++ [EvSend urls]) ++ [EvDone]).
Proof.
  intros. exists pre, ty, msg, urls. rewrite <- !app_assoc. done.
Qed.

(** Appending never makes the empty slice that is not [nil]. *)
Lemma foldl_not_empty {A} (f : slice → A → slice) (l : list A) :
  (∀ acc x, acc ≠ Some [] → f acc x ≠ Some []) →
  ∀ acc, acc ≠ Some [] → foldl f acc l ≠ Some [].
Proof.
  intros Hf. induction l as [|x l IH]; intros acc Hacc; simpl; [done|].
  by apply IH, Hf.
Qed.

Lemma go_append_not_empty acc x : go_append acc x ≠ Some [].
Proof. unfold go_append. intros [= H]. by destruct (elems acc). Qed.

Lemma vt_urls_not_empty r : vt_urls r ≠ Some [].
Proof.
  unfold vt_urls. destruct (ResponseCode r =? 1)%Z; [|done].
  apply foldl_not_empty; [|done].
  intros acc [|x item] Hacc; [done|]. apply go_append_not_empty.
Qed.

Lemma wayback_urls_not_empty body : wayback_urls body ≠ Some [].
Proof.
  unfold wayback_urls. apply foldl_not_empty; [|done].
  intros acc line Hacc. case_bool_decide; [done|]. apply go_append_not_empty.
Qed.

Lemma hr_urls_not_empty r : hr_urls r ≠ Some [].
Proof.
  unfold hr_urls. apply foldl_not_empty; [|done].
  intros acc x _. apply go_append_not_empty.
Qed.

Lemma getVirusTotalURLs_reports lib net domain apiKeys apiKeyIndex silent :
  let tr := getVirusTotalURLs lib net domain apiKeys apiKeyIndex silent in
  if (length apiKeys =? 0)%nat then tr = [EvDone]
  else reports silent "VT" true tr.
Proof.
  cbv zeta. unfold getVirusTotalURLs, with_deferred_Done, mbind, G_bind.
  destruct (length apiKeys =? 0)%nat; [done|].
  destruct (NewRequest lib _) as [req|err] eqn:En.
  - apply NewRequest_inl in En as (Hm & _).
    unfold bind at 1.
    destruct (makeRequestWithRetry_events net req silent "VT" [])
      as (r & suf & -> & F & Hd & Hs & _).
    apply (fetch_early _ _ _ _ Hm) in F.
    destruct r as [resp|resp err]; rewrite log_then_send;
      apply reports_intro; simpl; auto using vt_urls_not_empty; lia.
  - rewrite log_then_send. apply reports_intro; auto.
    intros _. unfold count, retryAttempts. simpl. lia.
Qed.

Lemma getWaybackURLs_reports lib net domain silent :
  reports silent "Wayback" true (getWaybackURLs lib net domain silent).
Proof.
  unfold getWaybackURLs, with_deferred_Done, mbind, G_bind.
  destruct (NewRequest lib _) as [req|err] eqn:En.
  - apply NewRequest_inl in En as (Hm & _).
    unfold bind at 1.
    destruct (makeRequestWithRetry_events net req silent "Wayback" [])
      as (r & suf & -> & F & Hd & Hs & _).
    apply (fetch_early _ _ _ _ Hm) in F.
    destruct r as [resp|resp err]; rewrite log_then_send;
      apply reports_intro; simpl; auto using wayback_urls_not_empty; lia.
  - rewrite log_then_send. apply reports_intro; auto.
    intros _. unfold count, retryAttempts. simpl. lia.
Qed.

Lemma getHudsonRockURLs_reports lib net domain apiKeys apiKeyIndex silent :
  reports silent "HudsonRock" true
    (getHudsonRockURLs lib net domain apiKeys apiKeyIndex silent).
Proof.
  unfold getHudsonRockURLs, with_deferred_Done, mbind, G_bind.
  destruct (NewRequest lib _) as [req|err] eqn:En.
  - apply NewRequest_inl in En as (Hm & _).
    set (warn := "Processing without API key (data may be redacted)...").
    assert (∃ req' l, (if (0 <? length apiKeys)%nat
                       then ret (Header_Add "key"
                                   (pick_key apiKeys apiKeyIndex) req)
                       else bind (log_unless silent "WARNING" "HudsonRock" warn)
                                 (λ _, ret req)) [] = (req', l)
                      ∧ Method req' = "GET"
                      ∧ Forall (early_event silent "HudsonRock") l
                      ∧ count is_do l = 0%nat ∧ count is_sleep l = 0%nat)
      as (req' & l & E & Hm' & Fl & Dl & Sl).
    { destruct (0 <? length apiKeys)%nat.
      - exists (Header_Add "key" (pick_key apiKeys apiKeyIndex) req), [].
        by repeat split.
      - unfold bind. rewrite log_unless_eq. unfold ret.
        eexists _, _. split; [reflexivity|]. split; [done|].
        split; [apply log_events_early; by left|].
        apply log_events_counts. }
    unfold bind at 1. rewrite E. unfold bind at 1.
    destruct (makeRequestWithRetry_events net req' silent "HudsonRock" l)
      as (r & suf & -> & F & Hd & Hs & _).
    apply (fetch_early _ _ _ _ Hm') in F.
    destruct r as [resp|resp err]; rewrite log_then_send;
      apply reports_intro; rewrite ?count_app, ?Dl, ?Sl;
      auto using hr_urls_not_empty; try lia;
      apply Forall_app; done.
  - rewrite log_then_send. apply reports_intro; auto.
    intros _. unfold count, retryAttempts. simpl. lia.
Qed.

(** The loop over the pages of OTX: requests, sleeps, warnings and
    errors; the URLs it leaves with are [nil] or some. *)
Lemma otx_pages_events lib net domain apiKeys apiKeyIndex silent fuel :
  ∀ page allUrls tr0,
    allUrls ≠ Some [] →
    ∃ r suf,
      otx_pages fuel lib net domain apiKeys apiKeyIndex silent page allUrls tr0
      = (r, tr0 ++ suf)
      ∧ Forall (early_event silent "OTX") suf
      ∧ (count is_sleep suf ≤ count is_do suf)%nat
      ∧ (∀ urls, r = Some urls → urls ≠ Some []).
Proof.
  induction fuel as [|fuel IH]; intros page allUrls tr0 Hacc; simpl.
  - exists None, []. unfold ret. rewrite app_nil_r. by repeat split.
  - unfold mbind, G_bind. destruct (NewRequest lib _) as [req|err] eqn:En.
    + apply NewRequest_inl in En as (Hm & _).
      set (req' := if (0 <? length apiKeys)%nat then _ else _).
      assert (Method req' = "GET") as Hm'.
      { subst req'. by destruct (0 <? length apiKeys)%nat. }
      unfold bind at 1.
      destruct (makeRequestWithRetry_events net req' silent "OTX" tr0)
        as (r & suf & -> & F & Hd & Hs & _).
      apply (fetch_early _ _ _ _ Hm') in F.
      destruct r as [resp|resp err].
      * assert (foldl go_append allUrls
                  (URLList (unmarshal_otx lib (Body resp))) ≠ Some []) as Hacc'.
        { apply foldl_not_empty; [|done]. intros. apply go_append_not_empty. }
        destruct (HasNext _).
        -- destruct (IH (S page) _ (tr0 ++ suf) Hacc')
             as (r & suf' & -> & F' & Hs' & Hr').
           exists r, (suf ++ suf'). rewrite app_assoc.
           split; [done|]. split; [by apply Forall_app|].
           rewrite !count_app. split; [lia|done].
        -- unfold ret. exists (Some (foldl go_append allUrls
                  (URLList (unmarshal_otx lib (Body resp))))), suf.
           repeat split; try done. by intros ? [= <-].
      * unfold bind. rewrite log_unless_eq. unfold ret.
        eexists _, _. rewrite <- app_assoc. split; [reflexivity|].
        split. { apply Forall_app. split; [done|].
                 apply log_events_early. by right. }
        rewrite !count_app.
        destruct (log_events_counts silent "ERROR" "OTX" err) as [-> ->].
        split; [lia|]. by intros ? [= <-].
    + unfold bind. rewrite log_unless_eq. unfold ret.
      eexists _, _. split; [reflexivity|].
      split; [apply log_events_early; by right|].
      destruct (log_events_counts silent "ERROR" "OTX"
                  ("Failed to create request: " +:+ err)) as [-> ->].
      split; [lia|]. by intros ? [= <-].
Qed.

Lemma getAlienVaultURLs_reports fuel lib net domain apiKeys apiKeyIndex
    silent tr :
  getAlienVaultURLs fuel lib net domain apiKeys apiKeyIndex silent = Some tr →
  reports silent "OTX" false tr.
Proof.
  unfold getAlienVaultURLs.
  destruct (otx_pages_events lib net domain apiKeys apiKeyIndex silent fuel
              1 None []) as (r & suf & -> & F & Hs & Hr); [done|].
  destruct r as [allUrls|]; [|done]. intros [= <-].
  unfold mbind, G_bind. rewrite log_then_send.
  apply reports_intro; simpl; auto. done.
Qed.

(** Every started querier reports, but for VirusTotal without keys, which
    only signals. *)
Lemma querier_reports fuel lib nets config domain idx silent s tr :
  querier fuel lib nets config domain idx silent s = Some tr →
  tr = [EvDone] ∧ s = VT
  ∨ reports silent (source_name s)
      (negb (bool_decide (s = OTX))) tr.
Proof.
  destruct s; simpl.
  - intros [= <-].
    pose proof (getVirusTotalURLs_reports lib (nets VT) domain
                  (VirusTotalKeys config) idx silent) as H.
    cbv zeta in H. destruct (length (VirusTotalKeys config) =? 0)%nat; auto.
  - intros H. right. by eapply getAlienVaultURLs_reports.
  - intros [= <-]. right. apply getWaybackURLs_reports.
  - intros [= <-]. right. apply getHudsonRockURLs_reports.
Qed.

Lemma logs_app (l1 l2 : list event) : logs (l1 ++ l2) = logs l1 ++ logs l2.
Proof. apply omap_app. Qed.

Lemma early_event_logs silent name (P : logMessage → Prop) pre :
  (∀ m, silent = false → Source m = name →
        Type_ m = "WARNING" ∨ Type_ m = "ERROR" → P m) →
  Forall (early_event silent name) pre → Forall P (logs pre).
Proof.
  intros HP. induction 1 as [|e l He _ IH]; [constructor|].
  destruct e as [| |m| |]; simpl in *; try done.
  destruct He as (Hs & Hn & Ht). constructor; auto.
Qed.

Lemma early_event_sends silent name pre :
  Forall (early_event silent name) pre → sends pre = [].
Proof.
  induction 1 as [|e l He _ IH]; [done|].
  destruct e; simpl in *; done.
Qed.

Lemma early_event_sleeps silent name pre :
  Forall (early_event silent name) pre →
  Forall (λ e, ∀ d, e = EvSleep d → d = retryDelay) pre.
Proof.
  intros H. eapply Forall_impl; [exact H|]. intros e He d ->. exact He.
Qed.

(** X8: every log message of a querier carries the tag of its source and
    the type SUCCESS, ERROR or WARNING, so that the log consumer never
    falls to its default colour; and a silent querier logs nothing. *)
Theorem querier_log_tags (fuel : nat) (lib : Lib) (nets : source → Net)
    (config : Config) (domain : string) (idx : nat) (silent : bool)
    (s : source) (tr : list event) :
  querier fuel lib nets config domain idx silent s = Some tr →
  Forall (λ m, silent = false
               ∧ Source m = source_name s
               ∧ Type_ m ∈ ["SUCCESS"; "ERROR"; "WARNING"]
               ∧ consumer_color (Type_ m) ≠ colorReset
               ∧ consumer_line m
                 = consumer_color (Type_ m) +:+ "[" +:+ source_name s
                   +:+ "]" +:+ colorReset +:+ " " +:+ Message m)
         (logs tr).
Proof.
  intros H. apply querier_reports in H as [[-> _]|H]; [constructor|].
  destruct H as (pre & ty & msg & urls & -> & Fpre & Hty & _).
  assert (∀ m, silent = false → Source m = source_name s →
            Type_ m = "SUCCESS" ∨ Type_ m = "WARNING" ∨ Type_ m = "ERROR" →
            silent = false ∧ Source m = source_name s
            ∧ Type_ m ∈ ["SUCCESS"; "ERROR"; "WARNING"]
            ∧ consumer_color (Type_ m) ≠ colorReset
            ∧ consumer_line m
              = consumer_color (Type_ m) +:+ "[" +:+ source_name s
                +:+ "]" +:+ colorReset +:+ " " +:+ Message m) as Hm.
  { intros m Hs Hn Ht. split; [done|]. split; [done|].
    unfold consumer_line. rewrite Hn.
    destruct Ht as [Ht | [Ht | Ht]]; rewrite Ht;
      (split; [set_solver|]); done. }
  rewrite !logs_app. apply Forall_app. split.
  - eapply early_event_logs; [|exact Fpre]. intros m Hs Hn Ht. apply Hm; auto.
  - apply Forall_app. split; [|constructor].
    destruct silent; [constructor|]. simpl. constructor; [|constructor].
    apply Hm; try done. simpl. destruct Hty as [[-> _]|[-> _]]; auto.
Qed.

Lemma querier_log_tags_witness :
  Forall (λ m, false = false
               ∧ Source m = "Wayback"
               ∧ Type_ m ∈ ["SUCCESS"; "ERROR"; "WARNING"]
               ∧ consumer_color (Type_ m) ≠ colorReset
               ∧ consumer_line m
                 = consumer_color (Type_ m) +:+ "[" +:+ "Wayback"
                   +:+ "]" +:+ colorReset +:+ " " +:+ Message m)
    (logs (getWaybackURLs example_lib (always "") "example.com" false)).
Proof.
  apply (querier_log_tags 1 example_lib (λ _, always "") no_keys
           "example.com" 0 false Wayback).
  reflexivity.
Defined.

(** X9: a querier sends at most one message, and the message is [nil] or
    holds a URL: no querier ever sends an empty list that is not [nil]. *)
Theorem querier_message_nil_or_urls (fuel : nat) (lib : Lib)
    (nets : source → Net) (config : Config) (domain : string) (idx : nat)
    (silent : bool) (s : source) (tr : list event) :
  querier fuel lib nets config domain idx silent s = Some tr →
  (length (sends tr) ≤ 1)%nat
  ∧ Forall (λ urls, urls = None ∨ ∃ u l, urls = Some (u :: l)) (sends tr).
Proof.
  intros H. apply querier_reports in H as [[-> _]|H].
  { split; [simpl; lia | constructor]. }
  destruct H as (pre & ty & msg & urls & -> & Fpre & _ & Hne & _).
  rewrite !sends_app, (early_event_sends _ _ _ Fpre).
  assert (sends (log_events silent ty (source_name s) msg) = []) as ->
    by (by destruct silent).
  simpl. split; [lia|]. constructor; [|constructor].
  destruct urls as [[|u l]|]; [done | right; eauto | by left].
Qed.

Lemma querier_message_nil_or_urls_witness :
  (length (sends (getWaybackURLs example_lib (always "") "example.com" true))
   ≤ 1)%nat
  ∧ Forall (λ urls, urls = None ∨ ∃ u l, urls = Some (u :: l))
      (sends (getWaybackURLs example_lib (always "") "example.com" true)).
Proof.
  apply (querier_message_nil_or_urls 1 example_lib (λ _, always "") no_keys
           "example.com" 0 true Wayback).
  reflexivity.
Defined.

(** X10: a querier that is not silent reports what it sends.  VirusTotal
    without a key only signals the wait-group, and it is the only querier
    that does: for every other source, and for VirusTotal with a key, the
    trace ends with a log message, the message on the results channel and
    the signal; the log message is a SUCCESS that counts the URLs sent, or
    an ERROR before the absent marker. *)
Theorem querier_report_matches (fuel : nat) (lib : Lib)
    (nets : source → Net) (config : Config) (domain : string) (idx : nat)
    (s : source) (tr : list event) :
  querier fuel lib nets config domain idx false s = Some tr →
  (s = VT → VirusTotalKeys config = [] → tr = [EvDone])
  ∧ (¬ (s = VT ∧ VirusTotalKeys config = []) →
     ∃ pre m urls,
       tr = pre ++ [EvLog m; EvSend urls; EvDone]
       ∧ sends pre = []
       ∧ Source m = source_name s
       ∧ (Type_ m = "SUCCESS"
          ∧ Message m = "Found " +:+ pretty (len urls) +:+ " URLs"
          ∨ Type_ m = "ERROR" ∧ urls = None)).
Proof.
  intros H.
  assert (∀ bounded, reports false (source_name s) bounded tr →
          ∃ pre m urls,
            tr = pre ++ [EvLog m; EvSend urls; EvDone]
            ∧ sends pre = []
            ∧ Source m = source_name s
            ∧ (Type_ m = "SUCCESS"
               ∧ Message m = "Found " +:+ pretty (len urls) +:+ " URLs"
               ∨ Type_ m = "ERROR" ∧ urls = None)) as Hrep.
  { intros bounded (pre & ty & msg & urls & -> & Fpre & Hty & _).
    exists pre, {| Type_ := ty; Source := source_name s; Message := msg |},
      urls.
    split; [done|]. split; [by eapply early_event_sends|]. split; [done|].
    simpl. destruct Hty as [[-> ->]|[-> ->]]; auto. }
  destruct s; simpl in H.
  - injection H as <-.
    pose proof (getVirusTotalURLs_reports lib (nets VT) domain
                  (VirusTotalKeys config) idx false) as R.
    cbv zeta in R. destruct (VirusTotalKeys config) as [|key keys].
    + split; [done|]. intros Hn. by destruct Hn.
    + split; [done|]. intros _. simpl in R. eapply Hrep, R.
  - split; [done|]. intros _. eapply Hrep.
    by eapply getAlienVaultURLs_reports.
  - injection H as <-. split; [done|]. intros _. eapply Hrep.
    apply getWaybackURLs_reports.
  - injection H as <-. split; [done|]. intros _. eapply Hrep.
    apply getHudsonRockURLs_reports.
Qed.

Lemma querier_report_matches_witness :
  getVirusTotalURLs example_lib (always "http://a.com/x") "example.com" [] 0
    false
  = [EvDone]
  ∧ ∃ pre m urls,
      getWaybackURLs example_lib (always "http://a.com/x") "example.com" false
      = pre ++ [EvLog m; EvSend urls; EvDone]
      ∧ sends pre = []
      ∧ Source m = "Wayback"
      ∧ (Type_ m = "SUCCESS"
         ∧ Message m = "Found " +:+ pretty (len urls) +:+ " URLs"
         ∨ Type_ m = "ERROR" ∧ urls = None).
Proof.
  split.
  - apply (querier_report_matches 1 example_lib
             (λ _, always "http://a.com/x") no_keys "example.com" 0 VT);
      reflexivity.
  - apply (querier_report_matches 1 example_lib
             (λ _, always "http://a.com/x") no_keys "example.com" 0 Wayback).
    + reflexivity.
    + by intros [? _].
Defined.

(** X11: VirusTotal, the archive and HudsonRock each call
    [http.DefaultClient.Do] at most three times for a domain (a call may
    follow redirects, which are not counted) and sleep at most fifteen
    seconds, five after each failed call. *)
Theorem querier_budget (fuel : nat) (lib : Lib) (nets : source → Net)
    (config : Config) (domain : string) (idx : nat) (silent : bool)
    (s : source) (tr : list event) :
  s ≠ OTX →
  querier fuel lib nets config domain idx silent s = Some tr →
  (count is_do tr ≤ 3)%nat
  ∧ (count is_sleep tr ≤ count is_do tr)%nat
  ∧ slept_in tr = (5 * Z.of_nat (count is_sleep tr))%Z
  ∧ (slept_in tr ≤ 15)%Z.
Proof.
  intros Hs H. apply querier_reports in H as [[-> _]|H].
  { vm_compute. repeat split; try lia; done. }
  destruct H as (pre & ty & msg & urls & -> & Fpre & _ & _ & Hsl & Hb).
  assert (count is_do pre ≤ 3)%nat as Hdo.
  { apply Hb. by destruct s. }
  destruct (log_events_counts silent ty (source_name s) msg) as [D S].
  assert (slept_in (log_events silent ty (source_name s) msg) = 0%Z) as Z0
    by (by destruct silent).
  rewrite !count_app, !slept_in_app, D, S, Z0.
  rewrite (slept_in_count pre) by (by eapply early_event_sleeps).
  replace (count is_do [EvSend urls; EvDone]) with 0%nat by done.
  replace (count is_sleep [EvSend urls; EvDone]) with 0%nat by done.
  replace (slept_in [EvSend urls; EvDone]) with 0%Z by done.
  unfold retryDelay. lia.
Qed.

Lemma querier_budget_witness :
  let tr := getWaybackURLs example_lib (λ _ _, Failed None "refused")
              "example.com" true in
  (count is_do tr ≤ 3)%nat
  ∧ (count is_sleep tr ≤ count is_do tr)%nat
  ∧ slept_in tr = (5 * Z.of_nat (count is_sleep tr))%Z
  ∧ (slept_in tr ≤ 15)%Z.
Proof.
  apply (querier_budget 1 example_lib (λ _ _ _, Failed None "refused") no_keys
           "example.com" 0 true Wayback); [discriminate | reflexivity].
Defined.
(** ** The driver over the input lines *)

Lemma slept_app o1 o2 : slept (o1 ++ o2) = (slept o1 + slept o2)%Z.
Proof.
  induction o1 as [|o o1 IH]; simpl; [done|].
  unfold slept in *. simpl. destruct o; rewrite ?IH; lia.
Qed.

Lemma slept_log_when b l : slept (log_when b l) = 0%Z.
Proof. by destruct b. Qed.

Lemma slept_logs (ms : list logMessage) :
  slept (map (λ m, OutLog (LogSource m)) ms) = 0%Z.
Proof. by induction ms. Qed.

Lemma slept_prints l : slept (map OutPrint l) = 0%Z.
Proof. by induction l. Qed.

Lemma quiet_app o1 o2 :
  forallb quiet_output (o1 ++ o2)
  = forallb quiet_output o1 && forallb quiet_output o2.
Proof. apply forallb_app. Qed.

Lemma quiet_prints l : forallb quiet_output (map OutPrint l) = true.
Proof. by induction l. Qed.

(** What a domain adds to the outputs. *)
Lemma processDomain_outputs fuel p i n domain st st' :
  processDomain fuel p i n domain st = Some st' →
  ∃ traces,
    mapM (querier fuel (lib p) (world p i) (config p) domain
            (apiKeyIndex st) (silent p)) (dispatched (excludedMap p))
    = Some traces
    ∧ outputs st'
      = outputs st
        ++ log_when (negb (silent p)) (LogProcessing (S i) n domain)
        ++ log_when (negb (silent p)
                     && (length (dispatched (excludedMap p)) =? 0)%nat)
                    (LogNoSources domain)
        ++ map (λ m, OutLog (LogSource m)) (logs (concat traces))
        ++ (if (S i <? n)%nat then
              log_when (negb (silent p))
                (LogWaiting (Z.of_nat (n - S i) * requestDelay))
              ++ [OutSleep requestDelay]
            else []).
Proof.
  unfold processDomain. intros H.
  destruct (mapM _ _) as [traces|] eqn:E; [|done]. simpl in H.
  rewrite drain_eq in H. injection H as <-. by exists traces.
Qed.

Lemma querier_silent_logs fuel lib nets config domain idx s tr :
  querier fuel lib nets config domain idx true s = Some tr → logs tr = [].
Proof.
  intros H. apply querier_reports in H as [[-> _]|H]; [done|].
  destruct H as (pre & ty & msg & urls & -> & Fpre & _).
  rewrite !logs_app. simpl. rewrite app_nil_r.
  assert (Forall (λ _, False) (logs pre)) as HF.
  { eapply early_event_logs; [|exact Fpre]. intros m Hs. discriminate Hs. }
  destruct (logs pre); [done|]. by apply Forall_cons in HF as [? _].
Qed.

Lemma queriers_silent_logs fuel lib nets config domain idx srcs traces :
  mapM (querier fuel lib nets config domain idx true) srcs = Some traces →
  logs (concat traces) = [].
Proof.
  rewrite mapM_Some. induction 1 as [|s tr srcs traces Hq _ IH]; [done|].
  simpl. rewrite logs_app, IH, app_nil_r. by eapply querier_silent_logs.
Qed.

Lemma queriers_messages fuel lib nets config domain idx silent srcs traces :
  mapM (querier fuel lib nets config domain idx silent) srcs = Some traces →
  Forall (λ urls, urls ≠ Some []) (sends (concat traces)).
Proof.
  rewrite mapM_Some. induction 1 as [|s tr srcs traces Hq _ IH];
    [constructor|].
  simpl. rewrite sends_app. apply Forall_app. split; [|done].
  apply querier_reports in Hq as [[-> _]|H]; [constructor|].
  destruct H as (pre & ty & msg & urls & -> & Fpre & _ & Hne & _).
  rewrite !sends_app, (early_event_sends _ _ _ Fpre).
  assert (sends (log_events silent ty (source_name s) msg) = []) as ->
    by (by destruct silent).
  simpl. by repeat constructor.
Qed.

(** Messages that are [nil] or hold a URL bring no URL exactly when all
    of them are [nil]. *)
Lemma no_url_all_nil (msgs : list slice) :
  Forall (λ urls, urls ≠ Some []) msgs →
  (urls_of msgs = ∅ ↔ some_present msgs = false).
Proof.
  induction 1 as [|m msgs Hm _ IH]; [done|].
  unfold urls_of in *. simpl. rewrite list_to_set_app_L.
  destruct m as [[|u l]|]; [done| |].
  - simpl. split; [|done]. set_solver.
  - simpl. rewrite <- IH. set_solver.
Qed.

(** X12: a processed domain is recorded as failed exactly when some source
    was asked and the messages of this domain bring no URL at all;
    whatever the messages bring joins the URL set. *)
Theorem failed_iff_no_url (fuel : nat) (p : Params) (i n : nat)
    (domain : string) (st st' : Main) :
  processDomain fuel p i n domain st = Some st' →
  ∃ msgs,
    received st' = received st ++ msgs
    ∧ finalUrlSet st' = finalUrlSet st ∪ urls_of msgs
    ∧ (failedDomains st' = failedDomains st ++ [domain]
       ↔ dispatched (excludedMap p) ≠ [] ∧ urls_of msgs = ∅)
    ∧ (failedDomains st' = failedDomains st
       ↔ dispatched (excludedMap p) = [] ∨ urls_of msgs ≠ ∅).
Proof.
  intros H. apply processDomain_spec in H
    as (traces & Hm & Hset & Hfail & Hrec & _).
  exists (sends (concat traces)). split; [done|]. split; [done|].
  pose proof (no_url_all_nil _ (queriers_messages _ _ _ _ _ _ _ _ _ Hm)) as Hn.
  assert (failedDomains st ++ [domain] ≠ failedDomains st) as Hneq.
  { intros E. apply (f_equal length) in E. rewrite length_app in E.
    simpl in E. lia. }
  rewrite Hfail. unfold domain_failed.
  destruct (some_present (sends (concat traces))) eqn:Es;
    destruct (dispatched (excludedMap p)) as [|s srcs] eqn:Ed; simpl.
  - split; split; try done; try (by intros [? _]); auto.
  - split; split; try done.
    + intros [_ E]. apply Hn in E. done.
    + intros _. right. intros E. apply Hn in E. done.
  - split; split; try done; try (by intros [? _]); auto.
  - split; split; try done.
    + intros _. split; [done|]. by apply Hn.
    + intros [E|E]; [done|]. exfalso. apply E. by apply Hn.
Qed.

Lemma failed_iff_no_url_witness :
  ∃ msgs,
    received (default initial
                (processDomain 1 wayback_only_empty 0 1 "example.com" initial))
    = received initial ++ msgs
    ∧ urls_of msgs = ∅.
Proof.
  destruct (failed_iff_no_url 1 wayback_only_empty 0 1 "example.com" initial
              (default initial
                 (processDomain 1 wayback_only_empty 0 1 "example.com" initial)))
    as (msgs & Hr & _ & Hf & _).
  - vm_compute. reflexivity.
  - exists msgs. split; [done|]. apply Hf. vm_compute. reflexivity.
Defined.

Lemma accepted_domains_cons raw rest :
  accepted_domains (raw :: rest)
  = if accepted raw then cleanDomainLine raw :: accepted_domains rest
    else accepted_domains rest.
Proof. unfold accepted_domains. simpl. by destruct (accepted raw). Qed.

Lemma slept_skip silent raw : slept (skip_outputs silent raw) = 0%Z.
Proof.
  unfold skip_outputs. case_bool_decide; [done|]. apply slept_log_when.
Qed.

(** One line of the input: the counter, the failed domains and the sleep. *)
Lemma process_line_accounts fuel p n st i raw st' :
  exited st = false →
  process_line fuel p n st i raw = Some st' →
  exited st' = false
  ∧ apiKeyIndex st'
    = (apiKeyIndex st + if accepted raw then 1 else 0)%nat
  ∧ (failedDomains st' = failedDomains st
     ∨ accepted raw = true
       ∧ failedDomains st' = failedDomains st ++ [cleanDomainLine raw])
  ∧ slept (outputs st')
    = (slept (outputs st)
       + if accepted raw && (S i <? n)%nat then requestDelay else 0)%Z.
Proof.
  intros Hex. rewrite (process_line_eq _ _ _ _ _ _ Hex).
  destruct (accepted raw) eqn:Ea.
  - intros H. pose proof (processDomain_outputs _ _ _ _ _ _ _ H)
      as (traces & _ & Hout).
    apply processDomain_spec in H
      as (traces' & _ & _ & Hfail & _ & Hidx & Hexit & _).
    split; [congruence|]. split; [lia|]. split.
    { rewrite Hfail. destruct (domain_failed _ _); auto. }
    rewrite Hout, !slept_app, !slept_log_when, slept_logs. simpl.
    destruct (S i <? n)%nat; [|simpl; lia].
    rewrite slept_app, slept_log_when. simpl. lia.
  - intros [= <-]. simpl. split; [done|]. split; [lia|]. split; [by left|].
    rewrite slept_app, slept_skip. lia.
Qed.

Lemma run_lines_accounts fuel p n domains :
  ∀ i st st',
    exited st = false →
    run_lines fuel p n i domains st = Some st' →
    exited st' = false
    ∧ apiKeyIndex st'
      = (apiKeyIndex st + length (List.filter accepted domains))%nat
    ∧ (∃ fs, failedDomains st' = failedDomains st ++ fs
             ∧ fs `sublist_of` accepted_domains domains)
    ∧ ((i + length domains = n)%nat →
       slept (outputs st')
       = (slept (outputs st)
          + requestDelay
            * Z.of_nat (length (List.filter accepted (removelast domains))))%Z).
Proof.
  induction domains as [|raw rest IH]; intros i st st' Hex; simpl.
  - intros [= <-]. split; [done|]. split; [lia|].
    split; [exists []; by rewrite app_nil_r|]. intros _. lia.
  - destruct (process_line fuel p n st i raw) as [st1|] eqn:E; [|done].
    simpl. intros H.
    destruct (process_line_accounts _ _ _ _ _ _ _ Hex E)
      as (Hex1 & Hidx1 & Hfail1 & Hsl1).
    destruct (IH (S i) st1 st' Hex1 H)
      as (Hex' & Hidx' & (fs & Hfs & Hsub) & Hsl').
    split; [done|]. split.
    { rewrite Hidx', Hidx1. destruct (accepted raw); simpl; lia. }
    split.
    { rewrite accepted_domains_cons.
      destruct Hfail1 as [Hf|[Ha Hf]].
      - exists fs. split; [by rewrite Hfs, Hf|].
        destruct (accepted raw); [by apply sublist_cons|done].
      - exists (cleanDomainLine raw :: fs). rewrite Ha.
        split; [by rewrite Hfs, Hf, <- app_assoc|]. by apply sublist_skip. }
    intros Hn. rewrite Hsl' by lia. rewrite Hsl1.
    destruct rest as [|raw' rest'].
    + simpl. replace (S i <? n)%nat with false
        by (symmetry; apply Nat.ltb_ge; simpl in Hn; lia).
      rewrite andb_false_r. lia.
    + replace (S i <? n)%nat with true
        by (symmetry; apply Nat.ltb_lt; simpl in Hn; lia).
      rewrite andb_true_r.
      change (removelast (raw :: raw' :: rest'))
        with (raw :: removelast (raw' :: rest')).
      cbn [List.filter]. destruct (accepted raw); cbn [length]; lia.
Qed.

Lemma start_index p domains :
  apiKeyIndex (start p domains) = 0%nat
  ∧ slept (outputs (start p domains)) = 0%Z.
Proof.
  unfold start, prelude.
  destruct domains as [|raw rest]; destruct (silent p); simpl; try done;
    by case_bool_decide.
Qed.

(** The state in which the driver arrives at the end of the loop. *)
Lemma loop_accounts fuel p domains st :
  run_lines fuel p (length domains) 0 domains (start p domains) = Some st →
  apiKeyIndex st = length (List.filter accepted domains)
  ∧ failedDomains st `sublist_of` accepted_domains domains
  ∧ slept (outputs st)
    = (requestDelay
       * Z.of_nat (length (List.filter accepted (removelast domains))))%Z.
Proof.
  intros H. destruct (start_state p domains) as (_ & _ & Hf & _ & _ & Hex).
  destruct (start_index p domains) as (Hi & Hs).
  destruct domains as [|raw rest].
  - simpl in H. injection H as <-. by rewrite Hf, Hs.
  - rewrite bool_decide_eq_false_2 in Hex by done.
    destruct (run_lines_accounts _ _ _ _ _ _ _ Hex H)
      as (_ & Hidx & (fs & Hfs & Hsub) & Hsl).
    rewrite Hidx, Hi, Hfs, Hf, Hsl, Hs by done. simpl. by rewrite Z.add_0_l.
Qed.

Lemma slept_write_or_die p path lines msg k :
  slept k = 0%Z → slept (write_or_die p path lines msg k) = 0%Z.
Proof. unfold write_or_die. by destruct (write_error p path). Qed.

Lemma slept_save_failed p st k :
  slept k = 0%Z → slept (save_failed p st k) = 0%Z.
Proof.
  intros H. unfold save_failed. destruct (0 <? _)%nat; [|done].
  rewrite slept_app, slept_log_when. simpl. by apply slept_write_or_die.
Qed.

Lemma slept_finish p st : slept (outputs (finish p st)) = slept (outputs st).
Proof.
  unfold finish, perform. destruct (exited st); [done|]. simpl.
  rewrite slept_app.
  assert (slept (finish_outputs p st) = 0%Z) as ->; [|lia].
  unfold finish_outputs. apply slept_save_failed.
  destruct (silent p); [apply slept_prints|]. by apply slept_write_or_die.
Qed.

Lemma perform_index o st : apiKeyIndex (perform o st) = apiKeyIndex st.
Proof. unfold perform. by destruct (exited st). Qed.

(** X13: the key counter goes up by one for each line the driver
    processes and for no other, so that the [k]-th processed domain is
    queried with the counter at [k]; a key picked with the counter is one
    of the configured keys, and the keys are taken in turn. *)
Theorem apiKeyIndex_counts_processed (fuel : nat) (p : Params) (k : nat)
    (domains : list string) (st_k : Main) (keys : list string) :
  after_lines fuel p k domains = Some st_k →
  keys ≠ [] →
  apiKeyIndex st_k = length (List.filter accepted (take k domains))
  ∧ pick_key keys (apiKeyIndex st_k) ∈ keys
  ∧ keys !! (apiKeyIndex st_k mod length keys)%nat
    = Some (pick_key keys (apiKeyIndex st_k))
  ∧ pick_key keys (apiKeyIndex st_k + length keys)
    = pick_key keys (apiKeyIndex st_k).
Proof.
  intros H Hk. split.
  - unfold after_lines in H.
    destruct (start_state p domains) as (_ & _ & _ & _ & _ & Hex).
    destruct (start_index p domains) as (Hi & _).
    destruct domains as [|raw rest].
    + rewrite take_nil in *. simpl in H. injection H as <-. done.
    + rewrite bool_decide_eq_false_2 in Hex by done.
      destruct (run_lines_accounts _ _ _ _ _ _ _ Hex H) as (_ & Hidx & _).
      by rewrite Hidx, Hi.
  - assert (0 < length keys)%nat as Hlen by (destruct keys; [done|simpl; lia]).
    assert (is_Some (keys !! (apiKeyIndex st_k mod length keys)%nat))
      as [key Hkey].
    { apply lookup_lt_is_Some. apply Nat.mod_upper_bound. lia. }
    unfold pick_key. rewrite Hkey. simpl. split.
    { by eapply list_elem_of_lookup_2. }
    split; [done|].
    rewrite <- (Nat.mul_1_l (length keys)) at 1.
    rewrite Nat.Div0.mod_add. by rewrite Hkey.
Qed.

Lemma apiKeyIndex_counts_processed_witness :
  ∃ st, after_lines 1 two_urls 3 five_lines = Some st
        ∧ apiKeyIndex st = 2%nat
        ∧ pick_key ["k0"; "k1"] (apiKeyIndex st) ∈ ["k0"; "k1"].
Proof.
  assert (∃ st, after_lines 1 two_urls 3 five_lines = Some st) as [st H].
  { vm_compute. eexists. reflexivity. }
  exists st. split; [done|].
  destruct (apiKeyIndex_counts_processed 1 two_urls 3 five_lines st
              ["k0"; "k1"] H) as (Hi & Hin & _); [done|].
  split; [|done]. rewrite Hi. vm_compute. reflexivity.
Defined.

Lemma accepted_domains_accepted domains :
  Forall (λ d, accepted d = true ∧ cleanDomainLine d = d ∧ TrimSpace d = d)
         (accepted_domains domains).
Proof.
  induction domains as [|raw rest IH]; [constructor|].
  rewrite accepted_domains_cons. destruct (accepted raw) eqn:Ea; [|done].
  constructor; [|done]. unfold accepted in *.
  rewrite !cleanDomainLine_idem. split; [done|]. split; [done|].
  apply TrimSpace_clean, cleanDomainLine_bytes.
Qed.

Lemma accepted_domains_fixed l :
  Forall (λ d, accepted d = true ∧ cleanDomainLine d = d ∧ TrimSpace d = d) l →
  accepted_domains l = l.
Proof.
  induction 1 as [|d l (Ha & Hc & _) _ IH]; [done|].
  by rewrite accepted_domains_cons, Ha, Hc, IH.
Qed.

(** X14: the failed domains of a run are processed lines in their cleaned
    form and in the order of the input; each of them is a valid domain
    that cleaning and trimming leave as it is, so a later run that is given
    them as its input lines processes every one of them under the same
    name. *)
Theorem failed_domains_feed_back (fuel : nat) (p : Params)
    (domains : list string) (st : Main) :
  run fuel p domains = Some st →
  failedDomains st `sublist_of` accepted_domains domains
  ∧ Forall (λ d, accepted d = true ∧ cleanDomainLine d = d ∧ TrimSpace d = d)
           (failedDomains st)
  ∧ accepted_domains (failedDomains st) = failedDomains st.
Proof.
  unfold run. intros H.
  destruct (run_lines _ _ _ _ _ _) as [st1|] eqn:E; [|done].
  simpl in H. injection H as <-.
  destruct (loop_accounts _ _ _ _ E) as (_ & Hsub & _).
  destruct (perform_keeps (finish_outputs p st1) st1) as (_ & _ & Hf).
  unfold finish. rewrite Hf.
  assert (Forall (λ d, accepted d = true ∧ cleanDomainLine d = d
                       ∧ TrimSpace d = d) (failedDomains st1)) as HF.
  { rewrite Forall_forall. intros d Hd.
    pose proof (accepted_domains_accepted domains) as Hall.
    rewrite Forall_forall in Hall. apply Hall.
    by eapply elem_of_sublist. }
  split; [done|]. split; [done|]. by apply accepted_domains_fixed.
Qed.

Lemma failed_domains_feed_back_witness :
  ∃ st, run 1 wayback_only_empty ["example.com "; "!!"; "a.example.org"]
        = Some st
        ∧ failedDomains st = ["example.com"; "a.example.org"]
        ∧ accepted_domains (failedDomains st) = failedDomains st.
Proof.
  assert (∃ st, run 1 wayback_only_empty
                  ["example.com "; "!!"; "a.example.org"] = Some st
                ∧ failedDomains st = ["example.com"; "a.example.org"])
    as (st & H & Hf).
  { vm_compute. eexists. split; reflexivity. }
  exists st. split; [done|]. split; [done|].
  apply (failed_domains_feed_back 1 wayback_only_empty
           ["example.com "; "!!"; "a.example.org"] st H).
Defined.

(** X15: a run sleeps twenty seconds after each line it processes, except
    after the last input line: a processed domain is followed by the delay
    even when only blank or invalid lines come after it. *)
Theorem run_sleeps (fuel : nat) (p : Params) (domains : list string)
    (st : Main) :
  run fuel p domains = Some st →
  slept (outputs st)
  = (20 * Z.of_nat (length (List.filter accepted (removelast domains))))%Z.
Proof.
  unfold run. intros H.
  destruct (run_lines _ _ _ _ _ _) as [st1|] eqn:E; [|done].
  simpl in H. injection H as <-.
  destruct (loop_accounts _ _ _ _ E) as (_ & _ & Hsl).
  by rewrite slept_finish, Hsl.
Qed.

Lemma run_sleeps_witness :
  ∃ st, run 1 wayback_only_empty ["example.com"; ""] = Some st
        ∧ slept (outputs st) = 20%Z.
Proof.
  assert (∃ st, run 1 wayback_only_empty ["example.com"; ""] = Some st)
    as (st & H).
  { vm_compute. eexists. reflexivity. }
  exists st. split; [done|].
  rewrite (run_sleeps 1 wayback_only_empty ["example.com"; ""] st H).
  vm_compute. reflexivity.
Defined.

Lemma out_out o1 o2 st : out o2 (out o1 st) = out (o1 ++ o2) st.
Proof. unfold out. simpl. by rewrite app_assoc. Qed.

Lemma stdout_skip silent raw : stdout (skip_outputs silent raw) = [].
Proof.
  unfold skip_outputs. case_bool_decide; [done|]. apply stdout_log_when.
Qed.

Lemma writes_skip silent raw : writes (skip_outputs silent raw) = [].
Proof.
  unfold skip_outputs. case_bool_decide; [done|]. apply writes_log_when.
Qed.

(** Lines that are not accepted only add warnings. *)
Lemma run_lines_rejected fuel p n domains :
  Forall (λ raw, accepted raw = false) domains →
  ∀ i st, exited st = false →
    ∃ o, run_lines fuel p n i domains st = Some (out o st)
         ∧ stdout o = [] ∧ writes o = [] ∧ slept o = 0%Z.
Proof.
  induction 1 as [|raw rest Hr _ IH]; intros i st Hex; simpl.
  - exists []. by rewrite out_nil.
  - rewrite (process_line_eq _ _ _ _ _ _ Hex), Hr. simpl.
    destruct (IH (S i) (out (skip_outputs (silent p) raw) st) Hex)
      as (o & -> & Ho & Hw & Hs).
    exists (skip_outputs (silent p) raw ++ o). rewrite out_out.
    rewrite stdout_app, writes_app, slept_app, stdout_skip, writes_skip,
      slept_skip, Ho, Hw, Hs. done.
Qed.

Lemma finish_outputs_empty p st :
  failedDomains st = [] → finalUrlSet st = ∅ →
  finish_outputs p st
  = if silent p then []
    else write_or_die p (outputFile p) [] "Failed to write URLs: "
           [OutLog (LogAllDone 0 (outputFile p))].
Proof.
  intros Hf Hs. unfold finish_outputs, save_failed.
  rewrite Hf, Hs, flatten_empty. done.
Qed.

(** X16: with an input in which the driver accepts no line, no domain is
    processed: the key counter stays at 0, no message is received, there is
    no pause, the URL set and the failed domains stay empty, and standard
    output holds the banner and nothing else (nothing at all when silent).
    Unless silent, the end of [main] writes an output file without a line,
    and the process ends with a fatal error exactly when that write
    fails. *)
Theorem nothing_accepted (fuel : nat) (p : Params) (domains : list string) :
  domains ≠ [] →
  Forall (λ raw, accepted raw = false) domains →
  ∃ st, run fuel p domains = Some st
        ∧ received st = [] ∧ finalUrlSet st = ∅ ∧ failedDomains st = []
        ∧ apiKeyIndex st = 0%nat
        ∧ slept (outputs st) = 0%Z
        ∧ stdout (outputs st) = (if silent p then [] else [banner])
        ∧ writes (outputs st)
          = (if silent p then []
             else match write_error p (outputFile p) with
                  | None => [(outputFile p, [])]
                  | Some _ => []
                  end)
        ∧ exited st
          = negb (silent p)
            && bool_decide (is_Some (write_error p (outputFile p))).
Proof.
  intros Hne Hall. unfold run.
  destruct (start_state p domains) as (Hset & Hrec & Hf & Hso & Hw & Hex).
  destruct (start_index p domains) as (Hi & Hsl).
  rewrite bool_decide_eq_false_2 in Hex by done.
  destruct (run_lines_rejected fuel p (length domains) domains Hall 0
              (start p domains) Hex) as (o & -> & Ho & Hwo & Hso').
  simpl. eexists. split; [reflexivity|].
  set (st1 := out o (start p domains)).
  destruct (perform_keeps (finish_outputs p st1) st1) as (Hk1 & Hk2 & Hk3).
  pose proof (perform_index (finish_outputs p st1) st1) as Hk4.
  fold (finish p st1) in Hk1, Hk2, Hk3, Hk4.
  rewrite Hk1, Hk2, Hk3, Hk4, slept_finish. subst st1. simpl.
  split; [done|]. split; [done|]. split; [done|]. split; [done|].
  rewrite slept_app, Hsl, Hso'. split; [done|].
  unfold finish, perform. cbn [exited out]. rewrite Hex.
  cbn [outputs out exited].
  rewrite finish_outputs_empty by done.
  rewrite !stdout_app, !writes_app, Hso, Hw, Ho, Hwo.
  destruct (silent p); [done|]. unfold write_or_die.
  by destruct (write_error p (outputFile p)).
Qed.

Lemma nothing_accepted_witness :
  ∃ st, run 1 two_urls ["localhost"; "  "; "!!"] = Some st
        ∧ received st = []
        ∧ stdout (outputs st) = [banner]
        ∧ writes (outputs st) = [("endpoints.txt", [])]
        ∧ exited st = false.
Proof.
  destruct (nothing_accepted 1 two_urls ["localhost"; "  "; "!!"])
    as (st & H & Hr & _ & _ & _ & _ & Ho & Hw & Hx).
  - done.
  - repeat constructor.
  - exists st. split; [done|]. split; [done|]. split; [exact Ho|].
    split; [exact Hw | exact Hx].
Defined.

Lemma quiet_write_or_die p path lines msg k :
  forallb quiet_output k = true →
  forallb quiet_output (write_or_die p path lines msg k) = true.
Proof. unfold write_or_die. by destruct (write_error p path). Qed.

Lemma quiet_save_failed p st k :
  silent p = true → forallb quiet_output k = true →
  forallb quiet_output (save_failed p st k) = true.
Proof.
  intros Hs Hk. unfold save_failed. rewrite Hs.
  destruct (0 <? _)%nat; [|done]. simpl. by apply quiet_write_or_die.
Qed.

Lemma quiet_perform o st :
  forallb quiet_output o = true →
  forallb quiet_output (outputs st) = true →
  forallb quiet_output (outputs (perform o st)) = true.
Proof.
  intros Ho Hst. unfold perform. destruct (exited st); [done|]. simpl.
  by rewrite quiet_app, Ho, Hst.
Qed.

Lemma quiet_finish p st :
  silent p = true →
  forallb quiet_output (outputs st) = true →
  forallb quiet_output (outputs (finish p st)) = true.
Proof.
  intros Hs. apply quiet_perform. unfold finish_outputs.
  apply quiet_save_failed; [done|]. rewrite Hs. apply quiet_prints.
Qed.

Lemma quiet_on_interrupt p st :
  silent p = true →
  forallb quiet_output (outputs st) = true →
  forallb quiet_output (outputs (on_interrupt p st)) = true.
Proof.
  intros Hs. apply quiet_perform. unfold interrupt_outputs. rewrite Hs.
  simpl. apply quiet_write_or_die. by apply quiet_save_failed.
Qed.

Lemma quiet_process_line fuel p n st i raw st' :
  silent p = true →
  process_line fuel p n st i raw = Some st' →
  forallb quiet_output (outputs st) = true →
  forallb quiet_output (outputs st') = true.
Proof.
  intros Hs H Hq. destruct (exited st) eqn:Hex.
  { unfold process_line in H. rewrite Hex in H. by injection H as <-. }
  rewrite (process_line_eq _ _ _ _ _ _ Hex) in H.
  destruct (accepted raw).
  - apply processDomain_outputs in H as (traces & Hm & ->).
    rewrite Hs in Hm. rewrite (queriers_silent_logs _ _ _ _ _ _ _ _ Hm), Hs.
    simpl. rewrite quiet_app, Hq. by destruct (S i <? n)%nat.
  - injection H as <-. simpl. rewrite quiet_app, Hq. unfold skip_outputs.
    rewrite Hs. by case_bool_decide.
Qed.

Lemma quiet_run_lines fuel p n domains :
  silent p = true →
  ∀ i st st',
    run_lines fuel p n i domains st = Some st' →
    forallb quiet_output (outputs st) = true →
    forallb quiet_output (outputs st') = true.
Proof.
  intros Hs. induction domains as [|raw rest IH]; intros i st st'; simpl.
  - by intros [= <-].
  - destruct (process_line fuel p n st i raw) as [st1|] eqn:E; [|done].
    simpl. intros H Hq. eapply IH; [exact H|].
    by eapply quiet_process_line.
Qed.

Lemma quiet_start p domains :
  silent p = true →
  forallb quiet_output (outputs (start p domains)) = true.
Proof.
  intros Hs. unfold start, prelude. rewrite Hs.
  by destruct (length domains =? 0)%nat.
Qed.

(** X17: a silent run puts out no log line but a fatal error, whether it
    runs to its end or is interrupted: what it puts out are the URLs, the
    files, its pauses and its exit. *)
Theorem silent_run_is_quiet (fuel : nat) (p : Params)
    (domains : list string) :
  silent p = true →
  (∀ st, run fuel p domains = Some st →
         forallb quiet_output (outputs st) = true)
  ∧ (∀ k st, run_interrupted fuel p k domains = Some st →
             forallb quiet_output (outputs st) = true).
Proof.
  intros Hs. split.
  - unfold run. intros st H.
    destruct (run_lines _ _ _ _ _ _) as [st1|] eqn:E; [|done].
    simpl in H. injection H as <-. apply quiet_finish; [done|].
    eapply quiet_run_lines; [done | exact E |]. by apply quiet_start.
  - unfold run_interrupted. intros k st H.
    destruct (run_lines _ _ _ _ (take k domains) _) as [st1|] eqn:E1; [|done].
    simpl in H.
    destruct (run_lines _ _ _ _ (drop k domains) _) as [st2|] eqn:E2; [|done].
    simpl in H. injection H as <-. apply quiet_finish; [done|].
    eapply quiet_run_lines; [done | exact E2 |].
    apply quiet_on_interrupt; [done|].
    eapply quiet_run_lines; [done | exact E1 |]. by apply quiet_start.
Qed.

Lemma silent_run_is_quiet_witness :
  ∃ st, run 1 (quietly two_urls) five_lines = Some st
        ∧ forallb quiet_output (outputs st) = true.
Proof.
  assert (∃ st, run 1 (quietly two_urls) five_lines = Some st) as (st & H).
  { vm_compute. eexists. reflexivity. }
  exists st. split; [done|].
  apply (silent_run_is_quiet 1 (quietly two_urls) five_lines); [reflexivity|].
  exact H.
Defined.

(** X18: an error of [writeLinesToFile] ends the process with status 1 on
    the spot.  At the end of a run the failed domains are written first: if
    that write fails, no URL is written or printed.  In the watcher the
    URLs are written first: if that write fails, the failed domains are
    not saved and the exit status is not 0. *)
Theorem write_errors_are_fatal (p : Params) (st : Main) (e : error) :
  exited st = false →
  (failedDomains st ≠ [] → write_error p failed_path = Some e →
   outputs (finish p st)
   = outputs st
     ++ log_when (negb (silent p)) (LogFailedSaved (length (failedDomains st)))
     ++ [OutLog (LogFatal ("Failed to write failed domains to file: " +:+ e));
         OutExit 1]
   ∧ writes (outputs (finish p st)) = writes (outputs st)
   ∧ stdout (outputs (finish p st)) = stdout (outputs st)
   ∧ exited (finish p st) = true)
  ∧ (silent p = false → failedDomains st = [] →
     write_error p (outputFile p) = Some e →
     outputs (finish p st)
     = outputs st ++ [OutLog (LogFatal ("Failed to write URLs: " +:+ e));
                      OutExit 1]
     ∧ exited (finish p st) = true)
  ∧ (write_error p (outputFile p) = Some e →
     outputs (on_interrupt p st)
     = outputs st
       ++ log_when (negb (silent p)) LogInterrupt
       ++ [OutLog (LogFatal ("Failed to write URLs on interrupt: " +:+ e));
           OutExit 1]
     ∧ writes (outputs (on_interrupt p st)) = writes (outputs st)
     ∧ exited (on_interrupt p st) = true).
Proof.
  intros Hex. split; [|split].
  - intros Hf He.
    assert (finish_outputs p st
            = log_when (negb (silent p))
                (LogFailedSaved (length (failedDomains st)))
              ++ [OutLog (LogFatal ("Failed to write failed domains to file: "
                                    +:+ e)); OutExit 1]) as Ho.
    { unfold finish_outputs, save_failed, write_or_die. rewrite He.
      destruct (failedDomains st); [done|]. done. }
    unfold finish, perform. rewrite Hex, Ho. cbn [outputs exited].
    rewrite !writes_app, !stdout_app, writes_log_when, stdout_log_when,
      existsb_is_exit_app, exit_log_when.
    repeat split; simpl; by rewrite ?app_nil_r.
  - intros Hs Hf He.
    assert (finish_outputs p st
            = [OutLog (LogFatal ("Failed to write URLs: " +:+ e)); OutExit 1])
      as Ho.
    { unfold finish_outputs, save_failed, write_or_die. by rewrite Hf, Hs, He. }
    unfold finish, perform. rewrite Hex, Ho. done.
  - intros He.
    assert (interrupt_outputs p st
            = log_when (negb (silent p)) LogInterrupt
              ++ [OutLog (LogFatal ("Failed to write URLs on interrupt: "
                                    +:+ e)); OutExit 1]) as Ho.
    { unfold interrupt_outputs, write_or_die. by rewrite He. }
    unfold on_interrupt, perform. rewrite Hex, Ho. cbn [outputs exited].
    rewrite !writes_app, writes_log_when, existsb_is_exit_app, exit_log_when.
    repeat split; simpl; by rewrite ?app_nil_r.
Qed.

Lemma write_errors_are_fatal_witness :
  outputs (on_interrupt (unwritable "endpoints.txt" two_urls) initial)
  = [OutLog LogInterrupt;
     OutLog (LogFatal
               "Failed to write URLs on interrupt: permission denied");
     OutExit 1].
Proof.
  apply (write_errors_are_fatal (unwritable "endpoints.txt" two_urls) initial
           "permission denied"); reflexivity.
Defined.
(** ** Lines written and read back *)

Lemma Split_not_nil sep s : Split sep s ≠ [].
Proof.
  destruct s as [|a s]; simpl; [done|].
  case_bool_decide; [done|]. by destruct (Split sep s).
Qed.

Lemma Split_no_sep sep s :
  Forall (λ a, a ≠ sep) (bytes s) → Split sep s = [s].
Proof.
  induction s as [|a s IH]; simpl; [done|]. intros H.
  apply Forall_cons in H as [Ha H].
  rewrite bool_decide_eq_false_2 by done. by rewrite (IH H).
Qed.

Lemma Split_line sep l rest :
  Forall (λ a, a ≠ sep) (bytes l) →
  Split sep (l +:+ String sep rest) = l :: Split sep rest.
Proof.
  induction l as [|a l IH]; simpl.
  - intros _. by rewrite bool_decide_eq_true_2.
  - intros H. apply Forall_cons in H as [Ha H].
    rewrite bool_decide_eq_false_2 by done. by rewrite (IH H).
Qed.

Lemma dropCR_plain l :
  last (bytes l) ≠ Some carriage_return → dropCR l = l.
Proof.
  induction l as [|a l IH]; simpl; [done|]. intros H.
  destruct l as [|b l].
  - case_bool_decide as E1; [|done]. case_bool_decide as E2; [|done].
    subst a. by destruct H.
  - rewrite (bool_decide_eq_false_2 (String b l = "")) by done. simpl.
    f_equal. apply IH. intros E. apply H.
    change (bytes (String a (String b l))) with (a :: bytes (String b l)).
    rewrite last_cons. by rewrite E.
Qed.

Lemma too_long_plain l : plain_line l → too_long l = false.
Proof.
  intros (_ & _ & H). unfold too_long. apply Z.leb_gt. exact H.
Qed.

Lemma scan_cons l segments :
  too_long l = false → segments ≠ [] →
  scan (l :: segments) = (dropCR l :: (scan segments).1, (scan segments).2).
Proof.
  intros Hl Hne. simpl. rewrite Hl. destruct segments as [|s segs]; [done|].
  by destruct (scan (s :: segs)).
Qed.

Lemma readLines_cons l rest :
  plain_line l →
  readLines (l +:+ nl +:+ rest)
  = (l :: (readLines rest).1, (readLines rest).2).
Proof.
  intros Hl. unfold readLines, nl.
  change (l +:+ String newline "" +:+ rest) with (l +:+ (String newline rest)).
  rewrite Split_line by apply Hl.
  rewrite scan_cons; [| by apply too_long_plain | apply Split_not_nil].
  rewrite dropCR_plain by apply Hl. done.
Qed.

Lemma readLines_written lines :
  Forall plain_line lines → readLines (Fprintln_lines lines) = (lines, None).
Proof.
  induction 1 as [|l lines Hl _ IH]; [done|].
  simpl. rewrite readLines_cons by done. by rewrite IH.
Qed.

Lemma append_cons x (a b : string) : String x a +:+ b = String x (a +:+ b).
Proof. reflexivity. Qed.

Lemma string_app_assoc (a b c : string) : (a +:+ b) +:+ c = a +:+ (b +:+ c).
Proof.
  induction a as [|x a IH]; [done|]. by rewrite !append_cons, IH.
Qed.

Lemma bytes_app (a b : string) : bytes (a +:+ b) = bytes a ++ bytes b.
Proof.
  induction a as [|x a IH]; [done|]. rewrite append_cons. simpl.
  by rewrite IH.
Qed.

Lemma length_bytes s : length (bytes s) = String.length s.
Proof. induction s as [|a s IH]; simpl; [done|]. by rewrite IH. Qed.

Lemma append_one l a r : (l +:+ String a "") +:+ r = l +:+ String a r.
Proof.
  induction l as [|x l IH]; [done|]. by rewrite !append_cons, IH.
Qed.

Lemma dropCR_snoc l : dropCR (l +:+ String carriage_return "") = l.
Proof.
  induction l as [|a l IH]; [done|]. rewrite append_cons. simpl.
  rewrite IH. rewrite bool_decide_eq_false_2; [done|].
  by destruct l.
Qed.

Lemma readLines_last last :
  plain_line last → last ≠ "" → readLines last = ([last], None).
Proof.
  intros Hl Hne. unfold readLines. rewrite Split_no_sep by apply Hl.
  simpl. rewrite too_long_plain by done.
  rewrite bool_decide_eq_false_2 by done. by rewrite dropCR_plain by apply Hl.
Qed.

(** X19: what [writeLinesToFile] writes, the line scanner reads back line
    for line, when no line holds a newline, ends in a carriage return or
    reaches the 65536 bytes of the scanner's buffer.  A last line without
    its newline is read as well, and so are lines that end in a carriage
    return and a newline. *)
Theorem lines_round_trip (lines : list string) :
  Forall plain_line lines →
  (∀ files path,
     readLinesFromFile (<[path := Fprintln_lines lines]> files) path
     = (lines, None))
  ∧ (∀ last, plain_line last → last ≠ "" →
       readLines (Fprintln_lines lines +:+ last) = (lines ++ [last], None))
  ∧ (Forall (λ l, (Z.of_nat (String.length l) + 1 < MaxScanTokenSize)%Z) lines →
     readLines (crlf_lines lines) = (lines, None)).
Proof.
  intros Hall. split; [|split].
  - intros files path. unfold readLinesFromFile.
    rewrite lookup_insert_eq. by apply readLines_written.
  - intros last Hl Hne. induction Hall as [|l lines Hpl _ IH].
    + by apply readLines_last.
    + cbn [Fprintln_lines app].
      rewrite !string_app_assoc, readLines_cons by done. by rewrite IH.
  - intros Hlen. induction Hall as [|l lines Hpl _ IH]; [done|].
    apply Forall_cons in Hlen as [Hl Hlen]. cbn [crlf_lines].
    change (l +:+ String carriage_return nl +:+ crlf_lines lines)
      with (l +:+ String carriage_return (String newline (crlf_lines lines))).
    rewrite <- (append_one l carriage_return). unfold readLines.
    rewrite Split_line.
    2:{ rewrite bytes_app. apply Forall_app. split; [apply Hpl|].
        by repeat constructor. }
    rewrite scan_cons; [| |apply Split_not_nil].
    2:{ unfold too_long. apply Z.leb_gt.
        rewrite <- length_bytes, bytes_app, length_app, length_bytes.
        simpl. lia. }
    rewrite dropCR_snoc. fold (readLines (crlf_lines lines)).
    by rewrite IH.
Qed.

Lemma lines_round_trip_witness :
  readLines ("example.com" +:+ nl +:+ "example.org") 
  = (["example.com"; "example.org"], None).
Proof.
  apply (lines_round_trip ["example.com"]).
  - repeat constructor; vm_compute; congruence.
  - repeat constructor; vm_compute; congruence.
  - done.
Defined.

Lemma disk_after_writes (file_of : string → string) (outs : list output) :
  ∀ files, disk_after file_of outs files
           = foldl (λ files w, <[file_of w.1 := Fprintln_lines w.2]> files)
               files (writes outs).
Proof.
  unfold disk_after. induction outs as [|o outs IH]; intros files; [done|].
  simpl. rewrite IH. by destruct o.
Qed.

Lemma delete_outside_length keep s :
  (String.length (delete_outside keep s) ≤ String.length s)%nat.
Proof.
  induction s as [|a s IH]; simpl; [lia|]. destruct (keep a); simpl; lia.
Qed.

Lemma domain_bytes_plain d :
  Forall (λ a, domain_char a = true) (bytes d) →
  (Z.of_nat (String.length d) < MaxScanTokenSize)%Z → plain_line d.
Proof.
  intros Hall Hlen. split; [|split; [|done]].
  - eapply Forall_impl; [exact Hall|]. intros a Ha ->.
    vm_compute in Ha. discriminate Ha.
  - intros E. apply last_Some_elem_of in E. rewrite Forall_forall in Hall.
    specialize (Hall _ E). vm_compute in Hall. discriminate Hall.
Qed.

Lemma accepted_domains_plain domains :
  Forall (λ raw, (Z.of_nat (String.length raw) < MaxScanTokenSize)%Z) domains →
  Forall plain_line (accepted_domains domains).
Proof.
  induction 1 as [|raw rest Hr _ IH]; [constructor|].
  rewrite accepted_domains_cons. destruct (accepted raw); [|done].
  constructor; [|done]. apply domain_bytes_plain.
  - apply cleanDomainLine_bytes.
  - rewrite cleanDomainLine_delete.
    pose proof (delete_outside_length domain_char raw). lia.
Qed.

(** X20: the file of the failed domains that a run leaves, when it ends
    normally with some, reads back as the failed domains line for line
    (the input lines being shorter than the scanner's buffer, as lines
    that the scanner has read are), unless the run is not silent and its
    output path names that same file: then the file holds the URLs, which
    are written after the failed domains.  [file_of] says which file a
    path names. *)
Theorem failed_file_reads_back (fuel : nat) (p : Params)
    (domains : list string) (st : Main) (file_of : string → string)
    (files : gmap string string) :
  run fuel p domains = Some st →
  exited st = false →
  failedDomains st ≠ [] →
  Forall (λ raw, (Z.of_nat (String.length raw) < MaxScanTokenSize)%Z) domains →
  let disk := disk_after file_of (outputs st) files in
  ((silent p = false → file_of (outputFile p) ≠ file_of failed_path) →
   disk !! file_of failed_path = Some (Fprintln_lines (failedDomains st))
   ∧ readLines (Fprintln_lines (failedDomains st)) = (failedDomains st, None))
  ∧ (silent p = false → file_of (outputFile p) = file_of failed_path →
     disk !! file_of failed_path
     = Some (Fprintln_lines (flatten (iteration p) (finalUrlSet st)))).
Proof.
  unfold run. intros H Hex Hf Hlen.
  destruct (run_lines _ _ _ _ _ _) as [st1|] eqn:E; [|done].
  simpl in H. injection H as <-.
  assert (exited st1 = false) as Hex1.
  { destruct (exited st1) eqn:Ex; [|done].
    rewrite finish_exited in Hex by done. congruence. }
  destruct (loop_accounts _ _ _ _ E) as (_ & Hsub & _).
  destruct (perform_keeps (finish_outputs p st1) st1) as (Hset & _ & Hkeep).
  fold (finish p st1) in Hkeep, Hset. rewrite Hkeep, Hset in *.
  assert (writes (outputs st1) = []) as Hw1.
  { pose proof (run_lines_extends _ _ _ _ _ _ _ E) as Hext.
    rewrite (ext_writes _ _ Hext). apply start_state. }
  assert (Forall plain_line (failedDomains st1)) as Hplain.
  { rewrite Forall_forall. intros d Hd.
    pose proof (accepted_domains_plain domains Hlen) as Hall.
    rewrite Forall_forall in Hall. apply Hall. by eapply elem_of_sublist. }
  assert (failed_write st1 = [(failed_path, failedDomains st1)]) as Hfw.
  { unfold failed_write. by destruct (failedDomains st1). }
  cbv zeta. rewrite disk_after_writes.
  destruct (silent p) eqn:Hs.
  - destruct (finish_silent p st1 Hs Hex1 Hex) as (_ & ->).
    rewrite Hw1, Hfw. simpl. rewrite lookup_insert_eq.
    split; [|done]. intros _. split; [done|]. by apply readLines_written.
  - destruct (finish_loud p st1 Hs Hex1 Hex) as (_ & ->).
    rewrite Hw1, Hfw. simpl. split.
    + intros Hpath. rewrite lookup_insert_ne by auto.
      rewrite lookup_insert_eq. split; [done|]. by apply readLines_written.
    + intros _ ->. by rewrite lookup_insert_eq.
Qed.

Lemma failed_file_reads_back_witness :
  (∃ st, run 1 wayback_only_empty ["example.com "; "!!"; "a.example.org"]
         = Some st
         ∧ disk_after drop_dot_slash (outputs st) ∅ !! "failed_domains.txt"
           = Some (Fprintln_lines ["example.com"; "a.example.org"])
         ∧ readLines (Fprintln_lines ["example.com"; "a.example.org"])
           = (["example.com"; "a.example.org"], None))
  ∧ (∃ st, run 1 (writing_to "./failed_domains.txt" wayback_only_empty)
             ["example.com "; "!!"; "a.example.org"] = Some st
           ∧ failedDomains st = ["example.com"; "a.example.org"]
           ∧ disk_after drop_dot_slash (outputs st) ∅ !! "failed_domains.txt"
             = Some "").
Proof.
  split.
  - assert (∃ st, run 1 wayback_only_empty
                    ["example.com "; "!!"; "a.example.org"] = Some st
                  ∧ exited st = false
                  ∧ failedDomains st = ["example.com"; "a.example.org"])
      as (st & H & Hex & Hf).
    { vm_compute. eexists. repeat split; reflexivity. }
    exists st. split; [done|]. rewrite <- Hf.
    apply (failed_file_reads_back 1 wayback_only_empty
             ["example.com "; "!!"; "a.example.org"] st drop_dot_slash ∅
             H Hex).
    + by rewrite Hf.
    + repeat constructor.
    + intros _. vm_compute. discriminate.
  - assert (∃ st, run 1 (writing_to "./failed_domains.txt" wayback_only_empty)
                    ["example.com "; "!!"; "a.example.org"] = Some st
                  ∧ exited st = false
                  ∧ failedDomains st = ["example.com"; "a.example.org"]
                  ∧ finalUrlSet st = ∅)
      as (st & H & Hex & Hf & Hset).
    { vm_compute. eexists. repeat split; reflexivity. }
    exists st. split; [done|]. split; [done|].
    destruct (failed_file_reads_back 1
                (writing_to "./failed_domains.txt" wayback_only_empty)
                ["example.com "; "!!"; "a.example.org"] st drop_dot_slash ∅
                H Hex) as [_ T].
    + by rewrite Hf.
    + repeat constructor.
    + etrans; [apply (T eq_refl eq_refl)|].
      by rewrite Hset, flatten_empty.
Defined.

Lemma scan_nothing segments :
  scan segments = ([], None) → segments = [] ∨ segments = [""].
Proof.
  destruct segments as [|segment rest]; [by left|]. intros H. right.
  cbn [scan] in H. destruct (too_long segment); [done|].
  destruct rest as [|y l].
  - case_bool_decide as E; [by subst|done].
  - by destruct (scan (y :: l)).
Qed.

(** X21: the scanner hands out no line, and no error, exactly for an input
    without a byte; and without a line [main] gives up at once with a fatal
    error and status 1, having put out only what it puts out before it
    counts the lines (nothing, when silent).  An input of blank lines is
    not empty: it runs to the end and finds nothing. *)
Theorem empty_input_is_fatal (data : string) (fuel : nat) (p : Params) :
  (readLines data = ([], None) ↔ data = "")
  ∧ ∃ st, run fuel p [] = Some st
          ∧ outputs st
            = prelude p
              ++ [OutLog (LogFatal "No domains provided for scanning.");
                  OutExit 1]
          ∧ exited st = true.
Proof.
  split.
  - split; [|by intros ->]. unfold readLines. intros H.
    apply scan_nothing in H as [H|H].
    { by apply Split_not_nil in H. }
    destruct data as [|a s]; [done|]. exfalso. simpl in H.
    pose proof (Split_not_nil newline s) as Hne.
    case_bool_decide as Ea.
    + destruct (Split newline s) as [|x l]; [done|]. discriminate H.
    + destruct (Split newline s) as [|x l]; [done|]. discriminate H.
  - eexists. split; [reflexivity|]. split; [|done].
    simpl. by rewrite <- app_assoc.
Qed.

(** ** The flag [-e] *)

Lemma excluded_foldl (l : list string) (k : string) :
  ∀ m : gmap string bool,
    excluded (foldl (λ m src, <[TrimSpace src := true]> m) m l) k
    = bool_decide (k ∈ map TrimSpace l) || excluded m k.
Proof.
  induction l as [|x l IH]; intros m; cbn [foldl map].
  - rewrite bool_decide_eq_false_2; [done|]. apply not_elem_of_nil.
  - rewrite IH.
    assert (excluded (<[TrimSpace x := true]> m) k
            = bool_decide (k = TrimSpace x) || excluded m k) as ->.
    { clear IH. unfold excluded. case_bool_decide as E.
      - subst k. by rewrite lookup_insert_eq.
      - by rewrite lookup_insert_ne. }
    rewrite orb_assoc. f_equal.
    destruct (decide (k = TrimSpace x)) as [->|Hne].
    + rewrite (bool_decide_eq_true_2 (TrimSpace x = TrimSpace x)) by done.
      rewrite orb_true_r. symmetry. apply bool_decide_eq_true_2. left.
    + rewrite (bool_decide_eq_false_2 (k = TrimSpace x)) by done.
      rewrite orb_false_r. apply bool_decide_ext. set_solver.
Qed.

(** X22: a source is queried exactly when its key is not among the
    comma-separated parts of the flag [-e], each part taken without the
    white space around it; the keys are [vt], [otx], [wayback] and [hr] as
    written, and the sources that are queried keep their order. *)
Theorem dispatched_by_flag (excludeSources : string) (s : source) :
  (s ∈ dispatched (make_excludedMap excludeSources)
   ↔ source_key s ∉ map TrimSpace (Split ","%char excludeSources))
  ∧ dispatched (make_excludedMap excludeSources)
    `sublist_of` [VT; OTX; Wayback; HR].
Proof.
  split.
  - rewrite dispatched_spec. unfold make_excludedMap.
    case_bool_decide as He.
    + subst. split; [|done]. intros _. destruct s; vm_compute; set_solver.
    + rewrite excluded_foldl. unfold excluded.
      rewrite lookup_empty. cbn [default]. rewrite orb_false_r.
      by rewrite bool_decide_eq_false.
  - unfold dispatched. generalize [VT; OTX; Wayback; HR].
    induction l as [|x l IH]; simpl; [done|].
    destruct (negb _); [by apply sublist_skip | by apply sublist_cons].
Qed.

(** ** The body of the archive *)

Lemma Join_Split sep s : Join sep (Split sep s) = s.
Proof.
  induction s as [|a s IH]; [done|]. simpl.
  pose proof (Split_not_nil sep s) as Hne.
  case_bool_decide as E.
  - subst a. destruct (Split sep s) as [|x l]; [done|].
    cbn [Join] in *. by rewrite IH.
  - destruct (Split sep s) as [|x l]; [done|].
    destruct l as [|y l]; cbn [Join] in *; by rewrite <- IH.
Qed.

Lemma Split_parts sep s : Forall (λ x, Forall (λ a, a ≠ sep) (bytes x)) (Split sep s).
Proof.
  induction s as [|a s IH]; simpl; [by repeat constructor|].
  case_bool_decide as E; [by constructor|].
  destruct (Split sep s) as [|x l]; [by repeat constructor|].
  apply Forall_cons in IH as [Hx Hl]. constructor; [|done].
  simpl. by constructor.
Qed.

Lemma foldl_same {A B} (f g : A → B → A) (l : list B) :
  (∀ a b, f a b = g a b) → ∀ a, foldl f a l = foldl g a l.
Proof.
  intros H. induction l as [|x l IH]; intros a; simpl; [done|].
  by rewrite H, IH.
Qed.

Lemma foldl_keep (keep : string → bool) (l : list string) :
  ∀ acc : slice,
    elems (foldl (λ urls line, if keep line then go_append urls line
                               else urls) acc l)
    = elems acc ++ List.filter keep l.
Proof.
  induction l as [|x l IH]; intros acc; simpl; [by rewrite app_nil_r|].
  rewrite IH. destruct (keep x); [|done].
  unfold go_append. simpl. by rewrite <- app_assoc.
Qed.

(** X23: what the archive's querier takes from a response: the body is
    cut at its newlines, and the URLs are the parts that are not blank, as
    they are (a part is not trimmed) and in their order; the list is [nil]
    exactly when every part is blank.  The parts hold no newline and make
    up the body again when joined by newlines. *)
Theorem wayback_urls_lines (body : string) :
  elems (wayback_urls body) = List.filter not_blank (Split newline body)
  ∧ (wayback_urls body = None
     ↔ Forall (λ l, TrimSpace l = "") (Split newline body))
  ∧ Forall (λ l, Forall (λ a, a ≠ newline) (bytes l)) (Split newline body)
  ∧ Join newline (Split newline body) = body.
Proof.
  assert (elems (wayback_urls body)
          = List.filter not_blank (Split newline body)) as He.
  { assert (wayback_urls body
            = foldl (λ urls line, if not_blank line then go_append urls line
                                  else urls) None (Split newline body)) as ->.
    { unfold wayback_urls. apply foldl_same. intros acc line.
      unfold not_blank. by case_bool_decide. }
    by rewrite foldl_keep. }
  split; [done|]. split; [|split; [apply Split_parts | apply Join_Split]].
  split.
  - intros Hn. rewrite Hn in He. simpl in He.
    rewrite Forall_forall. intros l Hl.
    destruct (decide (TrimSpace l = "")) as [|Hne]; [done|]. exfalso.
    assert (l ∈ List.filter not_blank (Split newline body)) as Hin.
    { apply list_elem_of_In, filter_In. split; [by apply list_elem_of_In|].
      unfold not_blank. by rewrite bool_decide_eq_false_2. }
    rewrite <- He in Hin. by apply not_elem_of_nil in Hin.
  - intros Hall. pose proof (wayback_urls_not_empty body) as Hne.
    destruct (wayback_urls body) as [[|u l]|] eqn:E; [done| |done].
    exfalso. simpl in He.
    assert (u ∈ List.filter not_blank (Split newline body)) as Hin
      by (rewrite <- He; left).
    apply list_elem_of_In, filter_In in Hin as [Hin Hnb].
    rewrite Forall_forall in Hall.
    specialize (Hall u (proj2 (list_elem_of_In _ _) Hin)).
    unfold not_blank in Hnb. by rewrite bool_decide_eq_true_2 in Hnb.
Qed.

(** ** The pages of OTX *)

Lemma requests_app (l1 l2 : list event) :
  requests (l1 ++ l2) = requests l1 ++ requests l2.
Proof. apply omap_app. Qed.

Lemma is_sleep_app_do tr req :
  count is_sleep (tr ++ [EvDo req]) = count is_sleep tr.
Proof. rewrite count_app. unfold count at 2. simpl. lia. Qed.

Lemma only_requests (f : nat → Request) (l : list nat) :
  sends (map (λ k, EvDo (f k)) l) = []
  ∧ count is_sleep (map (λ k, EvDo (f k)) l) = 0%nat
  ∧ requests (map (λ k, EvDo (f k)) l) = map f l.
Proof.
  induction l as [|k l (IH1 & IH2 & IH3)]; [done|].
  cbn [map]. split; [exact IH1|]. split.
  - rewrite count_cons. exact IH2.
  - change (requests (EvDo (f k) :: map (λ k, EvDo (f k)) l))
      with (f k :: requests (map (λ k, EvDo (f k)) l)).
    by rewrite IH3.
Qed.

(** The loop over pages that all answer at the first attempt. *)
Lemma otx_pages_all lib net domain apiKeys apiKeyIndex silent :
  (∀ url, NewRequest_error lib url = None) →
  ∀ pages page allUrls tr0,
    pages ≠ [] →
    (∀ k r, pages !! k = Some r →
       ∃ resp,
         net (otx_request domain apiKeys apiKeyIndex (page + k))
             (count is_do tr0 + k)%nat = Responded resp
         ∧ unmarshal_otx lib (Body resp) = r
         ∧ HasNext r = bool_decide (S k < length pages)%nat) →
    otx_pages (length pages) lib net domain apiKeys apiKeyIndex silent page
      allUrls tr0
    = (Some (foldl go_append allUrls (concat (map URLList pages))),
       tr0 ++ map (λ k, EvDo (otx_request domain apiKeys apiKeyIndex
                                (page + k)))
                  (seq 0 (length pages))).
Proof.
  intros Hnew pages. induction pages as [|r pages IH];
    intros page allUrls tr0 Hne Hp; [done|].
  cbn [length otx_pages]. unfold NewRequest at 1. rewrite Hnew.
  unfold mbind, G_bind.
  set (req := if (0 <? length apiKeys)%nat then _ else _).
  assert (req = otx_request domain apiKeys apiKeyIndex page) as ->.
  { subst req. unfold otx_request, Header_Add. simpl.
    by destruct (0 <? length apiKeys)%nat. }
  unfold bind at 1. unfold makeRequestWithRetry, retryAttempts.
  rewrite retry_loop_S.
  destruct (Hp 0%nat r eq_refl) as (resp & Hnet & Hun & Hnext).
  rewrite !Nat.add_0_r in Hnet. rewrite Hnet, Hun, Hnext.
  cbn [seq map]. rewrite Nat.add_0_r.
  destruct pages as [|r' pages'].
  - clear IH Hp Hnext. case_bool_decide as Hb; [simpl in Hb; lia|].
    unfold ret. simpl. rewrite (app_nil_r (URLList r)). reflexivity.
  - clear Hnext. case_bool_decide as Hb; [|simpl in Hb; lia].
    rewrite (IH (S page) _ (tr0 ++ [EvDo (otx_request domain apiKeys
                                            apiKeyIndex page)])); [|done|].
    + f_equal.
      * change (concat (URLList r :: map URLList (r' :: pages')))
          with (URLList r ++ concat (map URLList (r' :: pages'))).
        by rewrite foldl_app.
      * rewrite <- app_assoc. f_equal. cbn [app]. f_equal.
        rewrite <- seq_shift, map_map. apply map_ext. intros k.
        do 2 f_equal. lia.
    + intros k rk Hk. destruct (Hp (S k) rk Hk) as (resp' & Hn' & Hu' & Hx').
      exists resp'. rewrite count_app.
      replace (count is_do [EvDo (otx_request domain apiKeys apiKeyIndex page)])
        with 1%nat by done.
      replace (S page + k)%nat with (page + S k)%nat by lia.
      replace (count is_do tr0 + 1 + k)%nat
        with (count is_do tr0 + S k)%nat by lia.
      split; [done|]. split; [done|]. rewrite Hx'.
      apply bool_decide_ext. simpl. lia.
Qed.

(** X24: when OTX answers each page at the first attempt and the last
    page is the first that announces no further one, the querier asks for
    the pages 1, 2, ... in turn, sleeps never, and sends the URLs of all
    the pages in their order, [nil] when there is none.  When there are
    keys, each request carries the key of this domain under the header
    [X-Otx-Api-Key], the canonical form under which [Header.Add] puts the
    name [X-OTX-API-KEY] of the source; without keys it carries no
    header. *)
Theorem otx_collects_all_pages (lib : Lib) (net : Net) (domain : string)
    (apiKeys : list string) (apiKeyIndex : nat) (silent : bool)
    (pages : list AlienVaultResponse) :
  (∀ url, NewRequest_error lib url = None) →
  pages ≠ [] →
  (∀ k r, pages !! k = Some r →
     ∃ resp,
       net (otx_request domain apiKeys apiKeyIndex (S k)) k = Responded resp
       ∧ unmarshal_otx lib (Body resp) = r
       ∧ HasNext r = bool_decide (S k < length pages)%nat) →
  ∃ tr,
    getAlienVaultURLs (length pages) lib net domain apiKeys apiKeyIndex silent
    = Some tr
    ∧ sends tr = [foldl go_append None (concat (map URLList pages))]
    ∧ elems (foldl go_append None (concat (map URLList pages)))
      = concat (map URLList pages)
    ∧ requests tr
      = map (λ k, otx_request domain apiKeys apiKeyIndex (S k))
            (seq 0 (length pages))
    ∧ Forall (λ req,
                Method req = "GET"
                ∧ Header req
                  = if (0 <? length apiKeys)%nat
                    then [("X-Otx-Api-Key", pick_key apiKeys apiKeyIndex)]
                    else []) (requests tr)
    ∧ count is_sleep tr = 0%nat.
Proof.
  intros Hnew Hne Hp. unfold getAlienVaultURLs.
  rewrite (otx_pages_all lib net domain apiKeys apiKeyIndex silent Hnew
             pages 1 None [] Hne) by exact Hp.
  eexists. split; [reflexivity|].
  unfold mbind, G_bind. rewrite log_then_send.
  set (dos := map (λ k, EvDo (otx_request domain apiKeys apiKeyIndex (1 + k)))
                  (seq 0 (length pages))).
  assert (sends dos = [] ∧ count is_sleep dos = 0%nat
          ∧ requests dos
            = map (λ k, otx_request domain apiKeys apiKeyIndex (S k))
                  (seq 0 (length pages))) as (Hs & Hsl & Hr).
  { subst dos.
    apply (only_requests
             (λ k, otx_request domain apiKeys apiKeyIndex (1 + k))). }
  assert (sends (log_events silent "SUCCESS" "OTX"
                   (found (foldl go_append None (concat (map URLList pages)))))
          = []
          ∧ requests (log_events silent "SUCCESS" "OTX"
                   (found (foldl go_append None (concat (map URLList pages)))))
            = []
          ∧ count is_sleep (log_events silent "SUCCESS" "OTX"
                   (found (foldl go_append None (concat (map URLList pages)))))
            = 0%nat) as (Ls & Lr & Lsl) by (by destruct silent).
  cbn [app].
  rewrite !sends_app, !requests_app, !count_app, Hs, Hr, Hsl, Ls, Lr, Lsl.
  split; [done|]. split.
  { pose proof (foldl_keep (λ _, true) (concat (map URLList pages)) None) as E.
    simpl in E. rewrite filter_true in E. exact E. }
  split; [by rewrite !app_nil_r|]. rewrite !app_nil_r. split; [|done].
  apply Forall_forall. intros req Hreq.
  apply list_elem_of_fmap in Hreq as (k & -> & _). done.
Qed.

Lemma otx_collects_all_pages_witness :
  ∃ tr,
    getAlienVaultURLs 2 example_lib (with_header "X-Otx-Api-Key" two_pages)
      "example.com" ["key"] 0 true
    = Some tr
    ∧ sends tr = [Some ["http://a.com/x"; "http://a.com/y"]]
    ∧ Forall (λ req, Header req = [("X-Otx-Api-Key", "key")]) (requests tr).
Proof.
  destruct (otx_collects_all_pages example_lib
              (with_header "X-Otx-Api-Key" two_pages) "example.com" ["key"]
              0 true
              [ {| URLList := ["http://a.com/x"]; HasNext := true |};
                {| URLList := ["http://a.com/y"]; HasNext := false |} ])
    as (tr & H & Hs & _ & _ & Hh & _).
  - reflexivity.
  - done.
  - intros [|[|k]] r Hk; [| |done]; injection Hk as <-;
      eexists; (split; [reflexivity|]); split; vm_compute; reflexivity.
  - exists tr. split; [exact H|]. split; [exact Hs|].
    eapply Forall_impl; [exact Hh|]. by intros req [_ ->].
Defined.

(** ** The goroutines of one domain never get stuck *)

Lemma live_lookup (gs : list (list event)) :
  (0 < length (List.filter live gs))%nat →
  ∃ j e rest, gs !! j = Some (e :: rest).
Proof.
  induction gs as [|g gs IH]; simpl; [lia|].
  destruct g as [|e rest]; simpl.
  - intros H. destruct (IH H) as (j & e & rest & Hj). by exists (S j), e, rest.
  - intros _. by exists 0%nat, e, rest.
Qed.

Lemma lookup_live (gs : list (list event)) j e rest :
  gs !! j = Some (e :: rest) → (0 < length (List.filter live gs))%nat.
Proof.
  revert j. induction gs as [|g gs IH]; intros j; [done|].
  destruct j as [|j]; simpl.
  - intros [= ->]. simpl. lia.
  - intros H. specialize (IH j H). destruct (live g); simpl; lia.
Qed.

Section NoDeadlock.
Import Machine.
Variable ex : gmap string bool.
Variable prog : source → list event.
Variable set0 : gset string.

Hypothesis prog_ends :
  ∀ s, excluded ex (source_key s) = false → ends_with_Done (prog s).
Hypothesis prog_one :
  ∀ s, excluded ex (source_key s) = false →
       (length (sends (prog s)) ≤ 1)%nat.

(** The results channel has room for every message still to come. *)
Lemma room_for_results st :
  Accounted ex prog set0 st →
  (length (urlChannel st) + length (messages (goroutines st)) ≤ capacity)%nat.
Proof.
  intros (dr & _ & Hp & _).
  destruct (dispatched_messages ex prog prog_ends prog_one) as [_ Hcap].
  apply Permutation_length in Hp. rewrite !length_app in Hp. lia.
Qed.

(** A querier that cannot move waits for room in the log channel, and the
    log consumer is there to make room. *)
Lemma querier_waits st j e rest :
  Inv st → Accounted ex prog set0 st →
  goroutines st !! j = Some (e :: rest) →
  querier_step j st = None →
  ∃ m m' q, e = EvLog m ∧ logChan st = m' :: q ∧ consumer st = true
            ∧ logClosed st = false.
Proof.
  intros [Iwf Iwg Ilw Iu Il Ij Ic Id Ir] A Hj.
  pose proof (lookup_live _ _ _ _ Hj) as Hlive.
  assert (joined_at (at_ st) = false) as Hnj.
  { destruct (joined_at (at_ st)) eqn:E; [|done]. specialize (Ij eq_refl). lia. }
  assert (urlClosed st = false ∧ logClosed st = false) as [Hu Hl].
  { rewrite Iu, Il. by destruct (at_ st). }
  unfold querier_step. rewrite Hj. destruct e as [req|d|m|urls|]; try done.
  - rewrite Hl. cbn [orb].
    destruct (capacity <=? length (logChan st))%nat eqn:E;
      [|done]. intros _. apply Nat.leb_le in E. unfold capacity in E.
    destruct (logChan st) as [|m' q] eqn:Hq; [simpl in E; lia|].
    exists m, m', q. repeat split; try done.
    destruct (consumer st) eqn:Hc; [done|]. destruct (Ic eq_refl). congruence.
  - rewrite Hu. cbn [orb].
    destruct (capacity <=? length (urlChannel st))%nat eqn:E;
      [|done]. intros _. apply Nat.leb_le in E.
    pose proof (room_for_results st A) as Hroom.
    pose proof (messages_step _ _ _ _ Hj) as Hm.
    apply Permutation_length in Hm. rewrite length_app in Hm. simpl in Hm. lia.
  - destruct (wg st =? 0)%nat eqn:E; [|done]. apply Nat.eqb_eq in E. lia.
Qed.

Lemma can_step st :
  Inv st → Accounted ex prog set0 st → at_ st ≠ AtEnd →
  ∃ l st', fire ex prog l st = Some st'.
Proof.
  intros I A Hne. pose proof I as [Iwf Iwg Ilw Iu Il Ij Ic Id Ir].
  destruct (at_ st) as [[|s rest]| | | | | | |] eqn:Hpc; try done.
  - exists Orchestrator. simpl. unfold main_step. rewrite Hpc. eauto.
  - exists Orchestrator. simpl. unfold main_step. rewrite Hpc.
    destruct (excluded ex (source_key s)); eauto.
  - destruct (wg st =? 0)%nat eqn:E.
    { exists Orchestrator. simpl. unfold main_step. rewrite Hpc, E. eauto. }
    apply Nat.eqb_neq in E.
    destruct (live_lookup (goroutines st)) as (j & e & r & Hj); [lia|].
    destruct (querier_step j st) as [st'|] eqn:Hq.
    { exists (Querier j), st'. exact Hq. }
    destruct (querier_waits st j e r I A Hj Hq) as (m & m' & q & _ & Hl & Hc & _).
    exists Consumer. simpl. unfold consumer_step. rewrite Hc, Hl. eauto.
  - exists Orchestrator. simpl. unfold main_step. rewrite Hpc. eauto.
  - exists Orchestrator. simpl. unfold main_step. rewrite Hpc. eauto.
  - destruct (logWg st =? 0)%nat eqn:E.
    { exists Orchestrator. simpl. unfold main_step. rewrite Hpc, E. eauto. }
    apply Nat.eqb_neq in E.
    assert (consumer st = true) as Hc.
    { destruct (consumer st); [done|]. lia. }
    exists Consumer. simpl. unfold consumer_step. rewrite Hc.
    destruct (logChan st); [|eauto].
    rewrite Il. simpl. eauto.
  - exists Orchestrator. simpl. unfold main_step. rewrite Hpc.
    destruct (urlChannel st); [|eauto]. rewrite Iu. simpl. eauto.
  - exists Orchestrator. simpl. unfold main_step. rewrite Hpc. eauto.
Qed.

End NoDeadlock.

Lemma queriers_prog fuel lib nets config domain idx silent ex prog :
  (∀ s, s ∈ dispatched ex →
     querier fuel lib nets config domain idx silent s = Some (prog s)) →
  (∀ s, excluded ex (source_key s) = false → ends_with_Done (prog s))
  ∧ (∀ s, excluded ex (source_key s) = false →
          (length (sends (prog s)) ≤ 1)%nat).
Proof.
  intros Hprog. split; intros s Hs; apply dispatched_spec in Hs.
  - by eapply querier_ends_with_Done, Hprog.
  - by eapply querier_one_send, Hprog.
Qed.

(** X25: the goroutines of one domain never deadlock: in every state that
    some schedule reaches, short of the end of the domain, some goroutine
    can take a step. *)
Theorem no_deadlock (fuel : nat) (lib : Lib) (nets : source → Net)
    (config : Config) (domain : string) (idx : nat) (silent : bool)
    (ex : gmap string bool) (prog : source → list event)
    (set0 : gset string) (sched : list Machine.label) (st : Machine.state) :
  (∀ s, s ∈ dispatched ex →
     querier fuel lib nets config domain idx silent s = Some (prog s)) →
  Machine.exec ex prog sched (Machine.init set0) = Some st →
  Machine.at_ st ≠ Machine.AtEnd →
  ∃ l st', Machine.fire ex prog l st = Some st'.
Proof.
  intros Hprog Hexec Hne.
  destruct (queriers_prog _ _ _ _ _ _ _ _ _ Hprog) as [Hends Hone].
  apply (can_step ex prog set0 Hends Hone); [| |done].
  - by eapply Inv_exec; [|apply Inv_init|].
  - eapply Accounted_exec; [done|apply Inv_init|apply Accounted_init|done].
Qed.

Lemma no_deadlock_witness :
  ∃ l st',
    Machine.fire archive_only archive_prog l
      (default (Machine.init ∅)
         (Machine.exec archive_only archive_prog archive_schedule
            (Machine.init ∅)))
    = Some st'.
Proof.
  apply (no_deadlock 1 example_lib (λ _, always "http://a.com/x") no_keys
           "example.com" 0 false archive_only archive_prog ∅ archive_schedule).
  - intros s Hs. vm_compute in Hs. apply list_elem_of_In in Hs.
    destruct Hs as [<-|[]]. vm_compute. reflexivity.
  - vm_compute. reflexivity.
  - vm_compute. discriminate.
Defined.

(** X26: a started querier that has not returned can always take its next
    step, unless that step is a log message for which the log channel has
    no room, and then the log consumer can take a message: a querier never
    waits on the results channel, never sends on a closed channel and never
    brings the wait-group below zero. *)
Theorem querier_only_waits_for_log_room (fuel : nat) (lib : Lib)
    (nets : source → Net) (config : Config) (domain : string) (idx : nat)
    (silent : bool) (ex : gmap string bool) (prog : source → list event)
    (set0 : gset string) (sched : list Machine.label) (st : Machine.state)
    (j : nat) (e : event) (rest : list event) :
  (∀ s, s ∈ dispatched ex →
     querier fuel lib nets config domain idx silent s = Some (prog s)) →
  Machine.exec ex prog sched (Machine.init set0) = Some st →
  Machine.goroutines st !! j = Some (e :: rest) →
  is_Some (Machine.querier_step j st)
  ∨ is_log e = true ∧ Machine.logClosed st = false
    ∧ is_Some (Machine.consumer_step st).
Proof.
  intros Hprog Hexec Hj.
  destruct (queriers_prog _ _ _ _ _ _ _ _ _ Hprog) as [Hends Hone].
  assert (Inv st) as I by (by eapply Inv_exec; [|apply Inv_init|]).
  assert (Accounted ex prog set0 st) as A.
  { eapply Accounted_exec; [done|apply Inv_init|apply Accounted_init|done]. }
  destruct (Machine.querier_step j st) as [st'|] eqn:Hq; [by left; eauto|].
  right.
  destruct (querier_waits ex prog set0 Hends Hone st j e rest I A Hj Hq)
    as (m & m' & q & -> & Hl & Hc & Hcl).
  split; [done|]. split; [done|].
  unfold Machine.consumer_step. rewrite Hc, Hl. eauto.
Qed.

Lemma querier_only_waits_for_log_room_witness :
  is_Some (Machine.querier_step 0
             (default (Machine.init ∅)
                (Machine.exec archive_only archive_prog
                   (repeat Machine.Orchestrator 5) (Machine.init ∅))))
  ∨ is_log (EvDo {| Method := "GET";
                    URL := "https://web.archive.org/cdx/search/cdx?url=*.example.com/*&output=text&fl=original&collapse=urlkey";
                    Header := [] |}) = true
    ∧ Machine.logClosed
        (default (Machine.init ∅)
           (Machine.exec archive_only archive_prog
              (repeat Machine.Orchestrator 5) (Machine.init ∅))) = false
    ∧ is_Some (Machine.consumer_step
                 (default (Machine.init ∅)
                    (Machine.exec archive_only archive_prog
                       (repeat Machine.Orchestrator 5) (Machine.init ∅)))).
Proof.
  eapply (querier_only_waits_for_log_room 1 example_lib
            (λ _, always "http://a.com/x") no_keys "example.com" 0 false
            archive_only archive_prog ∅ (repeat Machine.Orchestrator 5)).
  - intros s Hs. vm_compute in Hs. apply list_elem_of_In in Hs.
    destruct Hs as [<-|[]]. vm_compute. reflexivity.
  - vm_compute. reflexivity.
  - vm_compute. reflexivity.
Defined.

(** ** Every schedule is finite *)

Lemma concat_length_insert (gs : list (list event)) :
  ∀ j e rest, gs !! j = Some (e :: rest) →
    (length (concat (<[j := rest]> gs)) + 1 = length (concat gs))%nat.
Proof.
  induction gs as [|g gs IH]; intros j e rest Hj; [done|].
  destruct j as [|j]; simpl in *.
  - injection Hj as ->. rewrite !length_app. simpl. lia.
  - rewrite !length_app. specialize (IH j e rest Hj). lia.
Qed.

Section Measure.
Import Machine.
Variable ex : gmap string bool.
Variable prog : source → list event.

Lemma work_main_step st st' :
  main_step ex prog st = Some st' → (work ex prog st' < work ex prog st)%nat.
Proof.
  unfold main_step, work.
  destruct (at_ st) as [[|s rest]| | | | | | |] eqn:Hpc; simpl.
  - intros [= <-]. simpl. destruct (runCount st =? 0)%nat; simpl; lia.
  - destruct (excluded ex (source_key s)) eqn:Ex; intros [= <-]; simpl.
    + lia.
    + rewrite concat_app, !length_app. simpl. rewrite !length_app. simpl. lia.
  - destruct (wg st =? 0)%nat; [|done]. intros [= <-]. simpl. lia.
  - intros [= <-]. simpl. lia.
  - intros [= <-]. simpl. lia.
  - destruct (logWg st =? 0)%nat; [|done]. intros [= <-]. simpl. lia.
  - destruct (urlChannel st) as [|urls rest] eqn:Hch.
    + destruct (urlClosed st); [|done]. intros [= <-]. simpl.
      rewrite ?Hpc, ?Hch. simpl. lia.
    + intros [= <-]. simpl. rewrite ?Hpc, ?Hch. simpl. lia.
  - intros [= <-]. simpl. lia.
  - done.
Qed.

Lemma work_querier_step j st st' :
  querier_step j st = Some st' → (work ex prog st' < work ex prog st)%nat.
Proof.
  unfold querier_step, work.
  destruct (goroutines st !! j) as [[|e rest]|] eqn:Hj; [done| |done].
  pose proof (concat_length_insert _ _ _ _ Hj) as Hlen.
  destruct e.
  - intros [= <-]. simpl. lia.
  - intros [= <-]. simpl. lia.
  - destruct (logClosed st || _); [done|]. intros [= <-]. simpl.
    rewrite length_app. simpl. lia.
  - destruct (urlClosed st || _); [done|]. intros [= <-]. simpl.
    rewrite length_app. simpl. lia.
  - destruct (wg st =? 0)%nat; [done|]. intros [= <-]. simpl. lia.
Qed.

Lemma work_consumer_step st st' :
  consumer_step st = Some st' → (work ex prog st' < work ex prog st)%nat.
Proof.
  unfold consumer_step, work. destruct (consumer st) eqn:Hc; [|done].
  destruct (logChan st) as [|m rest] eqn:Hch.
  - destruct (logClosed st); [|done]. intros [= <-]. simpl.
    rewrite Hch. simpl. lia.
  - intros [= <-]. simpl. rewrite Hc. lia.
Qed.

Lemma work_exec sched :
  ∀ st st', exec ex prog sched st = Some st' →
    (length sched + work ex prog st' ≤ work ex prog st)%nat.
Proof.
  induction sched as [|l sched IH]; intros st st'; simpl.
  - intros [= <-]. lia.
  - destruct (fire ex prog l st) as [st1|] eqn:E; [|done]. simpl.
    intros H. specialize (IH _ _ H).
    assert (work ex prog st1 < work ex prog st)%nat; [|lia].
    destruct l; simpl in E.
    + by apply work_main_step.
    + by eapply work_querier_step.
    + by apply work_consumer_step.
Qed.

End Measure.

(** X27: every schedule of the goroutines of one domain is finite: a
    schedule has at most twelve steps and three for each event of the
    dispatched queriers; together with the absence of deadlock, the
    goroutines of a domain always arrive at its end. *)
Theorem schedules_are_bounded (ex : gmap string bool)
    (prog : source → list event) (set0 : gset string)
    (sched : list Machine.label) (st : Machine.state) :
  Machine.exec ex prog sched (Machine.init set0) = Some st →
  (length sched + work ex prog st
   ≤ 12 + 3 * length (concat (map prog (dispatched ex))))%nat.
Proof.
  intros H. apply work_exec in H.
  assert (work ex prog (Machine.init set0)
          = 12 + 3 * length (concat (map prog (dispatched ex))))%nat as E.
  { unfold work, dispatched. simpl. lia. }
  lia.
Qed.

Lemma schedules_are_bounded_witness :
  (length archive_to_end
   + work archive_only archive_prog
       (default (Machine.init ∅)
          (Machine.exec archive_only archive_prog archive_to_end
             (Machine.init ∅)))
   ≤ 12 + 3 * length (concat (map archive_prog (dispatched archive_only))))%nat.
Proof.
  apply (schedules_are_bounded archive_only archive_prog ∅ archive_to_end).
  vm_compute. reflexivity.
Defined.

(** ** The log lines of a source keep their order *)

Lemma source_name_inj s1 s2 : source_name s1 = source_name s2 → s1 = s2.
Proof. by destruct s1, s2. Qed.

Lemma dispatched_NoDup ex : NoDup (dispatched ex).
Proof.
  apply NoDup_ListNoDup. unfold dispatched. apply List.NoDup_filter.
  apply NoDup_ListNoDup. repeat constructor; set_solver.
Qed.

Lemma drop_head {A} (l : list A) n x t :
  drop n l = x :: t → l !! n = Some x ∧ drop (S n) l = t.
Proof.
  intros H. assert (l !! n = Some x) as Hn.
  { rewrite <- (Nat.add_0_r n), <- lookup_drop, H. done. }
  split; [done|]. rewrite (drop_S _ _ _ Hn) in H. by injection H.
Qed.

Lemma filter_snoc {A} (p : A → bool) l x :
  List.filter p (l ++ [x])
  = List.filter p l ++ (if p x then [x] else []).
Proof. rewrite List.filter_app. simpl. by destruct (p x). Qed.

Lemma querier_logs_tagged fuel lib nets config domain idx silent s tr :
  querier fuel lib nets config domain idx silent s = Some tr →
  Forall (λ m, Source m = source_name s) (logs tr).
Proof.
  intros H. apply querier_reports in H as [[-> _]|H]; [constructor|].
  destruct H as (pre & ty & msg & urls & -> & Fpre & _).
  rewrite !logs_app. apply Forall_app. split.
  - eapply early_event_logs; [|exact Fpre]. by intros m _ Hn _.
  - apply Forall_app. split; [|constructor].
    destruct silent; [constructor|]. by repeat constructor.
Qed.

Section Logs.
Import Machine.
Variable ex : gmap string bool.
Variable prog : source → list event.
Variable set0 : gset string.

Hypothesis prog_tags :
  ∀ s, s ∈ dispatched ex →
       Forall (λ m, Source m = source_name s) (logs (prog s)).

Lemma LogInv_init : LogInv ex prog (init set0).
Proof.
  split; simpl.
  - lia.
  - done.
  - intros j s _. unfold logged, remaining. by destruct j.
  - constructor.
Qed.

Lemma LogInv_same st st' :
  goroutines st' = goroutines st → logged st' = logged st →
  to_start ex (at_ st') = to_start ex (at_ st) →
  LogInv ex prog st → LogInv ex prog st'.
Proof.
  intros Hg Hl Ht [Hc Hs Ho Hta]. split.
  - by rewrite Hg.
  - by rewrite Hg, Ht.
  - intros j s Hj. unfold remaining. rewrite Hl, Hg. by apply Ho.
  - by rewrite Hl.
Qed.

Lemma LogInv_main_step st st' :
  LogInv ex prog st → main_step ex prog st = Some st' → LogInv ex prog st'.
Proof.
  intros L. unfold main_step.
  destruct (at_ st) as [[|s rest]| | | | | | |] eqn:Hpc.
  - intros [= <-]. apply (LogInv_same st); try done.
    simpl. rewrite Hpc. by destruct (runCount st =? 0)%nat.
  - destruct (excluded ex (source_key s)) eqn:Ex; intros [= <-].
    + apply (LogInv_same st); try done. simpl. rewrite Hpc. simpl.
      by rewrite Ex.
    + destruct L as [Hc Hs Ho Hta]. rewrite Hpc in Hs. simpl in Hs.
      rewrite Ex in Hs. simpl in Hs.
      apply drop_head in Hs as [Hn Hd].
      split; simpl.
      * rewrite length_app. simpl. apply lookup_lt_Some in Hn. lia.
      * rewrite length_app. simpl.
        by replace (length (goroutines st) + 1)%nat
          with (S (length (goroutines st))) by lia.
      * intros j s' Hj. specialize (Ho j s' Hj).
        unfold remaining in *. simpl. fold (logged st).
        destruct (decide (j < length (goroutines st))%nat) as [Hlt|Hge].
        { by rewrite lookup_app_l. }
        rewrite lookup_ge_None_2 in Ho by lia.
        destruct (decide (j = length (goroutines st))) as [->|Hne].
        { rewrite Hn in Hj. injection Hj as <-.
          rewrite lookup_app_r by lia. by rewrite Nat.sub_diag. }
        rewrite lookup_ge_None_2; [done|]. rewrite length_app. simpl. lia.
      * exact Hta.
  - destruct (wg st =? 0)%nat; [|done]. intros [= <-].
    apply (LogInv_same st); try done. simpl. by rewrite Hpc.
  - intros [= <-]. apply (LogInv_same st); try done. simpl. by rewrite Hpc.
  - intros [= <-]. apply (LogInv_same st); try done. simpl. by rewrite Hpc.
  - destruct (logWg st =? 0)%nat; [|done]. intros [= <-].
    apply (LogInv_same st); try done. simpl. by rewrite Hpc.
  - destruct (urlChannel st) as [|urls rest].
    + destruct (urlClosed st); [|done]. intros [= <-].
      apply (LogInv_same st); try done. simpl. by rewrite Hpc.
    + intros [= <-]. by apply (LogInv_same st).
  - intros [= <-]. apply (LogInv_same st); try done. simpl. by rewrite Hpc.
  - done.
Qed.

(** A step of a querier that sends no log message. *)
Lemma LogInv_quiet_step st j e rest st' :
  LogInv ex prog st →
  goroutines st !! j = Some (e :: rest) → is_log e = false →
  goroutines st' = <[j := rest]> (goroutines st) →
  logged st' = logged st → at_ st' = at_ st →
  LogInv ex prog st'.
Proof.
  intros [Hc Hs Ho Hta] Hj He Hg Hl Hat. split.
  - by rewrite Hg, length_insert.
  - by rewrite Hg, length_insert, Hat.
  - intros i s Hi. specialize (Ho i s Hi). unfold remaining in *.
    rewrite Hl, Hg. destruct (decide (i = j)) as [->|Hne].
    + rewrite list_lookup_insert_eq by (by eapply lookup_lt_Some).
      rewrite Hj in Ho. simpl in *. by destruct e.
    + by rewrite list_lookup_insert_ne.
  - by rewrite Hl.
Qed.

Lemma LogInv_querier_step j st st' :
  LogInv ex prog st → querier_step j st = Some st' → LogInv ex prog st'.
Proof.
  intros L. unfold querier_step.
  destruct (goroutines st !! j) as [[|e rest]|] eqn:Hj; [done| |done].
  destruct e as [req|d|m|urls|].
  - intros [= <-]. by eapply LogInv_quiet_step.
  - intros [= <-]. by eapply LogInv_quiet_step.
  - destruct (logClosed st || _); [done|]. intros [= <-].
    destruct L as [Hc Hs Ho Hta].
    assert (j < length (dispatched ex))%nat as Hlt.
    { apply lookup_lt_Some in Hj. lia. }
    destruct (lookup_lt_is_Some_2 _ _ Hlt) as [s0 Hs0].
    assert (Source m = source_name s0) as Hm.
    { pose proof (Ho j s0 Hs0) as E. unfold remaining in E.
      rewrite Hj in E. simpl in E.
      pose proof (prog_tags s0 (list_elem_of_lookup_2 _ _ _ Hs0)) as Hall.
      rewrite <- E in Hall. apply Forall_app in Hall as [_ Hall].
      by apply Forall_cons in Hall as [? _]. }
    assert (logged (set_logChan (logChan st ++ [m]) false
                      (set_goroutines (<[j:=rest]> (goroutines st)) st))
            = logged st ++ [m]) as Hlog.
    { unfold logged. simpl. by rewrite app_assoc. }
    split.
    + simpl. by rewrite length_insert.
    + simpl. by rewrite length_insert.
    + intros i s Hi. specialize (Ho i s Hi). rewrite Hlog, filter_snoc.
      unfold remaining in *. simpl.
      destruct (decide (i = j)) as [->|Hne].
      * rewrite list_lookup_insert_eq by (by eapply lookup_lt_Some).
        rewrite Hj in Ho. simpl in *.
        rewrite Hs0 in Hi. injection Hi as <-.
        unfold from_source. rewrite bool_decide_eq_true_2 by done.
        by rewrite <- app_assoc.
      * rewrite list_lookup_insert_ne by done.
        unfold from_source at 2. rewrite bool_decide_eq_false_2.
        { by rewrite app_nil_r. }
        rewrite Hm. intros E. apply source_name_inj in E. subst s0.
        apply Hne. by eapply NoDup_lookup; [apply dispatched_NoDup| |].
    + rewrite Hlog. apply Forall_app. split; [done|].
      constructor; [|constructor]. exists s0.
      split; [by eapply list_elem_of_lookup_2|done].
  - destruct (urlClosed st || _); [done|]. intros [= <-].
    by eapply LogInv_quiet_step.
  - destruct (wg st =? 0)%nat; [done|]. intros [= <-].
    by eapply LogInv_quiet_step.
Qed.

Lemma LogInv_consumer_step st st' :
  LogInv ex prog st → consumer_step st = Some st' → LogInv ex prog st'.
Proof.
  intros L. unfold consumer_step. destruct (consumer st); [|done].
  destruct (logChan st) as [|m rest] eqn:Hl.
  - destruct (logClosed st); [|done]. intros [= <-].
    by apply (LogInv_same st).
  - intros [= <-]. apply (LogInv_same st); try done.
    unfold logged. simpl. by rewrite Hl, <- app_assoc.
Qed.

Lemma LogInv_exec sched :
  ∀ st st', LogInv ex prog st → exec ex prog sched st = Some st' →
    LogInv ex prog st'.
Proof.
  induction sched as [|l sched IH]; intros st st' L; simpl.
  - by intros [= <-].
  - destruct (fire ex prog l st) as [st1|] eqn:E; [|done]. simpl.
    apply IH. destruct l; simpl in E.
    + by eapply LogInv_main_step.
    + by eapply LogInv_querier_step.
    + by eapply LogInv_consumer_step.
Qed.

End Logs.

(** X28: the log consumer prints the messages of each source in the order
    in which the source sent them, whatever the schedule: the lines printed
    so far under the tag of a source are always a prefix of its log
    messages; they are all of them once the orchestrator reads the results,
    and no other line has been printed. *)
Theorem log_lines_in_order (fuel : nat) (lib : Lib) (nets : source → Net)
    (config : Config) (domain : string) (idx : nat) (silent : bool)
    (ex : gmap string bool) (prog : source → list event)
    (set0 : gset string) (sched : list Machine.label) (st : Machine.state) :
  (∀ s, s ∈ dispatched ex →
     querier fuel lib nets config domain idx silent s = Some (prog s)) →
  Machine.exec ex prog sched (Machine.init set0) = Some st →
  (∀ s, s ∈ dispatched ex →
     List.filter (from_source s) (Machine.printed st)
     `prefix_of` logs (prog s))
  ∧ Forall (λ m, ∃ s, s ∈ dispatched ex ∧ Source m = source_name s)
           (Machine.printed st)
  ∧ (Machine.reads_or_decides st = true →
     ∀ s, s ∈ dispatched ex →
       List.filter (from_source s) (Machine.printed st) = logs (prog s)).
Proof.
  intros Hprog Hexec.
  assert (∀ s, s ∈ dispatched ex →
               Forall (λ m, Source m = source_name s) (logs (prog s))) as Htags.
  { intros s Hs. by eapply querier_logs_tagged, Hprog. }
  pose proof (LogInv_exec ex prog Htags sched _ _ (LogInv_init ex prog set0)
                Hexec) as [Hc Hs Ho Hta].
  split; [|split].
  - intros s Hin. apply list_elem_of_lookup in Hin as [j Hj].
    specialize (Ho j s Hj). unfold logged in Ho.
    rewrite List.filter_app, <- app_assoc in Ho. eexists. by rewrite <- Ho.
  - unfold logged in Hta. by apply Forall_app in Hta as [? _].
  - intros Hr s Hin.
    destruct (queriers_prog _ _ _ _ _ _ _ _ _ Hprog) as [Hends _].
    destruct (drain_after_logs ex prog set0 Hends sched st Hexec Hr)
      as (Hgs & _ & _ & _ & Hlc & _).
    apply list_elem_of_lookup in Hin as [j Hj].
    specialize (Ho j s Hj). unfold logged, remaining in Ho.
    rewrite Hlc, app_nil_r in Ho.
    assert (to_start ex (Machine.at_ st) = []) as Hts.
    { unfold Machine.reads_or_decides in Hr. by destruct (Machine.at_ st). }
    rewrite Hts in Hs.
    assert (j < length (Machine.goroutines st))%nat as Hlt.
    { apply lookup_lt_Some in Hj.
      destruct (decide (j < length (Machine.goroutines st))%nat); [done|].
      exfalso. apply (f_equal length) in Hs. rewrite length_drop in Hs.
      simpl in Hs. lia. }
    destruct (lookup_lt_is_Some_2 _ _ Hlt) as [g Hg].
    rewrite Hg in Ho. rewrite Forall_forall in Hgs.
    rewrite (Hgs g (list_elem_of_lookup_2 _ _ _ Hg)) in Ho. simpl in Ho.
    by rewrite app_nil_r in Ho.
Qed.

Lemma log_lines_in_order_witness :
  List.filter (from_source Wayback)
    (Machine.printed
       (default (Machine.init ∅)
          (Machine.exec archive_only archive_prog archive_schedule
             (Machine.init ∅))))
  = logs (archive_prog Wayback).
Proof.
  eapply (log_lines_in_order 1 example_lib (λ _, always "http://a.com/x")
            no_keys "example.com" 0 false archive_only archive_prog ∅
            archive_schedule).
  - intros s Hs. vm_compute in Hs. apply list_elem_of_In in Hs.
    destruct Hs as [<-|[]]. vm_compute. reflexivity.
  - vm_compute. reflexivity.
  - vm_compute. reflexivity.
  - apply list_elem_of_In. vm_compute. tauto.
Defined.

(** ** Concrete schedules and runs *)

Lemma every_schedule_agrees_witness :
  Machine.urlSet
    (default (Machine.init ∅)
       (Machine.exec archive_only archive_prog archive_to_end (Machine.init ∅)))
  = finalUrlSet
      (default initial
         (processDomain 1 archive_params 0 1 "example.com" initial)).
Proof.
  destruct (every_schedule_agrees 1 archive_params 0 1 "example.com" initial
              (default initial
                 (processDomain 1 archive_params 0 1 "example.com" initial))
              archive_prog archive_to_end
              (default (Machine.init ∅)
                 (Machine.exec archive_only archive_prog archive_to_end
                    (Machine.init ∅)))) as [E _].
  - vm_compute. reflexivity.
  - intros s Hs. vm_compute in Hs. apply list_elem_of_In in Hs.
    destruct Hs as [<-|[]]. vm_compute. reflexivity.
  - vm_compute. reflexivity.
  - vm_compute. reflexivity.
  - exact E.
Defined.

Lemma some_schedule_completes_witness :
  ∃ m, Machine.exec archive_only archive_prog
         (sequential archive_only archive_prog) (Machine.init ∅) = Some m
       ∧ Machine.at_ m = Machine.AtEnd.
Proof.
  apply (some_schedule_completes 1 archive_params 0 "example.com" initial
           archive_prog).
  intros s Hs. vm_compute in Hs. apply list_elem_of_In in Hs.
  destruct Hs as [<-|[]]. vm_compute. reflexivity.
Defined.

Lemma run_returns_witness : is_Some (run 1 two_urls five_lines).
Proof.
  apply (run_returns two_urls five_lines 0).
  intros i k req resp _ H. vm_compute in H. injection H as <-.
  vm_compute. reflexivity.
Defined.
(** ** The configuration file *)

(** X29: [loadConfig] returns a configuration only from a file that is
    there before the call, and then leaves the files as they are.  When the
    file is missing the call fails even if it creates the file; a created
    file holds the default text, and a second call reads that text.  The
    only path at which a call changes the files is that of the
    configuration, and only if no file was there.  A silent call logs
    nothing. *)
Theorem loadConfig_first_run (os : OS) (files : gmap string string) (silent : bool) :
  let '(result, files', lines) := loadConfig os files silent in
  (silent = true → lines = [])
  ∧ (∀ config, result = inl config →
       files' = files
       ∧ ∃ home data,
           UserHomeDir os = inl home
           ∧ files !! configPath os home = Some data
           ∧ yaml_Unmarshal os data = inl config)
  ∧ (∀ home, UserHomeDir os = inl home →
       IsNotExist os files (configPath os home) = true →
       (∃ e, result = inr e)
       ∧ (MkdirAll_error os (filepath_Dir os (configPath os home)) = None →
          WriteFile_error os (configPath os home) = None →
          files' = <[configPath os home := defaultConfig]> files
          ∧ result
            = inr ("a new configuration file has been created at "
                   +:+ configPath os home
                   +:+ ". Please edit it to add your API keys")
          ∧ (ReadFile_error os (configPath os home) = None →
             ∀ silent',
               (loadConfig os files' silent').1.1
               = match yaml_Unmarshal os defaultConfig with
                 | inl config => inl config
                 | inr e => inr ("could not parse config file: " +:+ e)
                 end)))
  ∧ (∀ path, files' !! path ≠ files !! path →
       files !! path = None
       ∧ ∃ home, UserHomeDir os = inl home ∧ path = configPath os home).
Proof.
  unfold loadConfig. destruct (UserHomeDir os) as [home|e] eqn:Eh.
  2:{ repeat split; try done; intros ? Hp; by destruct Hp. }
  cbv zeta. destruct (IsNotExist os files (configPath os home)) eqn:En.
  - assert (files !! configPath os home = None
            ∧ Stat_error os (configPath os home) = None) as [Hnone Hstat].
    { unfold IsNotExist in En. apply andb_prop in En as [E1 E2].
      apply bool_decide_eq_true in E1, E2. done. }
    assert (∀ data path,
              <[configPath os home := data]> files !! path ≠ files !! path →
              files !! path = None
              ∧ ∃ home', @inl string error home = inl home'
                         ∧ path = configPath os home')
      as Hother.
    { intros data path Hp.
      destruct (decide (path = configPath os home)) as [->|Hne].
      - split; [done|]. by exists home.
      - by rewrite lookup_insert_ne in Hp. }
    unfold createDefaultConfig.
    destruct (MkdirAll_error os _) as [e|] eqn:Em.
    { split; [by intros ->|]. split; [done|].
      split; [|intros ? Hp; by destruct Hp].
      intros home' [= <-] _. split; [eauto|]. intros Hm. congruence. }
    destruct (WriteFile_error os _) as [[e [partial|]]|] eqn:Ew.
    { split; [by intros ->|]. split; [done|]. split; [|apply Hother].
      intros home' [= <-] _. split; [eauto|]. intros _ Hw. congruence. }
    { split; [by intros ->|]. split; [done|].
      split; [|intros ? Hp; by destruct Hp].
      intros home' [= <-] _. split; [eauto|]. intros _ Hw. congruence. }
    split; [by intros ->|]. split; [done|]. split; [|apply Hother].
    intros home' [= <-] _. split; [eauto|]. intros _ _.
    split; [done|]. split; [done|]. intros Hread silent'.
    assert (IsNotExist os (<[configPath os home:=defaultConfig]> files)
              (configPath os home) = false) as ->.
    { unfold IsNotExist. rewrite lookup_insert_eq.
      by rewrite bool_decide_eq_false_2. }
    unfold ReadFile. rewrite Hread, lookup_insert_eq.
    by destruct (yaml_Unmarshal os defaultConfig).
  - unfold ReadFile.
    destruct (ReadFile_error os _) as [e|].
    { split; [by intros ->|]. split; [done|]. split; [|intros ? Hp; by destruct Hp].
      intros home' [= <-] E. congruence. }
    destruct (files !! configPath os home) as [data|] eqn:Ef.
    2:{ split; [by intros ->|]. split; [done|]. split; [|intros ? Hp; by destruct Hp].
        intros home' [= <-] E. congruence. }
    destruct (yaml_Unmarshal os data) as [config|e] eqn:Ey.
    + split; [by intros ->|]. split.
      { intros c [= <-]. split; [done|]. by exists home, data. }
      split; [|intros ? Hp; by destruct Hp]. intros home' [= <-] E. congruence.
    + split; [by intros ->|]. split; [done|]. split; [|intros ? Hp; by destruct Hp].
      intros home' [= <-] E. congruence.
Qed.

Example loadConfig_twice :
  let first := loadConfig example_os ∅ false in
  let second := loadConfig example_os first.1.2 false in
  first.1.1
  = inr ("a new configuration file has been created at "
         +:+ "/home/u/.config/Ph.Sh_url/config.yaml"
         +:+ ". Please edit it to add your API keys")
  ∧ first.1.2 = {[ "/home/u/.config/Ph.Sh_url/config.yaml" := defaultConfig ]}
  ∧ second.1.1
    = inl {| VirusTotalKeys := ["YOUR_VT_API_KEY_1"];
             AlienVaultKeys := ["YOUR_OTX_API_KEY_1"];
             HudsonRockKeys := ["YOUR_HUDSONROCK_API_KEY_1"] |}
  ∧ second.1.2 = first.1.2.
Proof. repeat split; vm_compute; reflexivity. Qed.

(** ** The URL set of a run *)

Lemma elem_of_urls_of (msgs : list slice) (u : string) :
  u ∈ urls_of msgs ↔ ∃ urls, Some urls ∈ msgs ∧ u ∈ urls.
Proof.
  unfold urls_of. rewrite elem_of_list_to_set, elem_of_concat. split.
  - intros (l & Hu & Hl). apply list_elem_of_fmap in Hl as (m & -> & Hm).
    destruct m as [urls|]; [|by apply not_elem_of_nil in Hu].
    by exists urls.
  - intros (urls & Hm & Hu). exists urls. split; [done|].
    apply list_elem_of_fmap. by exists (Some urls).
Qed.

Lemma elem_of_sends_concat (traces : list (list event)) (m : slice) :
  m ∈ sends (concat traces) ↔ ∃ tr, tr ∈ traces ∧ m ∈ sends tr.
Proof.
  induction traces as [|tr traces IH]; simpl.
  - split; [by intros ?%not_elem_of_nil|]. by intros (? & ?%not_elem_of_nil & _).
  - rewrite sends_app, elem_of_app, IH. split.
    + intros [H|(tr' & H1 & H2)].
      * exists tr. split; [left|done].
      * exists tr'. split; [by right|done].
    + intros (tr' & H1 & H2). apply elem_of_cons in H1 as [->|H1]; [by left|].
      right. by exists tr'.
Qed.

(** What a processed domain adds to the URL set: the URLs that its
    queriers send. *)
Lemma processDomain_returned fuel p i n domain st st' :
  processDomain fuel p i n domain st = Some st' →
  ∀ u, u ∈ finalUrlSet st'
       ↔ u ∈ finalUrlSet st
         ∨ ∃ s tr urls,
             s ∈ dispatched (excludedMap p)
             ∧ querier fuel (lib p) (world p i) (config p) domain
                 (apiKeyIndex st) (silent p) s = Some tr
             ∧ Some urls ∈ sends tr ∧ u ∈ urls.
Proof.
  intros H u. apply processDomain_spec in H as (traces & Hm & -> & _).
  apply mapM_Some in Hm.
  rewrite elem_of_union, elem_of_urls_of. split.
  - intros [H|(urls & Hin & Hu)]; [by left|]. right.
    apply elem_of_sends_concat in Hin as (tr & Htr & Hin).
    apply list_elem_of_lookup in Htr as (j & Hj).
    destruct (Forall2_lookup_r _ _ _ _ _ Hm Hj) as (s & Hs & Hq).
    exists s, tr, urls. split; [by eapply list_elem_of_lookup_2|done].
  - intros [H|(s & tr & urls & Hs & Hq & Hin & Hu)]; [by left|]. right.
    exists urls. split; [|done]. apply elem_of_sends_concat. exists tr.
    split; [|done]. apply list_elem_of_lookup in Hs as (j & Hj).
    destruct (Forall2_lookup_l _ _ _ _ _ Hm Hj) as (tr' & Htr & Hq').
    rewrite Hq in Hq'. injection Hq' as <-. by eapply list_elem_of_lookup_2.
Qed.

(** The URL set after some lines: what was there, and what the queriers of
    the accepted lines sent. *)
Lemma run_lines_returned fuel p n rest :
  ∀ i st st',
    exited st = false →
    run_lines fuel p n i rest st = Some st' →
    ∀ u, u ∈ finalUrlSet st'
         ↔ u ∈ finalUrlSet st
           ∨ ∃ j raw s tr urls,
               rest !! j = Some raw ∧ accepted raw = true
               ∧ s ∈ dispatched (excludedMap p)
               ∧ querier fuel (lib p) (world p (i + j)) (config p)
                   (cleanDomainLine raw)
                   (apiKeyIndex st
                    + length (List.filter accepted (take j rest)))
                   (silent p) s = Some tr
               ∧ Some urls ∈ sends tr ∧ u ∈ urls.
Proof.
  induction rest as [|raw rest IH]; intros i st st' Hex; simpl.
  - intros [= <-] u. split; [by left|].
    intros [H|(j & raw & _ & _ & _ & Hj & _)]; [done|]. done.
  - destruct (process_line fuel p n st i raw) as [st1|] eqn:E; [|done].
    simpl. intros H u.
    destruct (process_line_accounts _ _ _ _ _ _ _ Hex E) as (Hex1 & Hidx & _).
    rewrite (IH (S i) st1 st' Hex1 H u). clear IH.
    rewrite (process_line_eq _ _ _ _ _ _ Hex) in E.
    assert (u ∈ finalUrlSet st1
            ↔ u ∈ finalUrlSet st
              ∨ accepted raw = true
                ∧ ∃ s tr urls,
                    s ∈ dispatched (excludedMap p)
                    ∧ querier fuel (lib p) (world p i) (config p)
                        (cleanDomainLine raw) (apiKeyIndex st) (silent p) s
                      = Some tr
                    ∧ Some urls ∈ sends tr ∧ u ∈ urls) as ->.
    { destruct (accepted raw).
      - rewrite (processDomain_returned _ _ _ _ _ _ _ E u). naive_solver.
      - injection E as <-. simpl. naive_solver. }
    split.
    + intros [[H0|(Ha & s & tr & urls & Hs & Hq & Hin & Hu)]
             |(j & raw' & s & tr & urls & Hj & Ha & Hs & Hq & Hin & Hu)].
      * by left.
      * right. exists 0%nat, raw, s, tr, urls.
        rewrite Nat.add_0_r, take_0. simpl. rewrite Nat.add_0_r. done.
      * right. exists (S j), raw', s, tr, urls.
        split; [done|]. split; [done|]. split; [done|].
        split; [|done]. rewrite <- Hq. f_equal; [f_equal; lia|].
        rewrite Hidx. cbn [take List.filter].
        destruct (accepted raw); simpl; lia.
    + intros [H0|(j & raw' & s & tr & urls & Hj & Ha & Hs & Hq & Hin & Hu)];
        [by left; left|].
      destruct j as [|j].
      * injection Hj as <-. left. right. split; [done|].
        exists s, tr, urls. rewrite Nat.add_0_r, take_0 in Hq. simpl in Hq.
        rewrite Nat.add_0_r in Hq. done.
      * right. exists j, raw', s, tr, urls.
        split; [done|]. split; [done|]. split; [done|].
        split; [|done]. rewrite <- Hq. f_equal; [f_equal; lia|].
        rewrite Hidx. cbn [take List.filter].
        destruct (accepted raw); simpl; lia.
Qed.

(** The URL set when the first [k] lines are dealt with: the URLs that the
    queriers of these lines returned. *)
Lemma after_lines_returned fuel p k domains st_k :
  after_lines fuel p k domains = Some st_k →
  ∀ u, u ∈ finalUrlSet st_k ↔ returned fuel p domains k u.
Proof.
  unfold after_lines. intros H u.
  destruct (start_state p domains) as (Hset & _ & _ & _ & _ & Hex).
  destruct (start_index p domains) as (Hidx & _).
  destruct domains as [|raw0 rest0] eqn:Ed.
  { rewrite take_nil in H. injection H as <-. rewrite Hset. split; [done|].
    by intros (i & raw & _ & _ & _ & _ & Hi & _). }
  rewrite <- Ed in *. rewrite bool_decide_eq_false_2 in Hex by (by subst).
  rewrite (run_lines_returned _ _ _ _ _ _ _ Hex H u), Hset, Hidx.
  unfold returned. split.
  - intros [H0|(j & raw & s & tr & urls & Hj & Ha & Hs & Hq & Hin & Hu)];
      [done|].
    apply lookup_take_Some in Hj as [Hj Hlt].
    exists j, raw, s, tr, urls. repeat split; try done.
    rewrite <- Hq. simpl. by rewrite take_take, Nat.min_l by lia.
  - intros (i & raw & s & tr & urls & Hlt & Hi & Ha & Hs & Hq & Hin & Hu).
    right. exists i, raw, s, tr, urls.
    split; [by apply lookup_take_Some|]. repeat split; try done.
    rewrite <- Hq. simpl. by rewrite take_take, Nat.min_l by lia.
Qed.

Lemma exit_prints l : existsb is_exit (map OutPrint l) = false.
Proof. by induction l. Qed.

(** The end of [main] does not exit when its writes succeed. *)
Lemma finish_writable p st :
  exited st = false →
  (failedDomains st ≠ [] → write_error p failed_path = None) →
  (silent p = false → write_error p (outputFile p) = None) →
  exited (finish p st) = false.
Proof.
  intros Hex Wf Wo. unfold finish, perform, finish_outputs. rewrite Hex.
  cbn [exited].
  match goal with
  | |- existsb is_exit (save_failed p st ?k) = false =>
      destruct (save_failed_cases p st k)
        as [(_ & _ & _ & ->)|([Hne Hf] & _)]
  end.
  - destruct (silent p); [apply exit_prints|].
    unfold write_or_die. by rewrite Wo.
  - by destruct Hne; apply Wf.
Qed.

(** The run up to the end of the loop, from a run that returns. *)
Lemma run_loop fuel p domains st :
  run fuel p domains = Some st →
  ∃ st1, after_lines fuel p (length domains) domains = Some st1
         ∧ st = finish p st1.
Proof.
  unfold run, after_lines. rewrite firstn_all.
  destruct (run_lines _ _ _ _ _ _) as [st1|]; [|done].
  intros [= <-]. by exists st1.
Qed.

Lemma returned_mono fuel p domains j k u :
  (j ≤ k)%nat → returned fuel p domains j u → returned fuel p domains k u.
Proof.
  intros Hjk (i & raw & s & tr & urls & Hi & H). exists i, raw, s, tr, urls.
  split; [lia|done].
Qed.

(** C6: for every run that reaches its end, the global URL set is the union
    of the URLs that the queriers returned during the run, which is also
    the union of the URLs of all the messages read from the results
    channels.  When the run has input and its files can be written, the end
    of [main] is reached without a fatal error, and the list it writes to
    the output file (prints, in silent mode) holds exactly these URLs, each
    once, in the order of the iteration over the set; this write is the
    last, so that the file the output path names holds the list afterwards.
    The set only grows from line to line, and inserting a URL that is
    present changes nothing. *)
Theorem C6_global_url_set (fuel : nat) (p : Params) (domains : list string)
    (st : Main) :
  run fuel p domains = Some st →
  (∀ u, u ∈ finalUrlSet st ↔ returned fuel p domains (length domains) u)
  ∧ finalUrlSet st = urls_of (received st)
  ∧ (domains ≠ [] →
     (failedDomains st ≠ [] → write_error p failed_path = None) →
     (silent p = false → write_error p (outputFile p) = None) →
     exited st = false
     ∧ ∃ finalUrls,
         (if silent p then stdout (outputs st) = finalUrls
          else last (writes (outputs st)) = Some (outputFile p, finalUrls))
         ∧ finalUrls = flatten (iteration p) (finalUrlSet st)
         ∧ NoDup finalUrls
         ∧ (∀ u, u ∈ finalUrls
                 ↔ returned fuel p domains (length domains) u)
         ∧ (silent p = false →
            ∀ (file_of : string → string) fs,
              files_after file_of (outputs st) fs !! file_of (outputFile p)
              = Some finalUrls))
  ∧ (∀ j k st_j st_k,
       (j ≤ k)%nat →
       after_lines fuel p j domains = Some st_j →
       after_lines fuel p k domains = Some st_k →
       finalUrlSet st_j ⊆ finalUrlSet st_k ∧ finalUrlSet st_k ⊆ finalUrlSet st)
  ∧ (∀ (set : gset string) u, u ∈ set → insert_url u set = set).
Proof.
  intros H. apply run_loop in H as (st1 & E & ->).
  destruct (perform_keeps (finish_outputs p st1) st1) as (KS & KR & KF).
  fold (finish p st1) in KS, KR, KF.
  destruct (after_lines_state fuel p (length domains) domains st1 E)
    as (_ & HU & HO & HW & HX).
  pose proof (after_lines_returned _ _ _ _ _ E) as Hret.
  split; [by rewrite KS|]. split; [by rewrite KS, KR|].
  split; [|split].
  - rewrite KS, KF. intros Hne Wf Wo.
    rewrite bool_decide_eq_false_2 in HX by done.
    pose proof (finish_writable p st1 HX Wf Wo) as Hx. split; [done|].
    exists (flatten (iteration p) (finalUrlSet st1)). split.
    { destruct (silent p) eqn:Hs.
      - destruct (finish_silent p st1 Hs HX Hx) as [-> _]. by rewrite HO.
      - destruct (finish_loud p st1 Hs HX Hx) as [_ ->].
        by rewrite HW, app_nil_l, last_snoc. }
    split; [done|]. split; [apply NoDup_flatten|].
    split; [intros u; by rewrite elem_of_flatten|].
    intros Hs file_of fs. rewrite files_after_writes.
    destruct (finish_loud p st1 Hs HX Hx) as [_ ->].
    rewrite HW, app_nil_l, foldl_app. simpl. apply lookup_insert_eq.
  - intros j k st_j st_k Hjk Hj Hk. rewrite KS.
    pose proof (after_lines_returned _ _ _ _ _ Hj) as Rj.
    pose proof (after_lines_returned _ _ _ _ _ Hk) as Rk.
    split; intros u Hu.
    + apply Rk. eapply returned_mono; [exact Hjk|]. by apply Rj.
    + destruct (run_split fuel p k domains st1) as (st_k' & Hk' & Hext).
      { unfold after_lines in E. by rewrite firstn_all in E. }
      rewrite Hk in Hk'. injection Hk' as <-. by apply Hext.
  - intros set u Hu. unfold insert_url. set_solver.
Qed.

Lemma C6_witness :
  ∃ st finalUrls,
    run 1 archive_overlap five_lines = Some st
    ∧ exited st = false
    ∧ last (writes (outputs st)) = Some ("endpoints.txt", finalUrls)
    ∧ finalUrls = ["http://cdn.com/z"; "http://a.com/x"; "http://b.com/y"]
    ∧ (∀ u, u ∈ finalUrls ↔ returned 1 archive_overlap five_lines 5 u)
    ∧ failedDomains st = ["example.org"; "example.net"]
    ∧ files_after drop_dot_slash (outputs st) ∅ !! "endpoints.txt"
      = Some finalUrls.
Proof.
  assert (∃ st, run 1 archive_overlap five_lines = Some st
                ∧ flatten 0 (finalUrlSet st)
                  = ["http://cdn.com/z"; "http://a.com/x"; "http://b.com/y"]
                ∧ failedDomains st = ["example.org"; "example.net"])
    as (st & H & Hl & Hfd).
  { eexists. split; [vm_compute; reflexivity|].
    split; vm_compute; reflexivity. }
  destruct (C6_global_url_set 1 archive_overlap five_lines st H)
    as (_ & _ & Hend & _).
  destruct Hend as (Hx & finalUrls & Hw & Hf & _ & Hu & Hfiles).
  - discriminate.
  - reflexivity.
  - reflexivity.
  - exists st, finalUrls. split; [exact H|]. split; [exact Hx|].
    split; [exact Hw|]. split; [by rewrite Hf|]. split; [exact Hu|].
    split; [exact Hfd|]. by apply Hfiles.
Defined.







